(** * Chord vnode (net/chord/vnode.go): successor list, finger table,
      lookup and snapshot encoding, as a shallow embedding.

    - Go pointers [*Vnode] are addresses into an immutable store of vnode
      identities; [None] is the nil pointer, and pointer comparison is
      comparison of addresses.
    - Go [int]s are [Z]; loop counters stay below the length of a slice,
      and the one difference of unbounded operands wraps at 64 bits.
    - Slices are lists; reading or writing past the end, slicing with a
      negative bound and dereferencing nil are run-time panics.
    - A panic is an outcome of its own, distinct from a returned [error]
      value: it ends the run of the process.
    - The transport, the ring arithmetic and the closest-preceding
      iterator live outside vnode.go; the operations take them as
      parameters.  A transport call answers with a value and an error; it
      may change the outside world, never the vnode.  Logging is left out. *)

From Stdlib Require Import ZArith Lia List String Ascii Bool.
From Stdlib Require Strings.Byte.
From stdpp Require Import base list.

Local Open Scope Z_scope.

(** ** Vnode identities and their hex rendering *)

Abbreviation byte := Byte.byte.

Record Vnode := mkVnode {
  Id : list byte;
  Host : string;
  NodePort : Z;
  HttpWsPort : Z
}.

Record VnodeData := mkVnodeData {
  DataId : string;
  DataHost : string;
  DataNodePort : Z;
  DataHttpWsPort : Z
}.

(** One lower-case hexadecimal digit, as [fmt.Sprintf("%x", ...)] prints. *)
Definition hex_digit (n : N) : ascii :=
  match n with
  | 0%N => "0" | 1%N => "1" | 2%N => "2" | 3%N => "3"
  | 4%N => "4" | 5%N => "5" | 6%N => "6" | 7%N => "7"
  | 8%N => "8" | 9%N => "9" | 10%N => "a" | 11%N => "b"
  | 12%N => "c" | 13%N => "d" | 14%N => "e" | _ => "f"
  end%char.

Definition hex_value (c : ascii) : N :=
  let n := N_of_ascii c in
  if (n <? 58)%N then (n - 48)%N else (n - 87)%N.

Definition byte_hex (b : byte) : string :=
  String (hex_digit (Byte.to_N b / 16))
    (String (hex_digit (Byte.to_N b mod 16)) EmptyString).

Fixpoint hex_encode (bs : list byte) : string :=
  match bs with
  | [] => EmptyString
  | b :: rest => String.append (byte_hex b) (hex_encode rest)
  end.

(** [func (vn *Vnode) String() string]: the Id in hex. *)
Definition Vnode_String (vn : Vnode) : string := hex_encode (Id vn).

(** [func (vn *Vnode) ToData() *VnodeData], on a non-nil receiver. *)
Definition Vnode_ToData (vn : Vnode) : VnodeData :=
  mkVnodeData (Vnode_String vn) (Host vn) (NodePort vn) (HttpWsPort vn).

(** ** Pointers, panics and outcomes *)

Abbreviation addr := nat.
Abbreviation VnodePtr := (option addr).

Definition ptr_eqb (p q : VnodePtr) : bool :=
  match p, q with
  | None, None => true
  | Some a, Some b => Nat.eqb a b
  | _, _ => false
  end.

Abbreviation error := string.

Inductive panic :=
| NilDereference
| IndexOutOfRange
| SliceBoundsOutOfRange
| ExplicitPanic (msg : string).

Inductive outcome (A : Type) :=
| Done (a : A)
| Panicked (p : panic)
| OutOfFuel.
Arguments Done {A} a.
Arguments Panicked {A} p.
Arguments OutOfFuel {A}.

(** Go [int] is 64 bits wide; sums and differences wrap. *)
Definition wrap64 (z : Z) : Z := (z + 2 ^ 63) mod 2 ^ 64 - 2 ^ 63.

(** ** Slices *)

Section Slices.
Context {A : Type}.

(** [s[i]] *)
Definition index (s : list A) (i : Z) : option A :=
  if i <? 0 then None else s !! Z.to_nat i.

(** [s[i] = x]; [None] when [i] is out of range. *)
Definition store (s : list A) (i : Z) (x : A) : option (list A) :=
  if (0 <=? i) && (i <? Z.of_nat (length s))
  then Some (<[Z.to_nat i := x]> s) else None.

(** [copy(dst, src)]: the first [min(len dst, len src)] slots of
    [dst] are overwritten, with the values [src] had before the call. *)
Definition copy_slice (dst src : list A) : list A :=
  take (length dst) src ++ drop (length src) dst.

(** [copy(s[0:], s[1:])] on a slice of length at least one. *)
Definition shift_left (s : list A) : list A :=
  copy_slice s (drop 1 s).

(** [copy(s[1:], s[0:len(s)-1])] on a slice of length at least one. *)
Definition shift_right (s : list A) : list A :=
  take 1 s ++ copy_slice (drop 1 s) (take (length s - 1)%nat s).
End Slices.

(** ** Local vnode state *)

Record localVnode := mkLocal {
  self : Vnode;
  successors : list VnodePtr;
  finger : list VnodePtr;
  last_finger : Z;
  predecessor : VnodePtr;
  OnNewSuccessor : bool
}.

Record localVnodeData := mkLocalData {
  DataVnode : VnodeData;
  DataSuccessors : list (option VnodeData);
  DataFinger : list (option VnodeData);
  DataPredecessor : option VnodeData;
  DataLastFinger : Z
}.

Record Config := mkConfig {
  NumSuccessors : Z;
  hashBits : Z
}.

Definition set_successors (s : list VnodePtr) (vn : localVnode) : localVnode :=
  mkLocal (self vn) s (finger vn) (last_finger vn) (predecessor vn)
    (OnNewSuccessor vn).

Definition set_finger (f : list VnodePtr) (vn : localVnode) : localVnode :=
  mkLocal (self vn) (successors vn) f (last_finger vn) (predecessor vn)
    (OnNewSuccessor vn).

(** [knownSuccessors]: the loop keeps [i + 1] for every non-nil slot. *)
Fixpoint knownSuccessors_from (s : list VnodePtr) (i acc : Z) : Z :=
  match s with
  | [] => acc
  | p :: rest =>
      knownSuccessors_from rest (i + 1)
        (match p with Some _ => i + 1 | None => acc end)
  end.

Definition knownSuccessors (vn : localVnode) : Z :=
  knownSuccessors_from (successors vn) 0 0.

(** The spec's wording: the number of consecutive non-null entries at
    the front of the list. *)
Fixpoint leading_nonnull (s : list VnodePtr) : Z :=
  match s with
  | Some _ :: rest => 1 + leading_nonnull rest
  | _ => 0
  end.

(** The list without its trailing nil slots. *)
Fixpoint strip_trailing_nil (s : list VnodePtr) : list VnodePtr :=
  match s with
  | [] => []
  | p :: rest =>
      match p, strip_trailing_nil rest with
      | None, [] => []
      | _, r => p :: r
      end
  end.

(** What a slot holds when it is nil, or lies past the end of the
    slice. *)
Definition nil_or_absent (o : option VnodePtr) : Prop :=
  o = Some None \/ o = None.

(** No nil slot is followed, anywhere later, by a non-nil one. *)
Fixpoint nil_only_at_end (s : list VnodePtr) : bool :=
  match s with
  | [] => true
  | Some _ :: rest => nil_only_at_end rest
  | None :: rest => forallb (fun p => ptr_eqb p None) rest
  end.

(** ** The transport interface and the effects of a call

    The transport is an external collaborator: each operation reads and
    updates the state of the outside world [W] and answers with a value
    and a Go [error] ([None] is the nil error). *)

Class Transport (W : Type) := {
  trans_GetPredecessor : VnodePtr -> W -> (VnodePtr * option error) * W;
  trans_Ping : VnodePtr -> W -> (bool * option error) * W;
  trans_Notify : VnodePtr -> Vnode -> W -> (list VnodePtr * option error) * W;
  trans_FindSuccessors :
    VnodePtr -> Z -> list byte -> W -> (list VnodePtr * option error) * W
}.

(** What the vnode did to the outside, in order. *)
Inductive Call :=
| CallGetPredecessor (p : VnodePtr)
| CallPing (p : VnodePtr)
| CallNotify (p : VnodePtr)
| CallFindSuccessors (p : VnodePtr) (n : Z) (key : list byte)
| CallOnNewSuccessor
| CallSuccessorLeaving (old : VnodePtr).

Record St (W : Type) := mkSt {
  vn : localVnode;
  world : W;
  calls : list Call
}.
Arguments mkSt {W} vn world calls.
Arguments vn {W} s.
Arguments world {W} s.
Arguments calls {W} s.

Definition M (W A : Type) : Type := St W -> outcome (A * St W).

#[export] Instance M_ret {W} : MRet (M W) := fun A a st => Done (a, st).

#[export] Instance M_bind {W} : MBind (M W) := fun A B f m st =>
  match m st with
  | Done (a, st') => f a st'
  | Panicked p => Panicked p
  | OutOfFuel => OutOfFuel
  end.

Definition throw {W A} (p : panic) : M W A := fun _ => Panicked p.
Definition out_of_fuel {W A} : M W A := fun _ => OutOfFuel.
Definition get_vn {W} : M W localVnode := fun st => Done (vn st, st).
Definition put_successors {W} (s : list VnodePtr) : M W unit :=
  fun st => Done (tt, mkSt (set_successors s (vn st)) (world st) (calls st)).
Definition put_finger {W} (f : list VnodePtr) : M W unit :=
  fun st => Done (tt, mkSt (set_finger f (vn st)) (world st) (calls st)).
Definition rpc {W A} (c : Call) (f : W -> A * W) : M W A :=
  fun st => let (a, w) := f (world st) in
            Done (a, mkSt (vn st) w (calls st ++ [c])).
Definition emit {W} (c : Call) : M W unit :=
  fun st => Done (tt, mkSt (vn st) (world st) (calls st ++ [c])).
Definition index_or_panic {W A} (s : list A) (i : Z) : M W A :=
  match index s i with
  | Some x => mret x
  | None => throw IndexOutOfRange
  end.
Definition store_or_panic {W A} (s : list A) (i : Z) (x : A) : M W (list A) :=
  match store s i x with
  | Some s' => mret s'
  | None => throw IndexOutOfRange
  end.
(** [s[:n]] with [n <= len(s)]; a negative [n] panics. *)
Definition slice_to {W A} (s : list A) (n : Z) : M W (list A) :=
  if n <? 0 then throw SliceBoundsOutOfRange else mret (take (Z.to_nat n) s).

Definition is_err (e : option error) : bool :=
  match e with Some _ => true | None => false end.

Section Chord.
Context {W : Type} {T : Transport W}.

(** The store of vnode identities that pointers refer to. *)
Variable heap : addr -> Vnode.
Variable cfg : Config.

(** Ring arithmetic of the package ([util.go]), used as black boxes. *)
Variable between : list byte -> list byte -> list byte -> bool.
Variable betweenRightIncl : list byte -> list byte -> list byte -> bool.
Variable powerOffset : list byte -> Z -> Z -> list byte.

(** The candidates [closestPreceedingVnodeIterator.Next] yields for a
    key, in order, until it answers nil. *)
Variable closestPreceeding : localVnode -> list byte -> list addr.

Definition deref (p : VnodePtr) : M W Vnode :=
  match p with
  | Some a => mret (heap a)
  | None => throw NilDereference
  end.

Definition same_String (a b : Vnode) : bool :=
  String.eqb (Vnode_String a) (Vnode_String b).

(** *** FindSuccessors *)

(** [p != nil && betweenRightIncl(vn.Id, p.Id, key)] *)
Definition brackets (me : Vnode) (key : list byte) (p : VnodePtr) : bool :=
  match p with
  | Some a => betweenRightIncl (Id me) (Id (heap a)) key
  | None => false
  end.

(** The loop over the closest preceding nodes. *)
Fixpoint try_closest (cands : list addr) (n : Z) (key : list byte)
  : M W (option (list VnodePtr)) :=
  match cands with
  | [] => mret None
  | c :: rest =>
      '(res, err) ← rpc (CallFindSuccessors (Some c) n key)
                        (trans_FindSuccessors (Some c) n key);
      match err with
      | None => mret (Some res)
      | Some _ => try_closest rest n key
      end
  end.

(** [for i := 1; i <= successors-n; i++]: [remain] is [vn.successors[i:]],
    which advances together with [i]; reading [vn.successors[i]] past
    the end of the slice panics. *)
Fixpoint scan_successors (me : Vnode) (remain : list VnodePtr)
    (i bound n : Z) (key : list byte)
  : M W (list VnodePtr * option error) :=
  if i <=? bound then
    match remain with
    | [] => throw IndexOutOfRange
    | p :: rest =>
        if brackets me key p then
          if Z.of_nat (length remain) >? n
          then r ← slice_to remain n; mret (r, None)
          else mret (remain, None)
        else scan_successors me rest (i + 1) bound n key
    end
  else mret ([], Some "Exhausted all preceeding nodes"%string).

Definition FindSuccessors (n : Z) (key : list byte)
  : M W (list VnodePtr * option error) :=
  v ← get_vn;
  match successors v with
  | [] => mret ([], Some "Successor list not initialized"%string)
  | s0 :: _ =>
      if brackets (self v) key s0 then
        if n <=? Z.of_nat (length (successors v))
        then r ← slice_to (successors v) n; mret (r, None)
        else mret (successors v, None)
      else
        found ← try_closest (closestPreceeding v key) n key;
        match found with
        | Some res => mret (res, None)
        | None =>
            v ← get_vn;
            let known := knownSuccessors v in
            scan_successors (self v) (drop 1 (successors v)) 1
              (wrap64 (known - n)) n key
        end
  end.

(** *** fixFingerTableAtIndex *)

(** The loop that copies [node] forward; it runs at most
    [hashBits - idx] times, which is the fuel it is given. *)
Fixpoint extend_finger (fuel : nat) (idx : Z) (node : VnodePtr) : M W Z :=
  match fuel with
  | O => out_of_fuel
  | S fuel' =>
      let next := idx + 1 in
      if hashBits cfg <=? next then mret idx
      else
        v ← get_vn;
        let offset := powerOffset (Id (self v)) next (hashBits cfg) in
        nd ← deref node;
        if betweenRightIncl (Id (self v)) (Id nd) offset then
          f ← store_or_panic (finger v) next node;
          _ ← put_finger f;
          extend_finger fuel' next node
        else mret idx
  end.

(** The liveness probe that decides between the entry the table holds
    and the node the lookup found. *)
Definition probe_candidate (idx : Z) (node : VnodePtr) : M W VnodePtr :=
  v ← get_vn;
  old ← index_or_panic (finger v) idx;
  match old with
  | Some o =>
      nd ← deref node;
      if negb (same_String (heap o) nd) then
        '(alive, err) ← rpc (CallPing node) (trans_Ping node);
        if is_err err || negb alive then mret old else mret node
      else mret node
  | None => mret node
  end.

(** The update of [vn.finger[idx]], the forward copies and the index to
    refresh next. *)
Definition adopt_finger (idx : Z) (node : VnodePtr) : M W (Z * option error) :=
  let hb := hashBits cfg in
  v ← get_vn;
  f ← store_or_panic (finger v) idx node;
  _ ← put_finger f;
  last ← extend_finger (S (Z.to_nat (hb - idx))) idx node;
  mret (if last + 1 =? hb then 0 else last + 1, None).

Definition fixFingerTableAtIndex (idx : Z) : M W (Z * option error) :=
  let hb := hashBits cfg in
  v ← get_vn;
  let offset := powerOffset (Id (self v)) idx hb in
  '(nodes, err) ← FindSuccessors 1 offset;
  match nodes, err with
  | node :: _, None =>
      node ← probe_candidate idx node;
      adopt_finger idx node
  | _, _ => mret (idx, err)
  end.

(** *** checkNewSuccessor *)

(** The scan of the finger table once every known successor is dead:
    [prev] is [vn.finger[i-1]], absent at [i == 0].  Answers whether
    an entry was written to [vn.successors[1]]. *)
Fixpoint promote_from_finger (prev : option VnodePtr) (fs : list VnodePtr)
  : M W bool :=
  match fs with
  | [] => mret false
  | n :: rest =>
      match n with
      | None => promote_from_finger (Some n) rest
      | Some a =>
          v ← get_vn;
          if same_String (heap a) (self v)
          then promote_from_finger (Some n) rest
          else if match prev with
                  | None => true
                  | Some q => negb (ptr_eqb n q)
                  end
          then
            s0 ← index_or_panic (successors v) 0;
            first ← deref s0;
            if negb (betweenRightIncl (Id (self v)) (Id first) (Id (heap a)))
            then
              s ← store_or_panic (successors v) 1 n;
              _ ← put_successors s;
              mret true
            else promote_from_finger (Some n) rest
          else promote_from_finger (Some n) rest
      end
  end.

(** A finger entry the scan passes over whatever its position: nil,
    printing as this vnode, or inside [(Id, first.Id]]. *)
Definition passed_over (me : Vnode) (first : addr) (n : VnodePtr) : Prop :=
  match n with
  | None => True
  | Some a =>
      same_String (heap a) me = true \/
      betweenRightIncl (Id me) (Id (heap first)) (Id (heap a)) = true
  end.

(** Every predecessor query fails, whoever is asked and whenever. *)
Definition all_dead : Prop :=
  forall (p : VnodePtr) (w : W),
    exists e, snd (fst (trans_GetPredecessor p w)) = Some e.

(** [for i := 0; i < known; i++]: [known] grows inside the loop, so
    the iteration count has no bound known beforehand. *)
Fixpoint repair_loop (fuel : nat) (i known : Z)
    (succ maybe_suc : VnodePtr) (err : option error)
  : M W (VnodePtr * VnodePtr) :=
  match fuel with
  | O => out_of_fuel
  | S fuel' =>
      if negb (i <? known) then mret (succ, maybe_suc)
      else
        match err with
        | None => mret (succ, maybe_suc)
        | Some _ =>
            known ← (if i =? known - 1 then
                       v ← get_vn;
                       promoted ← promote_from_finger None (finger v);
                       let known := (if (promoted : bool) then known + 1
                                     else known) in
                       if i =? known - 1
                       then throw (ExplicitPanic
                                     "All known successors dead!"%string)
                       else mret known
                     else mret known);
            v ← get_vn;
            _ ← put_successors (shift_left (successors v));
            v ← get_vn;
            s ← store_or_panic (successors v) (known - 1 - i) None;
            _ ← put_successors s;
            v ← get_vn;
            succ ← index_or_panic (successors v) 0;
            '(maybe_suc, err) ← rpc (CallGetPredecessor succ)
                                    (trans_GetPredecessor succ);
            repair_loop fuel' (i + 1) known succ maybe_suc err
        end
  end.

Definition checkNewSuccessor (fuel : nat) : M W (option error) :=
  v ← get_vn;
  succ ← index_or_panic (successors v) 0;
  match succ with
  | None => mret (Some "Node has no successor!"%string)
  | Some _ =>
      '(maybe_suc, err) ← rpc (CallGetPredecessor succ)
                              (trans_GetPredecessor succ);
      v ← get_vn;
      let known := knownSuccessors v in
      '(succ, maybe_suc) ← repair_loop fuel 0 known succ maybe_suc err;
      match maybe_suc with
      | None => mret None
      | Some m =>
          v ← get_vn;
          s ← deref succ;
          if between (Id (self v)) (Id s) (Id (heap m)) then
            '(alive, err) ← rpc (CallPing maybe_suc) (trans_Ping maybe_suc);
            if is_err err || negb alive then
              _ ← rpc (CallNotify succ) (trans_Notify succ (self v));
              mret err
            else
              v ← get_vn;
              _ ← put_successors (shift_right (successors v));
              v ← get_vn;
              s ← store_or_panic (successors v) 0 maybe_suc;
              _ ← put_successors s;
              '(_, err) ← fixFingerTableAtIndex 0;
              match err with
              | Some e => mret (Some e)
              | None =>
                  v ← get_vn;
                  _ ← (if OnNewSuccessor v then emit CallOnNewSuccessor
                       else mret tt);
                  mret None
              end
          else mret None
      end
  end.

(** *** notifySuccessor *)

(** [for idx, s := range succ_list]: stops at the first nil entry or
    entry printing as this vnode. *)
Fixpoint merge_successors (idx : Z) (succ_list : list VnodePtr) : M W unit :=
  match succ_list with
  | [] => mret tt
  | s :: rest =>
      match s with
      | None => mret tt
      | Some a =>
          v ← get_vn;
          if same_String (heap a) (self v) then mret tt
          else
            s' ← store_or_panic (successors v) (idx + 1) s;
            _ ← put_successors s';
            merge_successors (idx + 1) rest
      end
  end.

Definition notifySuccessor : M W (option error) :=
  v ← get_vn;
  succ ← index_or_panic (successors v) 0;
  '(succ_list, err) ← rpc (CallNotify succ) (trans_Notify succ (self v));
  match err with
  | Some e => mret (Some e)
  | None =>
      let max_succ := NumSuccessors cfg in
      succ_list ← (if Z.of_nat (length succ_list) >? max_succ - 1
                   then slice_to succ_list (max_succ - 1)
                   else mret succ_list);
      _ ← merge_successors 0 succ_list;
      mret None
  end.

(** *** SkipSuccessor *)

Definition SkipSuccessor (s : VnodePtr) : M W (option error) :=
  v ← get_vn;
  s0 ← index_or_panic (successors v) 0;
  first ← deref s0;
  leaving ← deref s;
  if same_String first leaving then
    _ ← emit (CallSuccessorLeaving s0);
    let known := knownSuccessors v in
    _ ← put_successors (shift_left (successors v));
    v ← get_vn;
    s' ← store_or_panic (successors v) (known - 1) None;
    _ ← put_successors s';
    mret None
  else mret None.

(** *** toData: the snapshot of the finger table *)

(** [n.ToData()] on a pointer: nil stays nil. *)
Definition ptr_ToData (p : VnodePtr) : option VnodeData :=
  match p with
  | Some a => Some (Vnode_ToData (heap a))
  | None => None
  end.

(** [for i, n := range vn.finger]: at a change the previous value is
    written to slot [i-1] of the output. *)
Fixpoint encode_runs (fs : list VnodePtr) (i : Z) (last : VnodePtr)
    (out : list (option VnodeData))
  : outcome (list (option VnodeData) * VnodePtr) :=
  match fs with
  | [] => Done (out, last)
  | n :: rest =>
      if negb (ptr_eqb n last) then
        match store out (i - 1) (ptr_ToData last) with
        | Some out' => encode_runs rest (i + 1) n out'
        | None => Panicked IndexOutOfRange
        end
      else encode_runs rest (i + 1) n out
  end.

Definition toData (v : localVnode) : outcome localVnodeData :=
  let succ := map ptr_ToData (successors v) in
  let slots := replicate (length (finger v)) None in
  match index (finger v) 0 with
  | None => Panicked IndexOutOfRange
  | Some last =>
      match encode_runs (finger v) 0 last slots with
      | Done (out, last) =>
          match store out (Z.of_nat (length (finger v)) - 1)
                  (ptr_ToData last) with
          | Some out' =>
              Done (mkLocalData (Vnode_ToData (self v)) succ out'
                      (ptr_ToData (predecessor v)) (last_finger v))
          | None => Panicked IndexOutOfRange
          end
      | Panicked p => Panicked p
      | OutOfFuel => OutOfFuel
      end
  end.

(** The finger table of the snapshot, when [toData] returns one. *)
Definition encode_finger (v : localVnode)
  : outcome (list (option VnodeData)) :=
  match toData v with
  | Done d => Done (DataFinger d)
  | Panicked p => Panicked p
  | OutOfFuel => OutOfFuel
  end.

(** The slots the loop of [toData] fills when it walks [fs] with [last]
    in hand: at each change, the value it leaves behind. *)
Fixpoint boundary_slots (last : VnodePtr) (fs : list VnodePtr)
  : list (option VnodeData) :=
  match fs with
  | [] => []
  | n :: rest =>
      (if ptr_eqb n last then None else ptr_ToData last)
        :: boundary_slots n rest
  end.

(** *** The run structure of the finger table *)

(** [node] is responsible for the offset of index [j] as well. *)
Definition covers (me : Vnode) (node : addr) (j : Z) : bool :=
  betweenRightIncl (Id me) (Id (heap node))
    (powerOffset (Id me) j (hashBits cfg)).

(** The invariant of the data model at one index [j]: when the vnode
    at [finger[j]] also covers the offset of index [j+1], the next
    slot holds the same pointer. *)
Definition run_pair_ok (me : Vnode) (f : list VnodePtr) (j : Z) : Prop :=
  forall a, index f j = Some (Some a) ->
    j + 1 < Z.of_nat (length f) ->
    covers me a (j + 1) = true ->
    index f (j + 1) = Some (Some a).

Definition run_invariant (me : Vnode) (f : list VnodePtr) : Prop :=
  forall j, 0 <= j -> run_pair_ok me f j.

Definition run_pair_okb (me : Vnode) (f : list VnodePtr) (j : Z) : bool :=
  match index f j with
  | Some (Some a) =>
      if (j + 1 <? Z.of_nat (length f)) && covers me a (j + 1)
      then match index f (j + 1) with
           | Some p => ptr_eqb p (Some a)
           | None => false
           end
      else true
  | _ => true
  end.

Definition run_invariantb (me : Vnode) (f : list VnodePtr) : bool :=
  forallb (fun j => run_pair_okb me f (Z.of_nat j)) (seq 0 (length f)).

(** *** What the merge loop of notifySuccessor does with an entry *)

(** An entry the loop keeps: non-nil and not printing as [me]. *)
Definition kept_entry (me : Vnode) (p : VnodePtr) : Prop :=
  exists a, p = Some a /\ same_String (heap a) me = false.

(** An entry the loop stops at: nil, or printing as [me]. *)
Definition stop_entry (me : Vnode) (p : VnodePtr) : Prop :=
  p = None \/ exists a, p = Some a /\ same_String (heap a) me = true.

End Chord.

(** ** Decoding a snapshot *)

(** Modelled from the spec: the decoder of the compressed finger table
    is not part of vnode.go.  Scanning right to left, an empty slot is
    filled with the nearest non-empty slot to its right. *)
Fixpoint decode_finger (slots : list (option VnodeData))
  : list (option VnodeData) :=
  match slots with
  | [] => []
  | s :: rest =>
      let filled := decode_finger rest in
      match s with
      | Some _ => s
      | None => match filled with
                | x :: _ => x
                | [] => None
                end
      end :: filled
  end.

(** ** Ring arithmetic, for concrete rings *)

Definition byte_to_Z (b : byte) : Z := Z.of_N (Byte.to_N b).

Definition byte_of_Z (z : Z) : byte :=
  match Byte.of_N (Z.to_N z) with
  | Some b => b
  | None => Byte.x00
  end.

(** Big-endian value of an Id. *)
Definition bytes_to_Z (bs : list byte) : Z :=
  fold_left (fun acc b => acc * 256 + byte_to_Z b) bs 0.

Fixpoint Z_to_bytes (len : nat) (z : Z) : list byte :=
  match len with
  | O => []
  | S len' => Z_to_bytes len' (z / 256) ++ [byte_of_Z (z mod 256)]
  end.

(** Modelled from the spec: [compare], unsigned lexicographic order on
    Ids ([util.go] is not among the sources). *)
Fixpoint CompareId (a b : list byte) : comparison :=
  match a, b with
  | [], [] => Eq
  | [], _ :: _ => Lt
  | _ :: _, [] => Gt
  | x :: a', y :: b' =>
      match Z.compare (byte_to_Z x) (byte_to_Z y) with
      | Eq => CompareId a' b'
      | c => c
      end
  end.

(** Modelled from the spec: [between(a, b, x)] holds iff [x] lies
    strictly clockwise of [a] and strictly before [b], wrapping through
    zero when [b] does not come after [a]. *)
Definition spec_between (a b x : list byte) : bool :=
  match CompareId a b with
  | Lt =>
      match CompareId a x, CompareId x b with
      | Lt, Lt => true
      | _, _ => false
      end
  | _ =>
      match CompareId a x, CompareId x b with
      | Lt, _ => true
      | _, Lt => true
      | _, _ => false
      end
  end.

(** Modelled from the spec: [betweenRightIncl] additionally admits
    [x == b]. *)
Definition spec_betweenRightIncl (a b x : list byte) : bool :=
  spec_between a b x ||
  match CompareId x b with Eq => true | _ => false end.

(** Modelled from the spec: [powerOffset(id, i, hashBits)] is
    [id + 2^i mod 2^hashBits], as a ring Id of the length of [id]. *)
Definition spec_powerOffset (id : list byte) (i hb : Z) : list byte :=
  Z_to_bytes (length id) ((bytes_to_Z id + 2 ^ i) mod 2 ^ hb).

(** ** A ring of one-byte Ids for worked examples

    The vnode stored at address [a] has the Id [a]; the transport
    answers from fixed tables and has no state of its own. *)

Definition ring_heap (a : addr) : Vnode :=
  mkVnode [byte_of_Z (Z.of_nat a)] "peer"%string 30001 30002.

Definition table_transport
    (gp : VnodePtr -> VnodePtr * option error)
    (pg : VnodePtr -> bool * option error)
    (nt : VnodePtr -> list VnodePtr * option error)
    (fs : VnodePtr -> Z -> list byte -> list VnodePtr * option error)
  : Transport unit :=
  {| trans_GetPredecessor p w := (gp p, w);
     trans_Ping p w := (pg p, w);
     trans_Notify p _ w := (nt p, w);
     trans_FindSuccessors p n key w := (fs p n key, w) |}.

Definition unreachable : error := "unreachable"%string.

Definition vnodeA : Vnode := mkVnode [byte_of_Z 10] "local"%string 30001 30002.

Definition ring_cfg : Config := mkConfig 2 8.

(** Modelled from the spec: [CompareId] with the integer result of the
    Go function, -1, 0 or 1. *)
Definition CompareId_int (a b : list byte) : Z :=
  match CompareId a b with
  | Eq => 0
  | Lt => -1
  | Gt => 1
  end.

(** ** The remaining operations of vnode.go *)

Definition set_predecessor (p : VnodePtr) (vn : localVnode) : localVnode :=
  mkLocal (self vn) (successors vn) (finger vn) (last_finger vn) p
    (OnNewSuccessor vn).

Definition set_last_finger (i : Z) (vn : localVnode) : localVnode :=
  mkLocal (self vn) (successors vn) (finger vn) i (predecessor vn)
    (OnNewSuccessor vn).

Definition put_predecessor {W} (p : VnodePtr) : M W unit :=
  fun st => Done (tt, mkSt (set_predecessor p (vn st)) (world st) (calls st)).

Definition put_last_finger {W} (i : Z) : M W unit :=
  fun st => Done (tt, mkSt (set_last_finger i (vn st)) (world st) (calls st)).

(** Only the finger table differs between [v] and [v'], and it has
    kept its length. *)
Definition finger_only (v v' : localVnode) : Prop :=
  exists f, v' = set_finger f v /\ length f = length (finger v).

(** Identity, predecessor, cursor and callback are those of [v], and
    both lists have kept their lengths. *)
Definition lists_only (v v' : localVnode) : Prop :=
  self v' = self v /\ predecessor v' = predecessor v /\
  last_finger v' = last_finger v /\
  OnNewSuccessor v' = OnNewSuccessor v /\
  length (successors v') = length (successors v) /\
  length (finger v') = length (finger v).

(** [k] filled slots, then nil slots only. *)
Definition filled_to (k : Z) (f : list VnodePtr) : Prop :=
  0 <= k <= Z.of_nat (length f) /\
  (forall j, 0 <= j < k -> exists a, index f j = Some (Some a)) /\
  (forall j, k <= j -> nil_or_absent (index f j)).

(** The shape of the finger table between two calls: [hashBits] slots,
    filled from index 0 without a gap, with the refresh cursor in the
    filled part or on the slot just behind it. *)
Definition finger_filled (cfg : Config) (v : localVnode) : Prop :=
  hashBits cfg = Z.of_nat (length (finger v)) /\
  0 <= last_finger v < hashBits cfg /\
  exists k, filled_to k (finger v) /\ last_finger v <= k.

(** The closures a handler hands to [ring.invokeDelegate]; the handler
    answers with them, in the order it queued them. *)
Inductive DelegateCall :=
| DelegateNewPredecessor (new old : VnodePtr)
| DelegatePredecessorLeaving (old : VnodePtr).

(** What stabilize and schedule keep besides the routing state:
    [vn.timer] (nil, or armed with a delay), [vn.stabilized], and the
    channel [vn.ring.shutdown] (nil, or the values sent on it so far; a
    send is recorded, its waiting for a receiver is not modelled). *)
Record Upkeep := mkUpkeep {
  timer : option Z;
  stabilized : Z;
  shutdown : option (list bool)
}.

Section Handlers.
Context {W : Type} {T : Transport W}.
Variable heap : addr -> Vnode.
Variable cfg : Config.
Variable between : list byte -> list byte -> list byte -> bool.
Variable betweenRightIncl : list byte -> list byte -> list byte -> bool.
Variable powerOffset : list byte -> Z -> Z -> list byte.
Variable closestPreceeding : localVnode -> list byte -> list addr.

(** [CompareId] of util.go: zero on Ids it takes for equal. *)
Variable compareId : list byte -> list byte -> Z.

(** *** RPC: GetPredecessor *)

Definition GetPredecessor : M W (VnodePtr * option error) :=
  v ← get_vn;
  mret (predecessor v, None).

(** *** RPC: Notify *)

Definition Notify (maybe_pred : VnodePtr)
  : M W (list VnodePtr * option error * list DelegateCall) :=
  v ← get_vn;
  shouldUpdate ←
    match predecessor v with
    | None => mret true
    | Some p =>
        cand ← deref heap maybe_pred;
        if between (Id (heap p)) (Id (self v)) (Id cand) then mret true
        else if negb (compareId (Id (heap p)) (Id cand) =? 0) then
          '(alive, err) ← rpc (CallPing (predecessor v))
                              (trans_Ping (predecessor v));
          mret (is_err err || negb alive)
        else mret false
    end;
  if shouldUpdate : bool then
    v ← get_vn;
    let old := predecessor v in
    _ ← put_predecessor maybe_pred;
    v ← get_vn;
    mret (successors v, None, [DelegateNewPredecessor maybe_pred old])
  else
    v ← get_vn;
    mret (successors v, None, []).

(** *** fixFingerTable *)

Definition fixFingerTable : M W (option error) :=
  v ← get_vn;
  '(nextIdx, err) ← fixFingerTableAtIndex heap cfg betweenRightIncl
                      powerOffset closestPreceeding (last_finger v);
  match err with
  | Some e => mret (Some e)
  | None =>
      _ ← put_last_finger nextIdx;
      mret None
  end.

(** *** checkPredecessor *)

Definition checkPredecessor : M W (option error) :=
  v ← get_vn;
  match predecessor v with
  | None => mret None
  | Some _ =>
      '(alive, err) ← rpc (CallPing (predecessor v))
                          (trans_Ping (predecessor v));
      _ ← (if is_err err || negb alive then put_predecessor None
           else mret tt);
      mret err
  end.

(** *** FindPredecessor *)

Definition FindPredecessor (key : list byte) : M W (VnodePtr * option error) :=
  '(vnodes, err) ← FindSuccessors heap betweenRightIncl closestPreceeding
                     1 key;
  match err with
  | Some e => mret (None, Some e)
  | None =>
      match vnodes with
      | [] =>
          mret (None,
                Some (String.append "Cannot get successors for key "
                        (hex_encode key)))
      | first :: _ =>
          '(pred, err) ← rpc (CallGetPredecessor first)
                             (trans_GetPredecessor first);
          match err with
          | Some e => mret (None, Some e)
          | None =>
              match pred with
              | None =>
                  mret (None,
                        Some (String.append "Cannot get predecessor for key "
                                (hex_encode key)))
              | Some _ => mret (pred, None)
              end
          end
      end
  end.

(** *** RPC: ClearPredecessor *)

Definition ClearPredecessor (p : VnodePtr)
  : M W (option error * list DelegateCall) :=
  v ← get_vn;
  match predecessor v with
  | None => mret (None, [])
  | Some q =>
      leaving ← deref heap p;
      if same_String (heap q) leaving then
        let old := predecessor v in
        _ ← put_predecessor None;
        mret (None, [DelegatePredecessorLeaving old])
      else mret (None, [])
  end.

(** *** schedule and stabilize

    [delay] is the value [randStabilize] returns and [now] the value
    [time.Now()] returns at the end of the pass.  A timer is modelled by
    the delay it was armed with.  The pass answers with the errors of
    its four steps, in order; the code logs those that are not nil and
    goes on.  The deferred [schedule] runs when the pass returns. *)
Definition schedule (delay : Z) (u : Upkeep) : Upkeep :=
  mkUpkeep (Some delay) (stabilized u) (shutdown u).

Definition stabilize (delay now : Z) (fuel : nat) (u : Upkeep)
  : M W (Upkeep * list (option error)) :=
  let u := mkUpkeep None (stabilized u) (shutdown u) in
  match shutdown u with
  | Some sent =>
      mret (mkUpkeep (timer u) (stabilized u) (Some (sent ++ [true])), [])
  | None =>
      e1 ← checkNewSuccessor heap cfg between betweenRightIncl powerOffset
             closestPreceeding fuel;
      e2 ← notifySuccessor heap cfg;
      e3 ← fixFingerTable;
      e4 ← checkPredecessor;
      let u := mkUpkeep (timer u) now (shutdown u) in
      mret (schedule delay u, [e1; e2; e3; e4])
  end.

(** *** keepalive: one pass of its endless loop, without the sleep *)

(** [n != nil && n.Host != vn.Host], then [Ping(n)], its answer dropped. *)
Definition ping_other_host (own : string) (n : VnodePtr) : M W unit :=
  match n with
  | Some a =>
      if negb (String.eqb (Host (heap a)) own) then
        _ ← rpc (CallPing n) (trans_Ping n);
        mret tt
      else mret tt
  | None => mret tt
  end.

Fixpoint ping_each (own : string) (l : list VnodePtr) : M W unit :=
  match l with
  | [] => mret tt
  | n :: rest =>
      _ ← ping_other_host own n;
      ping_each own rest
  end.

(** The loop over the finger table: [prev] is [vn.finger[i-1]], absent
    at [i == 0]; an entry equal to it is skipped. *)
Fixpoint ping_finger (own : string) (prev : option VnodePtr)
    (l : list VnodePtr) : M W unit :=
  match l with
  | [] => mret tt
  | n :: rest =>
      _ ← (if match prev with
              | Some q => ptr_eqb q n
              | None => false
              end
           then mret tt
           else ping_other_host own n);
      ping_finger own (Some n) rest
  end.

Definition keepalive_pass : M W unit :=
  v ← get_vn;
  _ ← ping_each (Host (self v)) (successors v);
  v ← get_vn;
  _ ← ping_other_host (Host (self v)) (predecessor v);
  v ← get_vn;
  ping_finger (Host (self v)) None (finger v).

(** *** shouldConnectToHost *)

Definition on_host (host : string) (n : VnodePtr) : bool :=
  match n with
  | Some a => String.eqb (Host (heap a)) host
  | None => false
  end.

Definition shouldConnectToHost (v : localVnode) (host : string) : bool :=
  if existsb (on_host host) (successors v) then true
  else if on_host host (predecessor v) then true
  else existsb (on_host host) (finger v).

(** *** GetNeighbors *)

(** [append(append(vn.finger, vn.successors...), vn.predecessor)] *)
Definition allNeighbors (v : localVnode) : list VnodePtr :=
  (finger v ++ successors v) ++ [predecessor v].

(** A neighbour [GetNeighbors] keeps: non-nil and on another host. *)
Definition foreign (own : string) (n : VnodePtr) : Prop :=
  exists a, n = Some a /\ Host (heap a) <> own.

(** The loop over [allNeighbors]: [seen] is the map of pointers met so
    far, [neighbors] the slice being appended to. *)
Fixpoint collect_neighbors (own : string) (l : list VnodePtr)
    (seen : list addr) (neighbors : list VnodePtr) : list VnodePtr :=
  match l with
  | [] => neighbors
  | n :: rest =>
      match n with
      | None => collect_neighbors own rest seen neighbors
      | Some a =>
          if String.eqb (Host (heap a)) own
          then collect_neighbors own rest seen neighbors
          else if existsb (Nat.eqb a) seen
          then collect_neighbors own rest seen neighbors
          else collect_neighbors own rest (a :: seen) (neighbors ++ [n])
      end
  end.

Definition GetNeighbors (v : localVnode) : list VnodePtr :=
  collect_neighbors (Host (self v)) (allNeighbors v) [] [].

(** *** ShouldAddrInNeighbors *)

Definition ShouldAddrInNeighbors (v : localVnode) (a : list byte) : bool :=
  existsb
    (fun n =>
       match n with
       | None => false
       | Some x =>
           if String.eqb (Host (heap x)) (Host (self v)) then false
           else compareId (Id (heap x)) a =? 0
       end)
    (allNeighbors v).

End Handlers.

(** * Properties *)

(** ** Hex rendering and pointer equality *)

Lemma byte_hex_value (b : byte) :
  exists c1 c2, byte_hex b = String c1 (String c2 EmptyString) /\
    Byte.of_N (16 * hex_value c1 + hex_value c2) = Some b.
Proof.
  eexists _, _. split; [reflexivity|].
  destruct b; reflexivity.
Qed.

Lemma hex_encode_inj (a b : list byte) : hex_encode a = hex_encode b -> a = b.
Proof.
  revert b. induction a as [|x a IH]; intros [|y b] H; cbn [hex_encode] in H.
  - reflexivity.
  - destruct (byte_hex_value y) as (c1 & c2 & Hy & _). rewrite Hy in H. discriminate.
  - destruct (byte_hex_value x) as (c1 & c2 & Hx & _). rewrite Hx in H. discriminate.
  - destruct (byte_hex_value x) as (c1 & c2 & Hx & Hx').
    destruct (byte_hex_value y) as (d1 & d2 & Hy & Hy').
    rewrite Hx, Hy in H. cbn [String.append] in H. injection H as -> -> H.
    rewrite Hx' in Hy'. injection Hy' as ->. f_equal. auto.
Qed.

Lemma same_String_true (a b : Vnode) : same_String a b = true <-> Id a = Id b.
Proof.
  unfold same_String, Vnode_String. rewrite String.eqb_eq. split.
  - apply hex_encode_inj.
  - intros ->. reflexivity.
Qed.

Lemma Vnode_ToData_inj (a b : Vnode) : Vnode_ToData a = Vnode_ToData b -> a = b.
Proof.
  destruct a, b. unfold Vnode_ToData, Vnode_String. simpl.
  intros H. injection H as H1 -> -> ->. apply hex_encode_inj in H1. congruence.
Qed.

Lemma ptr_eqb_eq (p q : VnodePtr) : ptr_eqb p q = true <-> p = q.
Proof.
  destruct p as [a|], q as [b|]; simpl; try (split; congruence).
  rewrite Nat.eqb_eq. split; congruence.
Qed.

Lemma ptr_eqb_refl (p : VnodePtr) : ptr_eqb p p = true.
Proof. apply ptr_eqb_eq. reflexivity. Qed.

(** ** Slices *)

Lemma wrap64_small (z : Z) : - 2 ^ 63 <= z < 2 ^ 63 -> wrap64 z = z.
Proof. intros H. unfold wrap64. rewrite Z.mod_small; lia. Qed.

Lemma store_some {A} (s : list A) (i : Z) (x : A) :
  0 <= i < Z.of_nat (length s) ->
  store s i x = Some (<[Z.to_nat i := x]> s).
Proof.
  intros H. unfold store.
  destruct (Z.leb_spec 0 i); [|lia].
  destruct (Z.ltb_spec i (Z.of_nat (length s))); [|lia]. reflexivity.
Qed.

Lemma insert_splice {A} (pre : list A) (x y : A) (post : list A) :
  <[length pre := x]> (pre ++ y :: post) = pre ++ x :: post.
Proof.
  rewrite insert_app_r_alt by lia. rewrite Nat.sub_diag. reflexivity.
Qed.

Lemma index_insert {A} (s : list A) (i j : Z) (x : A) :
  0 <= i < Z.of_nat (length s) ->
  index (<[Z.to_nat i := x]> s) j = if j =? i then Some x else index s j.
Proof.
  intros Hi. unfold index. destruct (Z.ltb_spec j 0).
  - destruct (Z.eqb_spec j i); [lia|reflexivity].
  - destruct (Z.eqb_spec j i) as [->|Hne].
    + apply list_lookup_insert_eq. lia.
    + apply list_lookup_insert_ne. lia.
Qed.

Lemma index_in_range {A} (s : list A) (i : Z) :
  0 <= i < Z.of_nat (length s) -> exists x, index s i = Some x.
Proof.
  intros H. unfold index. destruct (Z.ltb_spec i 0); [lia|].
  destruct (lookup_lt_is_Some_2 s (Z.to_nat i)) as [x Hx]; [lia|]. eauto.
Qed.

Lemma index_cons {A} (x : A) (u : list A) (j : Z) :
  0 <= j -> index (x :: u) (j + 1) = index u j.
Proof.
  intros Hj. unfold index.
  destruct (Z.ltb_spec (j + 1) 0), (Z.ltb_spec j 0); try lia.
  replace (Z.to_nat (j + 1)) with (S (Z.to_nat j)) by lia. reflexivity.
Qed.

Lemma index_snoc_nil (u : list VnodePtr) (j : Z) :
  nil_or_absent (index u j) -> nil_or_absent (index (u ++ [None]) j).
Proof.
  unfold index. destruct (Z.ltb_spec j 0) as [Hj|Hj]; [auto|]. intros [H|H].
  - left. rewrite lookup_app_l; [exact H|]. eapply lookup_lt_Some, H.
  - apply lookup_ge_None in H.
    destruct (Nat.eq_dec (Z.to_nat j) (length u)) as [E|E].
    + left. rewrite E. apply list_lookup_middle. reflexivity.
    + right. apply lookup_ge_None. rewrite length_app. simpl. lia.
Qed.

Lemma index_snoc_some {A} (u : list A) (j : Z) (x y : A) :
  index u j = Some x -> index (u ++ [y]) j = Some x.
Proof.
  unfold index. destruct (Z.ltb_spec j 0) as [Hj|Hj]; [discriminate|]. intros H.
  rewrite lookup_app_l; [exact H|]. eapply lookup_lt_Some, H.
Qed.

Lemma last_cons_default {A} (rest : list A) :
  forall n d : A, List.last (n :: rest) d = List.last rest n.
Proof.
  induction rest as [|m rest IH]; intros n d; [reflexivity|].
  change (List.last (n :: m :: rest) d) with (List.last (m :: rest) d).
  rewrite !IH. reflexivity.
Qed.

Lemma drop_length_last {A} (u : list A) :
  forall x : A, drop (length u) (x :: u) = [List.last u x].
Proof.
  induction u as [|y u IH]; intros x; [reflexivity|].
  cbn [length drop]. rewrite IH, last_cons_default. reflexivity.
Qed.

Lemma shift_left_cons {A} (x : A) (u : list A) :
  shift_left (x :: u) = u ++ [List.last u x].
Proof.
  unfold shift_left, copy_slice. change (drop 1 (x :: u)) with u.
  rewrite take_ge by (simpl; lia). rewrite drop_length_last. reflexivity.
Qed.

(** One step of list repair: the slice moves one slot to the left and
    the slot of the last known entry is cleared. *)
Lemma shift_store (x : VnodePtr) (u : list VnodePtr) (k : Z) :
  0 <= k < Z.of_nat (length (x :: u)) ->
  (forall j, k < j -> nil_or_absent (index (x :: u) j)) ->
  store (shift_left (x :: u)) k None = Some (u ++ [None]).
Proof.
  intros Hk Hnil. rewrite shift_left_cons.
  rewrite store_some by (rewrite length_app; simpl in *; lia). f_equal.
  destruct (Z.eq_dec k (Z.of_nat (length u))) as [E|E].
  - replace (Z.to_nat k) with (length u) by lia. apply insert_splice.
  - assert (Hlast : List.last u x = None).
    { specialize (Hnil (Z.of_nat (length u))). simpl length in Hk.
      destruct Hnil as [H|H]; [lia| |].
      - unfold index in H.
        destruct (Z.ltb_spec (Z.of_nat (length u)) 0) as [Hj|Hj]; [lia|].
        rewrite Nat2Z.id in H. clear -H. revert x H.
        induction u as [|y u IH]; intros x Hx; [injection Hx; auto|].
        rewrite last_cons_default. apply IH. exact Hx.
      - unfold index in H.
        destruct (Z.ltb_spec (Z.of_nat (length u)) 0) as [Hj|Hj]; [lia|].
        apply lookup_ge_None in H. simpl in H. lia. }
    rewrite Hlast. apply list_insert_id.
    simpl length in Hk. rewrite lookup_app_l by lia.
    specialize (Hnil (k + 1) ltac:(lia)). rewrite index_cons in Hnil by lia.
    unfold index in Hnil. destruct (Z.ltb_spec k 0) as [Hj|Hj]; [lia|].
    destruct Hnil as [H|H]; [exact H|].
    apply lookup_ge_None in H. lia.
Qed.

(** ** Running the state monad *)

Lemma bind_run {W A B} (m : M W A) (f : A -> M W B) (st : St W) :
  (m ≫= f) st =
  match m st with
  | Done (a, st') => f a st'
  | Panicked p => Panicked p
  | OutOfFuel => OutOfFuel
  end.
Proof. reflexivity. Qed.

Lemma bind_done {W A B} (m : M W A) (f : A -> M W B) (st st' : St W) (a : A) :
  m st = Done (a, st') -> (m ≫= f) st = f a st'.
Proof. intros H. rewrite bind_run, H. reflexivity. Qed.

Lemma ret_run {W A} (a : A) (st : St W) : (mret a : M W A) st = Done (a, st).
Proof. reflexivity. Qed.

Lemma throw_run {W A} (p : panic) (st : St W) : @throw W A p st = Panicked p.
Proof. reflexivity. Qed.

Lemma get_vn_run {W} (st : St W) : get_vn st = Done (vn st, st).
Proof. reflexivity. Qed.

Lemma put_successors_run {W} (s : list VnodePtr) (st : St W) :
  put_successors s st =
  Done (tt, mkSt (set_successors s (vn st)) (world st) (calls st)).
Proof. reflexivity. Qed.

Lemma put_finger_run {W} (f : list VnodePtr) (st : St W) :
  put_finger f st =
  Done (tt, mkSt (set_finger f (vn st)) (world st) (calls st)).
Proof. reflexivity. Qed.

Lemma emit_run {W} (c : Call) (st : St W) :
  emit c st = Done (tt, mkSt (vn st) (world st) (calls st ++ [c])).
Proof. reflexivity. Qed.

Lemma deref_some_run {W} heap (a : addr) (st : St W) :
  deref heap (Some a) st = Done (heap a, st).
Proof. reflexivity. Qed.

Lemma deref_nil_run {W} heap (st : St W) :
  @deref W heap None st = Panicked NilDereference.
Proof. reflexivity. Qed.

Lemma rpc_run {W A} (c : Call) (f : W -> A * W) (st : St W) (a : A) (w : W) :
  f (world st) = (a, w) ->
  rpc c f st = Done (a, mkSt (vn st) w (calls st ++ [c])).
Proof. intros H. unfold rpc. rewrite H. reflexivity. Qed.

Lemma rpc_at {W A} (c : Call) (f : W -> A * W) (v : localVnode) (w : W)
    (l : list Call) (a : A) (w' : W) :
  f w = (a, w') -> rpc c f (mkSt v w l) = Done (a, mkSt v w' (l ++ [c])).
Proof. intros H. unfold rpc. cbn [world]. rewrite H. reflexivity. Qed.

Ltac mrun :=
  repeat (progress
    (rewrite ?bind_run, ?ret_run, ?throw_run, ?get_vn_run,
       ?put_successors_run, ?put_finger_run, ?emit_run, ?deref_some_run,
       ?deref_nil_run;
     cbn beta iota delta [vn world calls successors finger self
                          set_successors set_finger])).

Ltac mrun_in H :=
  repeat (progress
    (rewrite ?bind_run, ?ret_run, ?throw_run, ?get_vn_run,
       ?put_successors_run, ?put_finger_run, ?emit_run, ?deref_some_run,
       ?deref_nil_run in H;
     cbn beta iota delta [vn world calls successors finger self
                          set_successors set_finger] in H)).

(** ** knownSuccessors *)

Lemma knownSuccessors_from_strip (s : list VnodePtr) (i acc : Z) :
  knownSuccessors_from s i acc =
  match strip_trailing_nil s with
  | [] => acc
  | r => i + Z.of_nat (length r)
  end.
Proof.
  revert i acc. induction s as [|p s IH]; intros i acc; simpl; [reflexivity|].
  rewrite IH. destruct p as [a|], (strip_trailing_nil s) as [|q r]; simpl length; lia.
Qed.

Lemma strip_all_nil (s : list VnodePtr) :
  forallb (fun p => ptr_eqb p None) s = true -> strip_trailing_nil s = [].
Proof.
  induction s as [|[a|] s IH]; simpl; intros H; try discriminate; [reflexivity|].
  rewrite IH by assumption. reflexivity.
Qed.

Lemma leading_all_nil (s : list VnodePtr) :
  forallb (fun p => ptr_eqb p None) s = true -> leading_nonnull s = 0.
Proof. destruct s as [|[a|] s]; simpl; intros H; try discriminate; reflexivity. Qed.

Lemma strip_leading (s : list VnodePtr) :
  nil_only_at_end s = true ->
  Z.of_nat (length (strip_trailing_nil s)) = leading_nonnull s.
Proof.
  induction s as [|[a|] s IH]; simpl; intros H.
  - reflexivity.
  - specialize (IH H). destruct (strip_trailing_nil s); simpl length in *; lia.
  - rewrite strip_all_nil by assumption. reflexivity.
Qed.

Lemma knownSuccessors_strip (v : localVnode) :
  knownSuccessors v = Z.of_nat (length (strip_trailing_nil (successors v))).
Proof.
  unfold knownSuccessors. rewrite knownSuccessors_from_strip.
  destruct (strip_trailing_nil (successors v)); simpl length; lia.
Qed.

Lemma length_strip_trailing_nil (s : list VnodePtr) :
  (length (strip_trailing_nil s) <= length s)%nat.
Proof.
  induction s as [|p s IH]; simpl; [lia|].
  destruct p, (strip_trailing_nil s); simpl in *; lia.
Qed.

Lemma knownSuccessors_range (v : localVnode) :
  0 <= knownSuccessors v <= Z.of_nat (length (successors v)).
Proof.
  rewrite knownSuccessors_strip.
  pose proof (length_strip_trailing_nil (successors v)). lia.
Qed.

Lemma strip_decompose (s : list VnodePtr) :
  exists m, s = strip_trailing_nil s ++ replicate m None.
Proof.
  induction s as [|p s [m IH]]; [exists 0%nat; reflexivity|].
  cbn [strip_trailing_nil].
  destruct p as [a|], (strip_trailing_nil s) as [|q r] eqn:E.
  - exists m. cbn. f_equal. exact IH.
  - exists m. cbn [app]. f_equal. exact IH.
  - exists (S m). cbn. f_equal. exact IH.
  - exists m. cbn [app]. f_equal. exact IH.
Qed.

Lemma strip_last_nonnil (s : list VnodePtr) :
  strip_trailing_nil s <> [] ->
  exists a, strip_trailing_nil s !! (length (strip_trailing_nil s) - 1)%nat
            = Some (Some a).
Proof.
  induction s as [|p s IH]; [intros H; elim H; reflexivity|].
  cbn [strip_trailing_nil]. intros Hne.
  destruct (strip_trailing_nil s) as [|q r] eqn:E.
  - destruct p as [a|]; [|elim Hne; reflexivity]. exists a. reflexivity.
  - destruct IH as [a Ha]; [discriminate|]. exists a.
    assert (E2 : forall p' : VnodePtr,
               (p' :: q :: r) !! (length (p' :: q :: r) - 1)%nat =
               (q :: r) !! (length (q :: r) - 1)%nat).
    { intros p'. cbn [length]. rewrite !Nat.sub_succ, !Nat.sub_0_r.
      reflexivity. }
    destruct p; rewrite E2; exact Ha.
Qed.

(** The entry at index [knownSuccessors - 1] is non-nil, and every slot
    after it is nil. *)
Lemma knownSuccessors_last (v : localVnode) :
  1 <= knownSuccessors v ->
  (exists l, index (successors v) (knownSuccessors v - 1) = Some (Some l)) /\
  (forall j, knownSuccessors v - 1 < j ->
     nil_or_absent (index (successors v) j)).
Proof.
  rewrite knownSuccessors_strip. intros Hk.
  destruct (strip_decompose (successors v)) as [m Hs].
  set (r := strip_trailing_nil (successors v)) in *.
  split.
  - destruct (strip_last_nonnil (successors v)) as [a Ha].
    { fold r. destruct r; [simpl in Hk; lia|discriminate]. }
    fold r in Ha. exists a. unfold index.
    destruct (Z.ltb_spec (Z.of_nat (length r) - 1) 0) as [Hj|Hj]; [lia|].
    rewrite Hs, lookup_app_l by lia.
    replace (Z.to_nat (Z.of_nat (length r) - 1)) with (length r - 1)%nat by lia.
    exact Ha.
  - intros j Hj. unfold index, nil_or_absent.
    destruct (Z.ltb_spec j 0) as [Hj0|Hj0]; [lia|].
    rewrite Hs, lookup_app_r by lia.
    destruct (replicate m None !! (Z.to_nat j - length r)%nat) as [p|] eqn:E;
      [|right; reflexivity].
    apply lookup_replicate in E. destruct E as [-> _]. left; reflexivity.
Qed.

(** C2 (as amended): knownSuccessors returns the length of the successor
    list without its trailing nil slots, that is, one more than the index
    of the last non-nil entry, or zero when there is none; this is the
    count of leading non-nil entries whenever no nil slot comes before a
    non-nil one. *)
Theorem knownSuccessors_last_nonnil (v : localVnode) :
  knownSuccessors v = Z.of_nat (length (strip_trailing_nil (successors v))) /\
  (nil_only_at_end (successors v) = true ->
   knownSuccessors v = leading_nonnull (successors v)).
Proof.
  split; [apply knownSuccessors_strip|].
  intros H. rewrite knownSuccessors_strip. apply strip_leading, H.
Qed.

Lemma knownSuccessors_last_nonnil_witness :
  nil_only_at_end [Some 20%nat; Some 30%nat; None] = true /\
  knownSuccessors (mkLocal vnodeA [Some 20%nat; Some 30%nat; None] [] 0 None false) = 2.
Proof.
  split; [reflexivity|].
  exact (proj2 (knownSuccessors_last_nonnil
           (mkLocal vnodeA [Some 20%nat; Some 30%nat; None] [] 0 None false))
           eq_refl).
Defined.

(** C2 as stated fails: with a nil slot between two entries the answer
    is 3, while one entry leads the list. *)
Lemma knownSuccessors_interior_nil :
  let v := mkLocal vnodeA [Some 20%nat; None; Some 30%nat] [] 0 None false in
  knownSuccessors v = 3 /\ leading_nonnull (successors v) = 1 /\
  knownSuccessors v <> leading_nonnull (successors v).
Proof. cbv zeta. repeat split. discriminate. Qed.

(** ** SkipSuccessor *)

Section SkipSuccessorFacts.
Context {W : Type}.
Variable heap : addr -> Vnode.

(** C10: when the first successor slot holds nil, SkipSuccessor panics
    with a nil dereference, whatever vnode it is asked to skip. *)
Theorem SkipSuccessor_nil_first (s : VnodePtr) (st : St W) :
  index (successors (vn st)) 0 = Some None ->
  SkipSuccessor heap s st = Panicked NilDereference.
Proof.
  intros H. unfold SkipSuccessor, index_or_panic. mrun. rewrite H. mrun.
  reflexivity.
Qed.

(** With a first successor and a vnode to skip, both non-nil, the call
    returns normally with no error. *)
Lemma SkipSuccessor_returns (a b : addr) (st : St W) :
  index (successors (vn st)) 0 = Some (Some a) ->
  exists st', SkipSuccessor heap (Some b) st = Done (None, st').
Proof.
  intros H. unfold SkipSuccessor, index_or_panic. mrun. rewrite H. mrun.
  destruct (same_String (heap a) (heap b)); mrun; [|eexists; reflexivity].
  unfold store_or_panic, store.
  pose proof (knownSuccessors_range (vn st)) as R.
  pose proof (knownSuccessors_strip (vn st)) as E.
  destruct (successors (vn st)) as [|p s'] eqn:Es; [discriminate|].
  cbv in H. injection H as ->.
  assert (1 <= knownSuccessors (vn st)).
  { rewrite E. simpl. destruct (strip_trailing_nil s'); simpl length; lia. }
  assert (L : length (shift_left (Some a :: s')) = length (Some a :: s')).
  { unfold shift_left, copy_slice. rewrite length_app, length_take, !length_drop.
    simpl length. lia. }
  rewrite L.
  replace ((0 <=? knownSuccessors (vn st) - 1) &&
           (knownSuccessors (vn st) - 1 <? Z.of_nat (length (Some a :: s'))))
    with true by (symmetry; apply andb_true_iff; split; [apply Z.leb_le|apply Z.ltb_lt]; lia).
  mrun. eexists. reflexivity.
Qed.

End SkipSuccessorFacts.

Lemma SkipSuccessor_nil_first_witness :
  @SkipSuccessor unit ring_heap (Some 20%nat)
    (mkSt (mkLocal vnodeA [None; Some 30%nat] [] 0 None false) tt [])
  = Panicked NilDereference.
Proof. apply SkipSuccessor_nil_first. reflexivity. Defined.

(** ** notifySuccessor *)

Section NotifyFacts.
Context {W : Type} {T : Transport W}.
Variable heap : addr -> Vnode.
Variable cfg : Config.

Lemma merge_successors_run (l : list VnodePtr) :
  forall (pre post : list VnodePtr) (st : St W),
    successors (vn st) = pre ++ post ->
    pre <> [] ->
    (length l <= length post)%nat ->
    exists kept rest,
      l = kept ++ rest /\
      Forall (kept_entry heap (self (vn st))) kept /\
      match rest with [] => True | p :: _ => stop_entry heap (self (vn st)) p end /\
      merge_successors heap (Z.of_nat (length pre) - 1) l st =
      Done (tt, mkSt (set_successors
                        (pre ++ kept ++ drop (length kept) post) (vn st))
                  (world st) (calls st)).
Proof.
  induction l as [|p l IH]; intros pre post st Hs Hpre Hlen.
  - exists [], []. repeat split; [constructor|]. cbn [merge_successors]. mrun.
    rewrite drop_0. simpl. rewrite <- Hs. destruct st as [[] ? ?]; reflexivity.
  - destruct p as [a|].
    2:{ exists [], (None :: l). repeat split; [constructor|left; reflexivity|].
        cbn [merge_successors]. mrun. rewrite drop_0. simpl. rewrite <- Hs.
        destruct st as [[] ? ?]; reflexivity. }
    destruct (same_String (heap a) (self (vn st))) eqn:Ea.
    { exists [], (Some a :: l). repeat split; [constructor|right; eauto|].
      cbn [merge_successors]. mrun. rewrite Ea. mrun. rewrite drop_0. simpl.
      rewrite <- Hs. destruct st as [[] ? ?]; reflexivity. }
    destruct post as [|q post]; [simpl in Hlen; lia|].
    set (st1 := mkSt (set_successors ((pre ++ [Some a]) ++ post) (vn st))
                  (world st) (calls st)).
    destruct (IH (pre ++ [Some a]) post st1) as (kept & rest & El & Hk & Hr & Hrun).
    { reflexivity. }
    { destruct pre; discriminate. }
    { simpl in Hlen. lia. }
    exists (Some a :: kept), rest. split; [simpl; congruence|].
    split; [constructor; [exists a; auto|exact Hk]|]. split; [exact Hr|].
    cbn [merge_successors]. mrun. rewrite Ea. mrun.
    unfold store_or_panic. rewrite store_some.
    2:{ rewrite Hs, length_app. simpl. destruct pre; [congruence|simpl; lia]. }
    mrun.
    replace (Z.to_nat (Z.of_nat (length pre) - 1 + 1)) with (length pre) by lia.
    rewrite Hs, insert_splice.
    replace (Z.of_nat (length pre) - 1 + 1)
      with (Z.of_nat (length (pre ++ [Some a])) - 1)
      by (rewrite length_app; simpl; lia).
    replace (pre ++ Some a :: post) with ((pre ++ [Some a]) ++ post)
      by (rewrite <- app_assoc; reflexivity).
    fold st1. rewrite Hrun. subst st1. cbn.
    rewrite <- !app_assoc. reflexivity.
Qed.

(** C3 (as amended): notifySuccessor uses at most capacity-minus-one
    entries of the list its successor returns, writes each entry that
    comes before the first nil entry or entry equal to this vnode at its
    index offset by one, and stops there: that entry and every entry
    after it are left out, and the other slots keep their values. *)
Theorem notifySuccessor_merge (st : St W) (succ : VnodePtr)
    (succ_list : list VnodePtr) (w : W) :
  index (successors (vn st)) 0 = Some succ ->
  trans_Notify succ (self (vn st)) (world st) = ((succ_list, None), w) ->
  NumSuccessors cfg = Z.of_nat (length (successors (vn st))) ->
  exists kept rest,
    take (Z.to_nat (NumSuccessors cfg - 1)) succ_list = kept ++ rest /\
    Forall (kept_entry heap (self (vn st))) kept /\
    match rest with
    | [] => True
    | p :: _ => stop_entry heap (self (vn st)) p
    end /\
    notifySuccessor heap cfg st =
    Done (None,
          mkSt (set_successors
                  (take 1 (successors (vn st)) ++ kept ++
                   drop (1 + length kept) (successors (vn st))) (vn st))
            w (calls st ++ [CallNotify succ])).
Proof.
  intros H0 HN Hcap.
  destruct (successors (vn st)) as [|s0 s] eqn:Es; [discriminate|].
  set (l := take (Z.to_nat (NumSuccessors cfg - 1)) succ_list).
  set (st1 := mkSt (vn st) w (calls st ++ [CallNotify succ])).
  destruct (merge_successors_run l [s0] s st1) as (kept & rest & El & Hk & Hr & Hrun).
  { exact Es. } { discriminate. }
  { subst l. rewrite length_take. simpl in Hcap. lia. }
  exists kept, rest. repeat split; try assumption.
  unfold notifySuccessor, index_or_panic. mrun. rewrite Es in *. rewrite H0. mrun.
  rewrite (rpc_run _ _ _ _ _ HN). mrun.
  assert (Hl : (if Z.of_nat (length succ_list) >? NumSuccessors cfg - 1
                then slice_to succ_list (NumSuccessors cfg - 1)
                else mret succ_list) st1 = Done (l, st1)).
  { destruct (Z.gtb_spec (Z.of_nat (length succ_list)) (NumSuccessors cfg - 1)).
    - unfold slice_to. simpl in Hcap.
      destruct (Z.ltb_spec (NumSuccessors cfg - 1) 0); [lia|]. reflexivity.
    - mrun. subst l. rewrite take_ge by lia. reflexivity. }
  fold st1. rewrite Hl. mrun.
  change (Z.of_nat (length [s0]) - 1) with 0 in Hrun. rewrite Hrun. mrun.
  reflexivity.
Qed.

End NotifyFacts.

Lemma notifySuccessor_merge_witness :
  let T := table_transport (fun _ => (None, None)) (fun _ => (true, None))
             (fun _ => ([Some 30; Some 10; Some 40]%nat, None))
             (fun _ _ _ => ([], None)) in
  let s := [Some 20%nat; None; None; None] in
  let st := mkSt (mkLocal vnodeA s [] 0 None false) tt [] in
  exists kept rest,
    take 3 [Some 30; Some 10; Some 40]%nat = kept ++ rest /\
    Forall (kept_entry ring_heap vnodeA) kept /\
    match rest with
    | [] => True
    | p :: _ => stop_entry ring_heap vnodeA p
    end /\
    @notifySuccessor unit T ring_heap (mkConfig 4 8) st =
    Done (None,
          mkSt (set_successors
                  (take 1 s ++ kept ++ drop (1 + length kept) s) (vn st))
            tt [CallNotify (Some 20%nat)]).
Proof.
  intros T s st.
  exact (@notifySuccessor_merge unit T ring_heap (mkConfig 4 8) st
           (Some 20%nat) [Some 30; Some 10; Some 40]%nat tt
           eq_refl eq_refl eq_refl).
Defined.

(** C3 as stated fails: the entry after one equal to this vnode is not
    merged.  The successor returns [30; 10; 40], this vnode is 10 and the
    capacity is 4: slot 3 stays nil instead of receiving 40. *)
Lemma notifySuccessor_stops_at_self :
  let T := table_transport (fun _ => (None, None)) (fun _ => (true, None))
             (fun _ => ([Some 30; Some 10; Some 40]%nat, None))
             (fun _ _ _ => ([], None)) in
  let st := mkSt (mkLocal vnodeA [Some 20%nat; None; None; None] [] 0 None false)
              tt [] in
  let st' := mkSt (mkLocal vnodeA [Some 20; Some 30; None; None]%nat [] 0 None
                     false) tt [CallNotify (Some 20%nat)] in
  kept_entry ring_heap vnodeA (Some 40%nat) /\
  @notifySuccessor unit T ring_heap (mkConfig 4 8) st = Done (None, st') /\
  index (successors (vn st')) 3 <> Some (Some 40%nat).
Proof.
  intros T st st'. split; [exists 40%nat; split; reflexivity|].
  split; [vm_compute; reflexivity|discriminate].
Qed.

(** ** FindSuccessors *)

Section FindSuccessorsFacts.
Context {W : Type} {T : Transport W}.
Variable heap : addr -> Vnode.
Variable betweenRightIncl : list byte -> list byte -> list byte -> bool.
Variable closestPreceeding : localVnode -> list byte -> list addr.

(** The loop over the candidates changes nothing of the vnode, and an
    answer it returns is the answer of one of the candidates. *)
Lemma try_closest_some (cands : list addr) (n : Z) (key : list byte) :
  forall (st st' : St W) (res : list VnodePtr),
    try_closest cands n key st = Done (Some res, st') ->
    vn st' = vn st /\
    exists c w w', In c cands /\
      trans_FindSuccessors (Some c) n key w = ((res, None), w').
Proof.
  induction cands as [|c cands IH]; intros st st' res H; cbn [try_closest] in H.
  - discriminate.
  - rewrite bind_run in H. unfold rpc in H.
    destruct (trans_FindSuccessors (Some c) n key (world st))
      as [[r [e|]] w] eqn:E; cbn beta iota in H.
    + apply IH in H. destruct H as (Hv & c' & w1 & w2 & Hin & Hc).
      split; [exact Hv|]. exists c', w1, w2. split; [right; exact Hin|exact Hc].
    + injection H as <- <-. split; [reflexivity|].
      exists c, (world st), w. split; [left; reflexivity|exact E].
Qed.

Lemma try_closest_none_vn (cands : list addr) (n : Z) (key : list byte) :
  forall (st st' : St W),
    try_closest cands n key st = Done (None, st') -> vn st' = vn st.
Proof.
  induction cands as [|c cands IH]; intros st st' H; cbn [try_closest] in H.
  - injection H as <-. reflexivity.
  - rewrite bind_run in H. unfold rpc in H.
    destruct (trans_FindSuccessors (Some c) n key (world st))
      as [[r [e|]] w] eqn:E; cbn beta iota in H.
    + apply IH in H. exact H.
    + discriminate.
Qed.

(** When every candidate fails, the loop ends without an answer. *)
Lemma try_closest_all_fail (cands : list addr) (n : Z) (key : list byte) :
  (forall c w, In c cands ->
     snd (fst (trans_FindSuccessors (Some c) n key w)) <> None) ->
  forall st : St W, exists st',
    try_closest cands n key st = Done (None, st') /\ vn st' = vn st.
Proof.
  induction cands as [|c cands IH]; intros Hf st; cbn [try_closest].
  - eexists. split; reflexivity.
  - rewrite bind_run. unfold rpc.
    pose proof (Hf c (world st) (or_introl eq_refl)) as Hc.
    destruct (trans_FindSuccessors (Some c) n key (world st))
      as [[r [e|]] w]; cbn beta iota; [|elim Hc; reflexivity].
    destruct (IH (fun c' w' Hin => Hf c' w' (or_intror Hin))
                (mkSt (vn st) w
                   (calls st ++ [CallFindSuccessors (Some c) n key])))
      as (st' & Hrun & Hv).
    exists st'. split; [exact Hrun|exact Hv].
Qed.

Lemma scan_successors_le (me : Vnode) (n : Z) (key : list byte)
    (remain : list VnodePtr) :
  forall (i bound : Z) (st st' : St W) (res : list VnodePtr),
    scan_successors heap betweenRightIncl me remain i bound n key st =
    Done ((res, None), st') ->
    Z.of_nat (length res) <= n.
Proof.
  induction remain as [|p rest IH]; intros i bound st st' res H;
    cbn [scan_successors] in H; destruct (i <=? bound); try discriminate.
  destruct (brackets heap betweenRightIncl me key p).
  - destruct (Z.gtb_spec (Z.of_nat (length (p :: rest))) n).
    + unfold slice_to in H. destruct (Z.ltb_spec n 0); [discriminate|].
      mrun_in H. injection H as <- <-. rewrite length_take. lia.
    + injection H as <- <-. lia.
  - eapply IH, H.
Qed.

Lemma scan_successors_state (me : Vnode) (n : Z) (key : list byte)
    (remain : list VnodePtr) :
  forall (i bound : Z) (st st' : St W) r,
    scan_successors heap betweenRightIncl me remain i bound n key st =
    Done (r, st') -> st' = st.
Proof.
  induction remain as [|p rest IH]; intros i bound st st' r H;
    cbn [scan_successors] in H; destruct (i <=? bound); try discriminate;
    try (injection H as <- <-; reflexivity).
  destruct (brackets heap betweenRightIncl me key p).
  - destruct (Z.of_nat (length (p :: rest)) >? n).
    + unfold slice_to in H. destruct (n <? 0); [discriminate|].
      mrun_in H. injection H as <- <-. reflexivity.
    + injection H as <- <-. reflexivity.
  - eapply IH, H.
Qed.

(** The fallback scan finds the first bracketing successor among the
    indices it is allowed to visit. *)
Lemma scan_successors_found (me : Vnode) (n : Z) (key : list byte)
    (pre : list VnodePtr) :
  forall (i bound : Z) (p : VnodePtr) (post : list VnodePtr) (st : St W),
    Forall (fun q => brackets heap betweenRightIncl me key q = false) pre ->
    brackets heap betweenRightIncl me key p = true ->
    i + Z.of_nat (length pre) <= bound ->
    0 <= n ->
    scan_successors heap betweenRightIncl me (pre ++ p :: post) i bound n key st
    = Done ((take (Z.to_nat n) (p :: post), None), st).
Proof.
  induction pre as [|q pre IH]; intros i bound p post st Hpre Hp Hb Hn;
    cbn [scan_successors app].
  - destruct (Z.leb_spec i bound); [|simpl in Hb; lia]. rewrite Hp.
    destruct (Z.gtb_spec (Z.of_nat (length (p :: post))) n).
    + unfold slice_to. destruct (Z.ltb_spec n 0); [lia|]. mrun. reflexivity.
    + mrun. rewrite take_ge by lia. reflexivity.
  - destruct (Z.leb_spec i bound); [|simpl in Hb; lia].
    inversion Hpre as [|? ? Hq Hpre']; subst. rewrite Hq.
    apply IH; auto. simpl length in Hb. lia.
Qed.

Lemma scan_successors_exhausted (me : Vnode) (n : Z) (key : list byte)
    (remain : list VnodePtr) :
  forall (i bound : Z) (st : St W),
    Forall (fun q => brackets heap betweenRightIncl me key q = false)
      (take (Z.to_nat (bound - i + 1)) remain) ->
    bound - i + 1 <= Z.of_nat (length remain) ->
    scan_successors heap betweenRightIncl me remain i bound n key st
    = Done (([], Some "Exhausted all preceeding nodes"%string), st).
Proof.
  induction remain as [|q rest IH]; intros i bound st Hall Hlen;
    cbn [scan_successors]; destruct (Z.leb_spec i bound); try reflexivity.
  - simpl in Hlen. lia.
  - replace (Z.to_nat (bound - i + 1)) with (S (Z.to_nat (bound - (i + 1) + 1)))
      in Hall by lia.
    cbn [take] in Hall. inversion Hall as [|? ? Hq Hall']; subst. rewrite Hq.
    apply IH; [exact Hall'|]. simpl length in Hlen. lia.
Qed.

(** A lookup reads the vnode and talks to the transport; it leaves the
    vnode as it was. *)
Lemma FindSuccessors_vn (n : Z) (key : list byte) (st st' : St W) r :
  FindSuccessors heap betweenRightIncl closestPreceeding n key st =
  Done (r, st') -> vn st' = vn st.
Proof.
  unfold FindSuccessors. intros H. mrun_in H.
  destruct (successors (vn st)) as [|s0 s] eqn:Es.
  { injection H as <- <-. reflexivity. }
  destruct (brackets heap betweenRightIncl (self (vn st)) key s0).
  - destruct (n <=? Z.of_nat (length (s0 :: s))).
    + unfold slice_to in H. destruct (n <? 0); [discriminate|].
      mrun_in H. injection H as <- <-. reflexivity.
    + injection H as <- <-. reflexivity.
  - destruct (try_closest (closestPreceeding (vn st) key) n key st)
      as [[[res|] st1]| |] eqn:E; rewrite bind_run, E in H; try discriminate.
    + mrun_in H. injection H as <- <-.
      apply try_closest_some in E. apply E.
    + mrun_in H. apply scan_successors_state in H. subst st'.
      eapply try_closest_none_vn, E.
Qed.

(** C6 (as amended): an answer of FindSuccessors(n, key) that comes from
    the local successor list or from the fallback scan has at most n
    entries; otherwise it is the answer of one of the closest preceding
    candidates, returned as it came, whatever its length. *)
Theorem FindSuccessors_at_most_n (n : Z) (key : list byte)
    (st st' : St W) (res : list VnodePtr) :
  FindSuccessors heap betweenRightIncl closestPreceeding n key st =
  Done ((res, None), st') ->
  Z.of_nat (length res) <= n \/
  exists c w w', In c (closestPreceeding (vn st) key) /\
    trans_FindSuccessors (Some c) n key w = ((res, None), w').
Proof.
  unfold FindSuccessors. intros H. mrun_in H.
  destruct (successors (vn st)) as [|s0 s] eqn:Es; [discriminate|].
  destruct (brackets heap betweenRightIncl (self (vn st)) key s0).
  - left. destruct (Z.leb_spec n (Z.of_nat (length (s0 :: s)))).
    + unfold slice_to in H. destruct (Z.ltb_spec n 0); [discriminate|].
      mrun_in H. injection H as <- <-. rewrite length_take. lia.
    + injection H as <- <-. lia.
  - destruct (try_closest (closestPreceeding (vn st) key) n key st)
      as [[[r|] st1]| |] eqn:E; rewrite bind_run, E in H; try discriminate.
    + mrun_in H. injection H as <- <-. right.
      apply try_closest_some in E. destruct E as (_ & E). exact E.
    + mrun_in H. left. eapply scan_successors_le, H.
Qed.

(** C4 (as amended): in FindSuccessors(n, key) with n at least one, when
    the first successor does not bracket the key and every remote
    candidate has failed, the fallback visits the successors at indices 1
    through knownSuccessors - n, in order; at the first of them that is
    non-nil and brackets the key it returns the successor list from that
    index on, truncated to n entries; when none of them does, it fails
    with an error. *)
Theorem FindSuccessors_fallback (n : Z) (key : list byte) (st : St W)
    (s0 : VnodePtr) (tl : list VnodePtr) :
  successors (vn st) = s0 :: tl ->
  brackets heap betweenRightIncl (self (vn st)) key s0 = false ->
  (forall c w, In c (closestPreceeding (vn st) key) ->
     snd (fst (trans_FindSuccessors (Some c) n key w)) <> None) ->
  1 <= n < 2 ^ 63 ->
  Z.of_nat (length (successors (vn st))) < 2 ^ 63 ->
  let visits q := brackets heap betweenRightIncl (self (vn st)) key q in
  let bound := knownSuccessors (vn st) - n in
  (forall pre p post,
     tl = pre ++ p :: post ->
     Forall (fun q => visits q = false) pre ->
     visits p = true ->
     1 + Z.of_nat (length pre) <= bound ->
     exists st',
       FindSuccessors heap betweenRightIncl closestPreceeding n key st =
       Done ((take (Z.to_nat n) (p :: post), None), st') /\
       vn st' = vn st) /\
  (Forall (fun q => visits q = false) (take (Z.to_nat bound) tl) ->
   exists st',
     FindSuccessors heap betweenRightIncl closestPreceeding n key st =
     Done (([], Some "Exhausted all preceeding nodes"%string), st') /\
     vn st' = vn st).
Proof.
  intros Es H0 Hfail Hn Hlen visits bound.
  pose proof (knownSuccessors_range (vn st)) as R.
  destruct (try_closest_all_fail _ n key Hfail st) as (st1 & Hrun & Hv).
  assert (Hb : wrap64 (knownSuccessors (vn st) - n) = bound).
  { apply wrap64_small. lia. }
  assert (Hstep : forall r,
    scan_successors heap betweenRightIncl (self (vn st)) tl 1 bound n key st1
      = r ->
    FindSuccessors heap betweenRightIncl closestPreceeding n key st = r).
  { intros r Hr. unfold FindSuccessors. mrun. rewrite Es. rewrite H0.
    rewrite (bind_done _ _ _ _ _ Hrun). mrun. rewrite Hv, Es, Hb.
    exact Hr. }
  split.
  - intros pre p post -> Hpre Hp Hle. exists st1. split; [|exact Hv].
    apply Hstep, scan_successors_found; auto; lia.
  - intros Hall. exists st1. split; [|exact Hv].
    apply Hstep, scan_successors_exhausted.
    + replace (bound - 1 + 1) with bound by lia. exact Hall.
    + rewrite Es in R. simpl length in R. lia.
Qed.

End FindSuccessorsFacts.

Lemma FindSuccessors_at_most_n_witness :
  let T := table_transport (fun _ => (None, None)) (fun _ => (true, None))
             (fun _ => ([], None)) (fun _ _ _ => ([], Some unreachable)) in
  let st := mkSt (mkLocal vnodeA [Some 20; Some 30]%nat [] 0 None false) tt [] in
  Z.of_nat (length [Some 20%nat]) <= 1 \/
  exists c w w', In c [] /\
    @trans_FindSuccessors unit T (Some c) 1 [byte_of_Z 15] w =
    (([Some 20%nat], None), w').
Proof.
  intros T st.
  exact (@FindSuccessors_at_most_n unit T ring_heap spec_betweenRightIncl
           (fun _ _ => []) 1 [byte_of_Z 15] st st [Some 20%nat] eq_refl).
Defined.

(** C6 as stated fails on the delegated path: asked for one entry, the
    vnode forwards the two entries its candidate answers with. *)
Lemma FindSuccessors_forwards_longer_answer :
  let T := table_transport (fun _ => (None, None)) (fun _ => (true, None))
             (fun _ => ([], None))
             (fun _ _ _ => ([Some 60; Some 70]%nat, None)) in
  let st := mkSt (mkLocal vnodeA [Some 20; Some 30]%nat [] 0 None false) tt [] in
  exists res st',
    @FindSuccessors unit T ring_heap spec_betweenRightIncl
      (fun _ _ => [20%nat]) 1 [byte_of_Z 50] st = Done ((res, None), st') /\
    ~ Z.of_nat (length res) <= 1.
Proof.
  intros T st. exists [Some 60; Some 70]%nat.
  exists (mkSt (vn st) tt
            [CallFindSuccessors (Some 20%nat) 1 [byte_of_Z 50]]).
  split; [vm_compute; reflexivity|]. simpl. lia.
Qed.

Lemma FindSuccessors_fallback_witness :
  let T := table_transport (fun _ => (None, None)) (fun _ => (true, None))
             (fun _ => ([], None)) (fun _ _ _ => ([], Some unreachable)) in
  let st := mkSt (mkLocal vnodeA [Some 20; Some 30; Some 40]%nat [] 0 None
                    false) tt [] in
  exists st',
    @FindSuccessors unit T ring_heap spec_betweenRightIncl
      (fun _ _ => [30%nat]) 1 [byte_of_Z 35] st =
    Done (([Some 40%nat], None), st') /\ vn st' = vn st.
Proof.
  intros T st.
  refine (proj1 (@FindSuccessors_fallback unit T ring_heap
                   spec_betweenRightIncl (fun _ _ => [30%nat]) 1
                   [byte_of_Z 35] st (Some 20%nat) [Some 30; Some 40]%nat
                   eq_refl eq_refl _ _ _)
            [Some 30%nat] (Some 40%nat) [] eq_refl _ eq_refl _).
  - intros c w _. discriminate.
  - lia.
  - reflexivity.
  - repeat constructor.
  - vm_compute. discriminate.
Defined.

(** C4 as stated fails: with two known successors and n = 2 the fallback
    visits no index at all, although the successor at index 1 brackets the
    key; the call fails instead of returning the suffix from index 1. *)
Lemma FindSuccessors_fallback_skips_last_indices :
  let T := table_transport (fun _ => (None, None)) (fun _ => (true, None))
             (fun _ => ([], None)) (fun _ _ _ => ([], Some unreachable)) in
  let st := mkSt (mkLocal vnodeA [Some 20; Some 30]%nat [] 0 None false) tt [] in
  knownSuccessors (vn st) = 2 /\
  brackets ring_heap spec_betweenRightIncl vnodeA [byte_of_Z 25] (Some 30%nat)
  = true /\
  @FindSuccessors unit T ring_heap spec_betweenRightIncl
    (fun _ _ => [20%nat]) 2 [byte_of_Z 25] st =
  Done (([], Some "Exhausted all preceeding nodes"%string),
        mkSt (vn st) tt [CallFindSuccessors (Some 20%nat) 2 [byte_of_Z 25]]) /\
  @FindSuccessors unit T ring_heap spec_betweenRightIncl
    (fun _ _ => [20%nat]) 2 [byte_of_Z 25] st <>
  Done ((take 2 (drop 1 (successors (vn st))), None),
        mkSt (vn st) tt [CallFindSuccessors (Some 20%nat) 2 [byte_of_Z 25]]).
Proof.
  intros T st. repeat split; try (vm_compute; reflexivity).
  vm_compute. discriminate.
Qed.

(** ** fixFingerTableAtIndex *)

Section FingerFacts.
Context {W : Type} {T : Transport W}.
Variable heap : addr -> Vnode.
Variable cfg : Config.
Variable betweenRightIncl : list byte -> list byte -> list byte -> bool.
Variable powerOffset : list byte -> Z -> Z -> list byte.
Variable closestPreceeding : localVnode -> list byte -> list addr.

Local Abbreviation covering := (covers heap cfg betweenRightIncl powerOffset).
Local Abbreviation pair_ok := (run_pair_ok heap cfg betweenRightIncl powerOffset).

Lemma run_pair_okb_spec (me : Vnode) (f : list VnodePtr) (j : Z) :
  run_pair_okb heap cfg betweenRightIncl powerOffset me f j = true <->
  pair_ok me f j.
Proof.
  unfold run_pair_okb, run_pair_ok.
  destruct (index f j) as [[a|]|] eqn:Ej.
  - destruct (Z.ltb_spec (j + 1) (Z.of_nat (length f))) as [Hlt|Hge]; cbn [andb].
    + destruct (covering me a (j + 1)) eqn:Hc.
      * destruct (index f (j + 1)) as [p|] eqn:En.
        -- rewrite ptr_eqb_eq. split.
           ++ intros -> b Hb _ _. congruence.
           ++ intros H. specialize (H a eq_refl Hlt Hc). congruence.
        -- split; [discriminate|]. intros H.
           specialize (H a eq_refl Hlt Hc). discriminate.
      * split; [|reflexivity]. intros _ b Hb _ Hcb. congruence.
    + split; [|reflexivity]. intros _ b _ Hlt. lia.
  - split; [|reflexivity]. intros _ b Hb. discriminate.
  - split; [|reflexivity]. intros _ b Hb. discriminate.
Qed.

Lemma run_invariantb_spec (me : Vnode) (f : list VnodePtr) :
  run_invariantb heap cfg betweenRightIncl powerOffset me f = true <->
  run_invariant heap cfg betweenRightIncl powerOffset me f.
Proof.
  unfold run_invariantb, run_invariant. rewrite forallb_forall. split.
  - intros H j Hj. destruct (Z_lt_ge_dec j (Z.of_nat (length f))) as [Hlt|Hge].
    + apply run_pair_okb_spec. replace j with (Z.of_nat (Z.to_nat j)) by lia.
      apply H, in_seq. lia.
    + intros b _ Hlt. lia.
  - intros H j _. apply run_pair_okb_spec, H. lia.
Qed.

Lemma extend_finger_run (a : addr) (fuel : nat) :
  forall (idx : Z) (st : St W),
    hashBits cfg = Z.of_nat (length (finger (vn st))) ->
    0 <= idx < hashBits cfg ->
    (Z.to_nat (hashBits cfg - idx) <= fuel)%nat ->
    exists last f,
      extend_finger heap cfg betweenRightIncl powerOffset fuel idx (Some a) st
      = Done (last, mkSt (set_finger f (vn st)) (world st) (calls st)) /\
      idx <= last < hashBits cfg /\
      length f = length (finger (vn st)) /\
      (forall j, idx < j <= last ->
         covers heap cfg betweenRightIncl powerOffset (self (vn st)) a j = true) /\
      (last + 1 < hashBits cfg ->
         covers heap cfg betweenRightIncl powerOffset (self (vn st)) a (last + 1)
         = false) /\
      (forall j, index f j =
                 if (idx <? j) && (j <=? last) then Some (Some a)
                 else index (finger (vn st)) j).
Proof.
  induction fuel as [|fuel IH]; intros idx st Hhb Hidx Hfuel; [lia|].
  cbn [extend_finger]. destruct (Z.leb_spec (hashBits cfg) (idx + 1)) as [Hend|Hmore].
  - exists idx, (finger (vn st)). mrun.
    split; [destruct st as [[] ? ?]; reflexivity|].
    split; [lia|]. split; [reflexivity|]. split; [intros; lia|]. split; [intros; lia|].
    intros j. destruct (Z.ltb_spec idx j), (Z.leb_spec j idx); try reflexivity; lia.
  - mrun.
    fold (covers heap cfg betweenRightIncl powerOffset (self (vn st)) a (idx + 1)).
    destruct (covers heap cfg betweenRightIncl powerOffset (self (vn st)) a (idx + 1))
      eqn:Hc.
    + unfold store_or_panic. rewrite store_some by lia. mrun.
      set (f1 := <[Z.to_nat (idx + 1) := Some a]> (finger (vn st))).
      set (st1 := mkSt (set_finger f1 (vn st)) (world st) (calls st)).
      destruct (IH (idx + 1) st1) as (last & f & Hrun & Hl & Hlen & Hcov & Hstop & Hf).
      { subst st1 f1. cbn. rewrite length_insert. exact Hhb. }
      { lia. } { lia. }
      exists last, f. rewrite Hrun. subst st1. cbn in *.
      split; [reflexivity|]. split; [lia|].
      split; [subst f1; rewrite length_insert in Hlen; exact Hlen|].
      split.
      { intros j Hj. destruct (Z.eq_dec j (idx + 1)); [subst; exact Hc|].
        apply Hcov. lia. }
      split; [exact Hstop|].
      intros j. rewrite Hf. subst f1. rewrite index_insert by lia.
      destruct (Z.ltb_spec (idx + 1) j), (Z.leb_spec j last), (Z.ltb_spec idx j),
        (Z.eqb_spec j (idx + 1)); cbn; try reflexivity; lia.
    + exists idx, (finger (vn st)). mrun.
      split; [destruct st as [[] ? ?]; reflexivity|].
      split; [lia|]. split; [reflexivity|]. split; [intros; lia|].
      split; [intros _; exact Hc|].
      intros j. destruct (Z.ltb_spec idx j), (Z.leb_spec j idx); try reflexivity; lia.
Qed.

(** The probe answers with the node found or with the entry the table
    held, and leaves the vnode as it was. *)
Lemma probe_candidate_run (idx : Z) (a : addr) (st : St W) :
  0 <= idx < Z.of_nat (length (finger (vn st))) ->
  exists c st',
    probe_candidate heap idx (Some a) st = Done (Some c, st') /\
    vn st' = vn st /\
    (c = a \/ index (finger (vn st)) idx = Some (Some c)).
Proof.
  intros Hidx. unfold probe_candidate, index_or_panic. mrun.
  destruct (index_in_range _ _ Hidx) as [old Hold]. rewrite Hold. mrun.
  destruct old as [o|]; mrun.
  2:{ exists a, st. split; [reflexivity|]. split; [reflexivity|].
      left; reflexivity. }
  destruct (same_String (heap o) (heap a)); cbn [negb].
  1:{ exists a, st. mrun. split; [reflexivity|]. split; [reflexivity|].
      left; reflexivity. }
  mrun. unfold rpc.
  destruct (trans_Ping (Some a) (world st)) as [[alive err] w].
  cbn beta iota. destruct (is_err err || negb alive); mrun.
  - exists o. eexists. split; [reflexivity|]. split; [reflexivity|].
    right; reflexivity.
  - exists a. eexists. split; [reflexivity|]. split; [reflexivity|].
    left; reflexivity.
Qed.

Lemma adopt_finger_run (idx : Z) (c : addr) (st : St W) :
  hashBits cfg = Z.of_nat (length (finger (vn st))) ->
  0 <= idx < hashBits cfg ->
  exists last f,
    adopt_finger heap cfg betweenRightIncl powerOffset idx (Some c) st =
    Done ((if last + 1 =? hashBits cfg then 0 else last + 1, None),
          mkSt (set_finger f (vn st)) (world st) (calls st)) /\
    idx <= last < hashBits cfg /\
    length f = length (finger (vn st)) /\
    (forall j, idx < j <= last -> covering (self (vn st)) c j = true) /\
    (last + 1 < hashBits cfg -> covering (self (vn st)) c (last + 1) = false) /\
    (forall j, index f j =
               if (idx <=? j) && (j <=? last) then Some (Some c)
               else index (finger (vn st)) j).
Proof.
  intros Hhb Hidx. unfold adopt_finger, store_or_panic. mrun.
  rewrite store_some by lia. mrun.
  set (f1 := <[Z.to_nat idx := Some c]> (finger (vn st))).
  set (st1 := mkSt (set_finger f1 (vn st)) (world st) (calls st)).
  destruct (extend_finger_run c (S (Z.to_nat (hashBits cfg - idx))) idx st1)
    as (last & f & Hrun & Hl & Hlen & Hcov & Hstop & Hf).
  { subst st1 f1. cbn. rewrite length_insert. exact Hhb. }
  { lia. } { lia. }
  exists last, f. rewrite Hrun. subst st1. cbn in *. mrun.
  split; [reflexivity|]. split; [lia|].
  split; [subst f1; rewrite length_insert in Hlen; exact Hlen|].
  split; [exact Hcov|]. split; [exact Hstop|].
  intros j. rewrite Hf. subst f1. rewrite index_insert by lia.
  destruct (Z.ltb_spec idx j), (Z.leb_spec j last), (Z.leb_spec idx j),
    (Z.eqb_spec j idx); cbn; try reflexivity; lia.
Qed.

(** The probe rule in full: the found node is pinged only when the
    table holds a non-nil entry that prints differently, and the old
    entry is kept only when that ping fails. *)
Lemma probe_candidate_rule (idx : Z) (a : addr) (old : VnodePtr)
    (alive : bool) (perr : option error) (w2 : W) (st : St W) :
  index (finger (vn st)) idx = Some old ->
  trans_Ping (Some a) (world st) = ((alive, perr), w2) ->
  let probed := match old with
                | Some o => negb (same_String (heap o) (heap a))
                | None => false
                end in
  probe_candidate heap idx (Some a) st =
  Done (if probed && (is_err perr || negb alive) then old else Some a,
        mkSt (vn st) (if probed then w2 else world st)
          (calls st ++ if probed then [CallPing (Some a)] else [])).
Proof.
  intros Hold Hping probed. subst probed.
  unfold probe_candidate, index_or_panic. mrun. rewrite Hold. mrun.
  destruct old as [o|]; mrun.
  2:{ cbn [andb]. rewrite app_nil_r. destruct st; reflexivity. }
  destruct (same_String (heap o) (heap a)); cbn [negb andb]; mrun.
  1:{ rewrite app_nil_r. destruct st; reflexivity. }
  rewrite (rpc_run _ _ _ _ _ Hping). mrun.
  destruct (is_err perr || negb alive); mrun; reflexivity.
Qed.

(** C8 (as amended): when the lookup of fixFingerTableAtIndex(i) yields a
    vnode, the call pings it only if finger[i] holds a non-nil entry
    that prints differently, and chooses the old entry when that ping
    answers with an error or "not alive", the vnode found otherwise.  It
    sets finger[i] to the chosen vnode and copies it forward into i+1,
    i+2, ... exactly as long as
    betweenRightIncl(Id, node.Id, powerOffset(Id, next, hashBits)) holds,
    stopping at the first index where it does not; nothing but the finger
    table changes, and it returns the last index written plus one, or 0
    when that equals hashBits.  Afterwards the run invariant holds at
    every index of the run just written, and at every other index where
    it held before, except possibly at index i-1, whose pair with index i
    is not re-examined. *)
Theorem fixFingerTableAtIndex_extends (idx : Z) (st st1 : St W) (a : addr)
    (more : list VnodePtr) (old : VnodePtr) (alive : bool)
    (perr : option error) (w2 : W) :
  hashBits cfg = Z.of_nat (length (finger (vn st))) ->
  0 <= idx < hashBits cfg ->
  FindSuccessors heap betweenRightIncl closestPreceeding 1
    (powerOffset (Id (self (vn st))) idx (hashBits cfg)) st =
  Done ((Some a :: more, None), st1) ->
  index (finger (vn st)) idx = Some old ->
  trans_Ping (Some a) (world st1) = ((alive, perr), w2) ->
  let probed := match old with
                | Some o => negb (same_String (heap o) (heap a))
                | None => false
                end in
  exists c last f,
    Some c = (if probed && (is_err perr || negb alive) then old else Some a) /\
    fixFingerTableAtIndex heap cfg betweenRightIncl powerOffset
      closestPreceeding idx st =
    Done ((if last + 1 =? hashBits cfg then 0 else last + 1, None),
          mkSt (set_finger f (vn st)) (if probed then w2 else world st1)
            (calls st1 ++ if probed then [CallPing (Some a)] else [])) /\
    idx <= last < hashBits cfg /\
    (forall j, index f j =
               if (idx <=? j) && (j <=? last) then Some (Some c)
               else index (finger (vn st)) j) /\
    (forall j, idx < j <= last -> covering (self (vn st)) c j = true) /\
    (last + 1 < hashBits cfg -> covering (self (vn st)) c (last + 1) = false) /\
    (forall j, idx <= j <= last -> pair_ok (self (vn st)) f j) /\
    (forall j, 0 <= j -> j <> idx - 1 ->
       pair_ok (self (vn st)) (finger (vn st)) j ->
       pair_ok (self (vn st)) f j).
Proof.
  intros Hhb Hidx Hfind Hold Hping probed.
  pose proof (FindSuccessors_vn _ _ _ _ _ _ _ _ Hfind) as Hv1.
  assert (Hold1 : index (finger (vn st1)) idx = Some old)
    by (rewrite Hv1; exact Hold).
  pose proof (probe_candidate_rule idx a old alive perr w2 st1 Hold1 Hping)
    as Hprobe. cbv zeta in Hprobe. fold probed in Hprobe.
  assert (Hc : exists c,
    Some c = (if probed && (is_err perr || negb alive) then old else Some a)).
  { subst probed. destruct old as [o|]; [|exists a; reflexivity].
    destruct (negb (same_String (heap o) (heap a)) &&
              (is_err perr || negb alive)); eauto. }
  destruct Hc as [c Hc]. rewrite <- Hc in Hprobe.
  set (st2 := mkSt (vn st1) (if probed then w2 else world st1)
                (calls st1 ++ if probed then [CallPing (Some a)] else []))
    in Hprobe.
  destruct (adopt_finger_run idx c st2)
    as (last & f & Hrun & Hl & Hlen & Hcov & Hstop & Hf).
  { subst st2. cbn [vn]. rewrite Hv1. exact Hhb. } { exact Hidx. }
  subst st2. cbn [vn world calls] in Hrun, Hlen, Hcov, Hstop, Hf.
  rewrite Hv1 in Hlen, Hcov, Hstop, Hf.
  exists c, last, f. split; [exact Hc|]. split.
  { unfold fixFingerTableAtIndex. mrun. rewrite Hfind. mrun.
    rewrite Hprobe. cbn beta iota. rewrite Hrun, Hv1. reflexivity. }
  split; [exact Hl|]. split; [exact Hf|]. split; [exact Hcov|].
  split; [exact Hstop|].
  split.
  - intros j Hj b Hb Hlt Hcb. rewrite Hf in Hb |- *.
    destruct (Z.leb_spec idx j); [|lia]. destruct (Z.leb_spec j last); [|lia].
    cbn in Hb. injection Hb as <-.
    destruct (Z.leb_spec idx (j + 1)); [|lia].
    destruct (Z.leb_spec (j + 1) last); [reflexivity|].
    assert (j = last) by lia. subst j. rewrite Hlen, <- Hhb in Hlt.
    rewrite Hstop in Hcb by lia. discriminate.
  - intros j Hj Hne Hok b Hb Hlt Hcb.
    destruct (Z_le_gt_dec idx j) as [Hge|Hlow].
    + destruct (Z_le_gt_dec j last) as [Hin|Hout].
      * rewrite Hf in Hb |- *.
        destruct (Z.leb_spec idx j); [|lia]. destruct (Z.leb_spec j last); [|lia].
        cbn in Hb. injection Hb as <-.
        destruct (Z.leb_spec idx (j + 1)); [|lia].
        destruct (Z.leb_spec (j + 1) last); [reflexivity|].
        assert (j = last) by lia. subst j. rewrite Hlen, <- Hhb in Hlt.
        rewrite Hstop in Hcb by lia. discriminate.
      * rewrite Hf in Hb |- *.
        destruct (Z.leb_spec j last); [lia|].
        destruct (Z.leb_spec (j + 1) last); [lia|].
        rewrite andb_false_r in Hb |- *. rewrite Hlen in Hlt. auto.
    + rewrite Hf in Hb |- *.
      destruct (Z.leb_spec idx j); [lia|].
      destruct (Z.leb_spec idx (j + 1)); [lia|].
      cbn in Hb |- *. rewrite Hlen in Hlt. auto.
Qed.

End FingerFacts.

Lemma fixFingerTableAtIndex_extends_witness :
  let T := table_transport (fun _ => (None, None)) (fun _ => (false, None))
             (fun _ => ([], None)) (fun _ _ _ => ([], Some unreachable)) in
  let st := mkSt (mkLocal vnodeA [Some 30%nat; None]
                    [Some 20; Some 20; Some 20; Some 20; Some 30;
                     None; None; None]%nat 0 None false) tt [] in
  exists c last f,
    Some c = Some 20%nat /\
    @fixFingerTableAtIndex unit T ring_heap ring_cfg spec_betweenRightIncl
      spec_powerOffset (fun _ _ => []) 2 st =
    Done ((if last + 1 =? 8 then 0 else last + 1, None),
          mkSt (set_finger f (vn st)) tt [CallPing (Some 30%nat)]) /\
    2 <= last < 8.
Proof.
  intros T st.
  destruct (@fixFingerTableAtIndex_extends unit T ring_heap ring_cfg
              spec_betweenRightIncl spec_powerOffset (fun _ _ => []) 2 st st
              30%nat [] (Some 20%nat) false None tt)
    as (c & last & f & Hc & Hrun & Hlast & _);
    [reflexivity | simpl; lia | reflexivity | reflexivity | reflexivity |].
  exists c, last, f. split; [exact Hc|]. split; [exact Hrun|exact Hlast].
Defined.

(** C8 as stated fails in its last part.  Vnode 10 holds the finger table
    [20; 20; 20; 20; 30; nil; nil; nil], which satisfies the run invariant;
    its successor is now 30.  Refreshing index 2 writes 30 to indices 2 to 4
    and returns 5, as described; but index 1 still holds 20, which covers
    the offset of index 2, so the run invariant is broken at index 1. *)
Lemma fixFingerTableAtIndex_breaks_run_invariant :
  let T := table_transport (fun _ => (None, None)) (fun _ => (true, None))
             (fun _ => ([], None)) (fun _ _ _ => ([], Some unreachable)) in
  let before := [Some 20; Some 20; Some 20; Some 20; Some 30;
                 None; None; None]%nat in
  let after := [Some 20; Some 20; Some 30; Some 30; Some 30;
                None; None; None]%nat in
  let v := mkLocal vnodeA [Some 30%nat; None] before 0 None false in
  run_invariant ring_heap ring_cfg spec_betweenRightIncl spec_powerOffset
    vnodeA before /\
  @fixFingerTableAtIndex unit T ring_heap ring_cfg spec_betweenRightIncl
    spec_powerOffset (fun _ _ => []) 2 (mkSt v tt []) =
  Done ((5, None), mkSt (set_finger after v) tt [CallPing (Some 30%nat)]) /\
  ~ run_invariant ring_heap ring_cfg spec_betweenRightIncl spec_powerOffset
      vnodeA after.
Proof.
  intros T before after v. split; [|split].
  - apply run_invariantb_spec. vm_compute. reflexivity.
  - vm_compute. reflexivity.
  - rewrite <- run_invariantb_spec. vm_compute. discriminate.
Qed.

(** ** toData and the decoder *)

Section SnapshotFacts.
Variable heap : addr -> Vnode.

Lemma encode_runs_boundary (fs : list VnodePtr) :
  forall (done : list (option VnodeData)) (last : VnodePtr),
    encode_runs heap fs (Z.of_nat (length done) + 1) last
      (done ++ None :: replicate (length fs) None) =
    Done (done ++ boundary_slots heap last fs ++ [None],
          List.last fs last).
Proof.
  induction fs as [|n rest IH]; intros done last.
  - reflexivity.
  - cbn [encode_runs boundary_slots length replicate].
    replace (Z.of_nat (length done) + 1 + 1)
      with (Z.of_nat (length (done ++ [if ptr_eqb n last then None
                                       else ptr_ToData heap last])) + 1)
      by (rewrite length_app; simpl; lia).
    destruct (ptr_eqb n last); cbn [negb].
    + specialize (IH (done ++ [None]) n).
      rewrite <- !app_assoc in IH. cbn [app] in IH. rewrite IH.
      rewrite last_cons_default, <- ?app_assoc. reflexivity.
    + rewrite store_some by (rewrite length_app; simpl; lia).
      replace (Z.to_nat (Z.of_nat (length done) + 1 - 1)) with (length done)
        by lia.
      rewrite insert_splice.
      specialize (IH (done ++ [ptr_ToData heap last]) n).
      rewrite <- !app_assoc in IH. cbn [app] in IH. rewrite IH.
      rewrite last_cons_default, <- ?app_assoc. reflexivity.
Qed.




End SnapshotFacts.


(** The condition on nil entries is needed.  The table
    [nil; 20; 20; 20; 30; nil; nil; nil] satisfies the run invariant, but
    its snapshot leaves slot 0 empty and the decoder fills it with vnode
    20.  No vnode holds such a table: refreshes fill the table from
    index 0 without a gap (see the shape of the finger table below). *)
Lemma toData_loses_leading_nil :
  let f := [None; Some 20; Some 20; Some 20; Some 30; None; None; None]%nat in
  let v := mkLocal vnodeA [Some 20%nat] f 0 None false in
  run_invariant ring_heap ring_cfg spec_betweenRightIncl spec_powerOffset
    vnodeA f /\
  exists slots,
    encode_finger ring_heap v = Done slots /\
    index slots 0 = Some None /\
    index (decode_finger slots) 0 = Some (Some (Vnode_ToData (ring_heap 20))) /\
    decode_finger slots <> map (ptr_ToData ring_heap) f.
Proof.
  intros f v. split.
  - apply run_invariantb_spec. vm_compute. reflexivity.
  - eexists. split; [vm_compute; reflexivity|].
    split; [reflexivity|]. split; [vm_compute; reflexivity|].
    vm_compute. discriminate.
Qed.

(** ** checkNewSuccessor *)

Section CheckNewSuccessorFacts.
Context {W : Type} {T : Transport W}.
Variable heap : addr -> Vnode.
Variable cfg : Config.
Variable between : list byte -> list byte -> list byte -> bool.
Variable betweenRightIncl : list byte -> list byte -> list byte -> bool.
Variable powerOffset : list byte -> Z -> Z -> list byte.
Variable closestPreceeding : localVnode -> list byte -> list addr.

Local Abbreviation check :=
  (checkNewSuccessor heap cfg between betweenRightIncl powerOffset
     closestPreceeding).
Local Abbreviation repair := (repair_loop heap betweenRightIncl).
Local Abbreviation promote := (promote_from_finger heap betweenRightIncl).
Local Abbreviation skipped := (passed_over heap betweenRightIncl).

Lemma repair_loop_S (fuel : nat) (i known : Z) (succ maybe_suc : VnodePtr)
    (err : option error) :
  repair (S fuel) i known succ maybe_suc err =
  if negb (i <? known) then mret (succ, maybe_suc)
  else
    match err with
    | None => mret (succ, maybe_suc)
    | Some _ =>
        known ← (if i =? known - 1 then
                   v ← get_vn;
                   promoted ← promote None (finger v);
                   let known := (if (promoted : bool) then known + 1
                                 else known) in
                   if i =? known - 1
                   then throw (ExplicitPanic
                                 "All known successors dead!"%string)
                   else mret known
                 else mret known);
        v ← get_vn;
        _ ← put_successors (shift_left (successors v));
        v ← get_vn;
        s ← store_or_panic (successors v) (known - 1 - i) None;
        _ ← put_successors s;
        v ← get_vn;
        succ ← index_or_panic (successors v) 0;
        '(maybe_suc, err) ← rpc (CallGetPredecessor succ)
                                (trans_GetPredecessor succ);
        repair fuel (i + 1) known succ maybe_suc err
    end.
Proof. reflexivity. Qed.

(** When the scan passes over every entry, nothing is promoted. *)
Lemma promote_none (l : addr) (fs : list VnodePtr) :
  forall (prev : option VnodePtr) (st : St W),
    index (successors (vn st)) 0 = Some (Some l) ->
    Forall (skipped (self (vn st)) l) fs ->
    promote prev fs st = Done (false, st).
Proof.
  induction fs as [|n fs IH]; intros prev st H0 Hall; [reflexivity|].
  inversion Hall as [|? ? Hn Hfs]; subst. cbn [promote_from_finger].
  destruct n as [a|]; [|apply IH; assumption].
  mrun. destruct (same_String (heap a) (self (vn st))) eqn:Es;
    [apply IH; assumption|].
  destruct Hn as [Hn|Hn]; [congruence|].
  destruct (match prev with
            | Some q => negb (ptr_eqb (Some a) q)
            | None => true
            end); [|apply IH; assumption].
  unfold index_or_panic. mrun. rewrite H0. mrun. rewrite Hn. cbn [negb].
  apply IH; assumption.
Qed.

(** The scan promotes the first entry it does not pass over. *)
Lemma promote_first (b c : addr) (q : VnodePtr) (tl post : list VnodePtr)
    (pre : list VnodePtr) :
  forall (prev : option VnodePtr) (st : St W),
    successors (vn st) = Some b :: q :: tl ->
    Forall (skipped (self (vn st)) b) pre ->
    ~ skipped (self (vn st)) b (Some c) ->
    match prev with
    | Some p => skipped (self (vn st)) b p
    | None => True
    end ->
    promote prev (pre ++ Some c :: post) st =
    Done (true, mkSt (set_successors (Some b :: Some c :: tl) (vn st))
                  (world st) (calls st)).
Proof.
  assert (Hne : forall me p, skipped me b p -> ~ skipped me b (Some c) ->
                             negb (ptr_eqb (Some c) p) = true).
  { intros me p Hp Hc. destruct (ptr_eqb (Some c) p) eqn:E; [|reflexivity].
    apply ptr_eqb_eq in E. subst p. contradiction. }
  induction pre as [|n pre IH]; intros prev st Hs Hpre Hc Hprev.
  - cbn [app promote_from_finger]. mrun.
    destruct (same_String (heap c) (self (vn st))) eqn:Es.
    { elim Hc. left. exact Es. }
    destruct (betweenRightIncl (Id (self (vn st))) (Id (heap b)) (Id (heap c)))
      eqn:Eb.
    { elim Hc. right. exact Eb. }
    replace (match prev with
             | Some q0 => negb (ptr_eqb (Some c) q0)
             | None => true
             end) with true
      by (destruct prev as [p|]; [symmetry; eapply Hne; eauto|reflexivity]).
    unfold index_or_panic, store_or_panic. rewrite Hs.
    change (index (Some b :: q :: tl) 0) with (Some (Some b)). mrun.
    rewrite Eb. cbn [negb]. rewrite store_some by (simpl; lia). mrun.
    reflexivity.
  - inversion Hpre as [|? ? Hn Hpre']; subst.
    cbn [app promote_from_finger].
    destruct n as [a|]; [|apply IH; auto; exact I].
    mrun. destruct (same_String (heap a) (self (vn st))) eqn:Es;
      [apply IH; auto|].
    destruct Hn as [Hn|Hn]; [congruence|].
    destruct (match prev with
              | Some q0 => negb (ptr_eqb (Some a) q0)
              | None => true
              end); [|apply IH; auto; right; exact Hn].
    unfold index_or_panic. rewrite Hs.
    change (index (Some b :: q :: tl) 0) with (Some (Some b)). mrun.
    rewrite Hn. cbn [negb]. apply IH; auto. right; exact Hn.
Qed.

(** With every successor dead and no finger entry to promote, the loop
    drops the known successors one by one and then panics. *)
Lemma repair_exhausts (l : addr) (k : nat) :
  forall (fuel : nat) (i known : Z) (succ maybe_suc : VnodePtr) (e : error)
         (st : St W),
    all_dead ->
    known - 1 - i = Z.of_nat k ->
    (k < fuel)%nat ->
    index (successors (vn st)) (Z.of_nat k) = Some (Some l) ->
    (forall j, Z.of_nat k < j -> nil_or_absent (index (successors (vn st)) j)) ->
    Forall (skipped (self (vn st)) l) (finger (vn st)) ->
    repair fuel i known succ maybe_suc (Some e) st =
    Panicked (ExplicitPanic "All known successors dead!").
Proof.
  induction k as [|k IH];
    intros fuel i known succ maybe_suc e st Hdead Hk Hfuel Hl Hnil Hfing;
    (destruct fuel as [|fuel]; [lia|]); cbn [repair_loop];
    (destruct (Z.ltb_spec i known); [|lia]); cbn [negb].
  - destruct (Z.eqb_spec i (known - 1)); [|lia]. mrun.
    rewrite (promote_none l) by assumption. mrun.
    destruct (Z.eqb_spec i (known - 1)); [|lia]. reflexivity.
  - destruct (Z.eqb_spec i (known - 1)); [lia|]. mrun.
    destruct (successors (vn st)) as [|x u] eqn:Es; [discriminate|].
    unfold store_or_panic. rewrite shift_store.
    2:{ unfold index in Hl.
        destruct (Z.ltb_spec (Z.of_nat (S k)) 0) as [Hj|Hj]; [lia|].
        apply lookup_lt_Some in Hl. lia. }
    2:{ intros j Hj. apply Hnil. lia. }
    mrun. unfold index_or_panic.
    destruct (index (u ++ [None]) 0) as [succ'|] eqn:E0.
    2:{ destruct u; discriminate. }
    mrun. unfold rpc. cbn [world].
    destruct (Hdead succ' (world st)) as [e' He'].
    destruct (trans_GetPredecessor succ' (world st)) as [[m' err'] w'].
    cbn in He'. subst err'. cbn beta iota.
    apply (IH fuel); try assumption; cbn [vn successors set_successors finger self].
    + lia.
    + lia.
    + apply index_snoc_some. rewrite <- (index_cons x) by lia.
      replace (Z.of_nat k + 1) with (Z.of_nat (S k)) by lia. exact Hl.
    + intros j Hj. apply index_snoc_nil. rewrite <- (index_cons x) by lia.
      apply Hnil. lia.
Qed.

(** C7 (as amended): when the first successor answers with a predecessor
    strictly between this vnode and itself and the liveness probe of that
    candidate fails (an error, or the answer "not alive"),
    checkNewSuccessor leaves the vnode, and so its successor list,
    unchanged, notifies the existing successor again, probes once only,
    and returns the error value of the probe; that value is nil when the
    probe answered "not alive" without an error. *)
Theorem checkNewSuccessor_probe_fails (fuel : nat) (st : St W) (b m : addr)
    (w1 w2 w3 : W) (alive : bool) (perr : option error)
    (answer : list VnodePtr * option error) :
  (1 <= fuel)%nat ->
  index (successors (vn st)) 0 = Some (Some b) ->
  trans_GetPredecessor (Some b) (world st) = ((Some m, None), w1) ->
  between (Id (self (vn st))) (Id (heap b)) (Id (heap m)) = true ->
  trans_Ping (Some m) w1 = ((alive, perr), w2) ->
  is_err perr || negb alive = true ->
  trans_Notify (Some b) (self (vn st)) w2 = (answer, w3) ->
  check fuel st =
  Done (perr,
        mkSt (vn st) w3
          (calls st ++ [CallGetPredecessor (Some b); CallPing (Some m);
                        CallNotify (Some b)])).
Proof.
  intros Hfuel H0 Hgp Hbt Hping Hfail Hnotify.
  destruct fuel as [|fuel]; [lia|].
  unfold checkNewSuccessor, index_or_panic. mrun. rewrite H0. mrun.
  rewrite (rpc_run _ _ _ _ _ Hgp). mrun. cbn [repair_loop].
  destruct (negb (0 <? knownSuccessors (vn st))); mrun; rewrite Hbt;
    mrun; rewrite (rpc_at _ _ _ _ _ _ _ Hping); mrun; rewrite Hfail;
    mrun; rewrite (rpc_at _ _ _ _ _ _ _ Hnotify); mrun;
    rewrite <- !app_assoc; reflexivity.
Qed.

Lemma strip_app_some (pre post : list VnodePtr) (c : addr) :
  strip_trailing_nil (pre ++ Some c :: post) =
  pre ++ Some c :: strip_trailing_nil post.
Proof.
  induction pre as [|p pre IH]; [reflexivity|].
  cbn [app strip_trailing_nil]. rewrite IH.
  destruct p, pre; reflexivity.
Qed.

(** While the queries fail, the loop drops the successors one by one,
    asking each in turn; it stops at the first that answers. *)
Lemma repair_walks (c : addr) (m : VnodePtr) (pre : list VnodePtr) :
  forall (post : list VnodePtr) (fuel : nat) (i known : Z) (x m0 : VnodePtr)
         (e : error) (st : St W),
    successors (vn st) = x :: pre ++ Some c :: post ->
    (forall p w, In p pre ->
       exists e', snd (fst (trans_GetPredecessor p w)) = Some e') ->
    (forall w, fst (trans_GetPredecessor (Some c) w) = (m, None)) ->
    0 <= i ->
    Z.of_nat (length pre) + 1 <= known - 1 - i ->
    known - 1 - i < Z.of_nat (length (successors (vn st))) ->
    (forall j, known - 1 - i < j ->
       nil_or_absent (index (successors (vn st)) j)) ->
    (length pre + 2 <= fuel)%nat ->
    exists w',
      repair fuel i known x m0 (Some e) st =
      Done ((Some c, m),
            mkSt (set_successors
                    (Some c :: post ++ replicate (S (length pre)) None)
                    (vn st))
              w' (calls st ++ map CallGetPredecessor (pre ++ [Some c]))).
Proof.
  induction pre as [|p pre IH];
    intros post fuel i known x m0 e st Hs Hfail Hans Hi Hk Hlen Hnil Hfuel;
    (destruct fuel as [|fuel]; [simpl in Hfuel; lia|]); rewrite repair_loop_S;
    (destruct (Z.ltb_spec i known); [|simpl in Hk; lia]); cbn [negb];
    (destruct (Z.eqb_spec i (known - 1)); [simpl in Hk; lia|]); mrun;
    rewrite Hs in Hlen, Hnil |- *; unfold store_or_panic;
    (rewrite shift_store; [|simpl in Hk; lia|exact Hnil]); mrun;
    unfold index_or_panic.
  - cbn [app]. change (index (Some c :: post ++ [None]) 0)
      with (Some (Some c)). mrun. unfold rpc. cbn [world].
    specialize (Hans (world st)).
    destruct (trans_GetPredecessor (Some c) (world st)) as [[m' err'] w'].
    cbn in Hans. injection Hans as -> ->. cbn beta iota.
    destruct fuel as [|fuel]; [simpl in Hfuel; lia|]. rewrite repair_loop_S.
    exists w'. destruct (negb (i + 1 <? known)); reflexivity.
  - cbn [app]. change (index (p :: (pre ++ Some c :: post) ++ [None]) 0)
      with (Some p). mrun. unfold rpc. cbn [world].
    destruct (Hfail p (world st) (or_introl eq_refl)) as [e' He'].
    destruct (trans_GetPredecessor p (world st)) as [[m' err'] w1].
    cbn in He'. subst err'. cbn beta iota.
    set (st1 := mkSt _ w1 _).
    destruct (IH (post ++ [None]) fuel (i + 1) known p m' e' st1)
      as [w' Hrun].
    + subst st1. cbn [vn successors set_successors].
      rewrite <- app_assoc. reflexivity.
    + intros q w Hq. apply Hfail. right. exact Hq.
    + exact Hans.
    + lia.
    + simpl length in Hk. lia.
    + subst st1. cbn [vn successors set_successors length app] in *.
      rewrite ?length_app in *. cbn [length] in *. lia.
    + subst st1. cbn [vn successors set_successors]. intros j Hj.
      apply (index_snoc_nil (p :: pre ++ Some c :: post)).
      rewrite <- (index_cons x) by lia. apply Hnil. lia.
    + simpl length in Hfuel. lia.
    + exists w'. rewrite Hrun. subst st1.
      cbn [vn calls successors set_successors length map app].
      rewrite <- !app_assoc. reflexivity.
Qed.

(** C1 (as amended).  With an empty first slot checkNewSuccessor returns
    the error value "Node has no successor!" and changes nothing.  With
    the first slot filled it queries the successors in list order and
    drops each one whose query fails: when the first to answer sits in
    slot j, and reports no vnode strictly between this vnode and itself,
    it returns no error after exactly those j+1 queries, with the list
    moved j slots to the left and nil in the freed slots.  When every
    GetPredecessor call fails and the finger table holds no entry that
    can be promoted past the last known successor, it panics with
    "All known successors dead!": it returns no error value to its
    caller. *)
Theorem checkNewSuccessor_exhausted_panics (fuel : nat) (st : St W) :
  (index (successors (vn st)) 0 = Some None ->
   check fuel st = Done (Some "Node has no successor!"%string, st)) /\
  (forall (b c : addr) (pre post : list VnodePtr) (m : VnodePtr),
     index (successors (vn st)) 0 = Some (Some b) ->
     successors (vn st) = pre ++ Some c :: post ->
     (forall p w, In p pre ->
        exists e, snd (fst (trans_GetPredecessor p w)) = Some e) ->
     (forall w, fst (trans_GetPredecessor (Some c) w) = (m, None)) ->
     match m with
     | Some x =>
         between (Id (self (vn st))) (Id (heap c)) (Id (heap x)) = false
     | None => True
     end ->
     (length pre < fuel)%nat ->
     exists w',
       check fuel st =
       Done (None,
             mkSt (set_successors
                     (Some c :: post ++ replicate (length pre) None) (vn st))
               w' (calls st ++ map CallGetPredecessor (pre ++ [Some c])))) /\
  (forall b l : addr,
     index (successors (vn st)) 0 = Some (Some b) ->
     index (successors (vn st)) (knownSuccessors (vn st) - 1) =
     Some (Some l) ->
     all_dead ->
     Forall (skipped (self (vn st)) l) (finger (vn st)) ->
     knownSuccessors (vn st) <= Z.of_nat fuel ->
     check fuel st = Panicked (ExplicitPanic "All known successors dead!")).
Proof.
  split; [|split].
  - intros H0. unfold checkNewSuccessor, index_or_panic. mrun. rewrite H0.
    mrun. reflexivity.
  - intros b c pre post m H0 Hs Hfail Hans Hm Hfuel.
    assert (Hknown : knownSuccessors (vn st) =
                     Z.of_nat (length pre) + 1 +
                     Z.of_nat (length (strip_trailing_nil post))).
    { rewrite knownSuccessors_strip, Hs, strip_app_some, length_app.
      simpl length. lia. }
    assert (Hk1 : 1 <= knownSuccessors (vn st)) by lia.
    destruct (knownSuccessors_last (vn st) Hk1) as [_ Hnil].
    pose proof (knownSuccessors_range (vn st)) as R.
    unfold checkNewSuccessor, index_or_panic. mrun. rewrite H0. mrun.
    destruct pre as [|p pre].
    + cbn [app] in Hs. rewrite Hs in H0. injection H0 as <-.
      rewrite (rpc_run _ _ _ _ _ (surjective_pairing _)).
      rewrite (Hans (world st)). mrun.
      destruct fuel as [|fuel]; [simpl in Hfuel; lia|]. rewrite repair_loop_S.
      exists (snd (trans_GetPredecessor (Some c) (world st))).
      assert (Hv : set_successors (Some c :: post ++ replicate 0 None) (vn st)
                   = vn st).
      { cbn [replicate]. rewrite app_nil_r, <- Hs.
        destruct (vn st); reflexivity. }
      cbn [length]. rewrite Hv. cbn [map app].
      destruct (negb (0 <? knownSuccessors (vn st))); mrun;
        (destruct m as [x|]; mrun; [rewrite Hm; mrun|]; reflexivity).
    + cbn [app] in Hs. rewrite Hs in H0. injection H0 as ->.
      destruct (Hfail (Some b) (world st) (or_introl eq_refl)) as [e He].
      unfold rpc at 1.
      destruct (trans_GetPredecessor (Some b) (world st)) as [[m0 err0] w1].
      cbn in He. subst err0. mrun.
      set (st1 := mkSt (vn st) w1 _).
      destruct (repair_walks c m pre post fuel 0 (knownSuccessors (vn st))
                  (Some b) m0 e st1) as [w' Hrun].
      * exact Hs.
      * intros q w Hq. apply Hfail. right. exact Hq.
      * exact Hans.
      * lia.
      * simpl length in Hknown. lia.
      * subst st1. cbn [vn]. lia.
      * subst st1. cbn [vn]. intros j Hj. apply Hnil. lia.
      * simpl length in Hfuel. lia.
      * exists w'. rewrite Hrun. subst st1. mrun.
        cbn [length map app]. rewrite <- !app_assoc. cbn [app].
        destruct m as [x|]; mrun; [rewrite Hm; mrun|]; reflexivity.
  - intros b l H0 Hl Hdead Hfing Hfuel.
    assert (Hk : 1 <= knownSuccessors (vn st)).
    { pose proof (knownSuccessors_range (vn st)).
      destruct (Z_le_gt_dec 1 (knownSuccessors (vn st))); [assumption|].
      unfold index in Hl.
      destruct (Z.ltb_spec (knownSuccessors (vn st) - 1) 0);
        [discriminate|lia]. }
    destruct (knownSuccessors_last (vn st) Hk) as [_ Hnil].
    unfold checkNewSuccessor, index_or_panic. mrun. rewrite H0. mrun.
    unfold rpc.
    destruct (Hdead (Some b) (world st)) as [e He].
    destruct (trans_GetPredecessor (Some b) (world st)) as [[m err] w].
    cbn in He. subst err. mrun.
    rewrite (repair_exhausts l (Z.to_nat (knownSuccessors (vn st) - 1)));
      cbn [vn successors finger self]; try assumption; try lia.
    + reflexivity.
    + rewrite Z2Nat.id by lia. exact Hl.
    + intros j Hj. apply Hnil. lia.
Qed.

(** C5 (as amended): vnode A has B as its only successor, in a list of
    capacity at least two, and B fails the predecessor query; C is the
    first finger entry that is non-nil, does not print as A and lies
    outside (A.Id, B.Id]; C answers the predecessor query with no vnode
    strictly between A and C.  Then checkNewSuccessor returns no error,
    with C in slot 0 of the successor list and every other slot nil: B
    has been dropped and slot 1 is empty. *)
Theorem checkNewSuccessor_promotes_finger (fuel : nat) (st : St W)
    (b c : addr) (k : nat) (pre post : list VnodePtr)
    (m0 m : VnodePtr) (e : error) (w1 w2 : W) :
  (2 <= fuel)%nat ->
  successors (vn st) = Some b :: replicate (S k) None ->
  trans_GetPredecessor (Some b) (world st) = ((m0, Some e), w1) ->
  finger (vn st) = pre ++ Some c :: post ->
  Forall (skipped (self (vn st)) b) pre ->
  ~ skipped (self (vn st)) b (Some c) ->
  trans_GetPredecessor (Some c) w1 = ((m, None), w2) ->
  match m with
  | Some x => between (Id (self (vn st))) (Id (heap c)) (Id (heap x)) = false
  | None => True
  end ->
  check fuel st =
  Done (None,
        mkSt (set_successors (Some c :: replicate (S k) None) (vn st)) w2
          (calls st ++ [CallGetPredecessor (Some b);
                        CallGetPredecessor (Some c)])).
Proof.
  intros Hfuel Hs Hgb Hf Hpre Hc Hgc Hm.
  destruct fuel as [|[|fuel]]; try lia.
  assert (Hknown : knownSuccessors (vn st) = 1).
  { rewrite knownSuccessors_strip, Hs. cbn [strip_trailing_nil].
    replace (strip_trailing_nil (replicate (S k) None)) with (@nil VnodePtr);
      [reflexivity|].
    clear. induction (S k) as [|n IH]; [reflexivity|].
    cbn [replicate strip_trailing_nil]. rewrite <- IH. reflexivity. }
  unfold checkNewSuccessor, index_or_panic. mrun. rewrite Hs.
  change (index (Some b :: replicate (S k) None) 0) with (Some (Some b)).
  mrun. rewrite (rpc_run _ _ _ _ _ Hgb). mrun.
  rewrite Hknown, repair_loop_S.
  change (negb (0 <? 1)) with false. change (0 =? 1 - 1) with true.
  cbn beta iota. mrun. rewrite Hf.
  rewrite (promote_first b c None (replicate k None) post pre None);
    cbn [vn successors self]; try assumption; try exact I.
  mrun. change (0 =? 1 + 1 - 1) with false. cbn beta iota. mrun.
  change (1 + 1 - 1 - 0) with 1.
  unfold store_or_panic. rewrite shift_store.
  2:{ simpl. lia. }
  2:{ intros j Hj. replace j with ((j - 1) + 1) by lia.
      rewrite index_cons by lia. replace (j - 1) with ((j - 2) + 1) by lia.
      rewrite index_cons by lia. unfold index, nil_or_absent.
      destruct (Z.ltb_spec (j - 2) 0) as [Hj0|Hj0]; [lia|].
      destruct (replicate k None !! Z.to_nat (j - 2)) as [p|] eqn:E;
        [|right; reflexivity].
      apply lookup_replicate in E. destruct E as [-> _]. left; reflexivity. }
  mrun.
  assert (Hl : (Some c :: replicate k None) ++ [None] =
               Some c :: replicate (S k) None).
  { cbn [app]. f_equal. symmetry. apply replicate_S_end. }
  rewrite Hl. unfold index_or_panic.
  change (index (Some c :: replicate (S k) None) 0) with (Some (Some c)).
  mrun. rewrite (rpc_at _ _ _ _ _ _ _ Hgc). mrun.
  rewrite repair_loop_S. change (negb (0 + 1 <? 1 + 1)) with false.
  cbn beta iota. mrun.
  destruct m as [x|]; mrun.
  - rewrite Hm. mrun. rewrite <- app_assoc. reflexivity.
  - rewrite <- app_assoc. reflexivity.
Qed.

End CheckNewSuccessorFacts.

Lemma checkNewSuccessor_probe_fails_witness :
  let T := table_transport (fun _ => (Some 15%nat, None))
             (fun _ => (false, Some unreachable))
             (fun _ => ([], None)) (fun _ _ _ => ([], Some unreachable)) in
  let st := mkSt (mkLocal vnodeA [Some 20; Some 30]%nat [] 0 None false) tt [] in
  @checkNewSuccessor unit T ring_heap ring_cfg spec_between
    spec_betweenRightIncl spec_powerOffset (fun _ _ => []) 1 st =
  Done (Some unreachable,
        mkSt (vn st) tt
          [CallGetPredecessor (Some 20%nat); CallPing (Some 15%nat);
           CallNotify (Some 20%nat)]).
Proof.
  intros T st.
  apply (@checkNewSuccessor_probe_fails unit T ring_heap ring_cfg spec_between
           spec_betweenRightIncl spec_powerOffset (fun _ _ => []) 1 st
           20%nat 15%nat tt tt tt false (Some unreachable) ([], None));
    solve [reflexivity | lia].
Defined.

(** C7 as stated fails in its last part: when the probe answers "not
    alive" without an error, the caller receives the nil error. *)
Lemma checkNewSuccessor_probe_not_alive_returns_nil :
  let T := table_transport (fun _ => (Some 15%nat, None))
             (fun _ => (false, None))
             (fun _ => ([], None)) (fun _ _ _ => ([], Some unreachable)) in
  let st := mkSt (mkLocal vnodeA [Some 20; Some 30]%nat [] 0 None false) tt [] in
  spec_between (Id vnodeA) (Id (ring_heap 20)) (Id (ring_heap 15)) = true /\
  @trans_Ping unit T (Some 15%nat) tt = ((false, None), tt) /\
  @checkNewSuccessor unit T ring_heap ring_cfg spec_between
    spec_betweenRightIncl spec_powerOffset (fun _ _ => []) 1 st =
  Done (None,
        mkSt (vn st) tt
          [CallGetPredecessor (Some 20%nat); CallPing (Some 15%nat);
           CallNotify (Some 20%nat)]).
Proof.
  intros T st. repeat split; vm_compute; reflexivity.
Qed.

Lemma checkNewSuccessor_exhausted_panics_witness :
  let dead := table_transport (fun _ => (None, Some unreachable))
                (fun _ => (false, Some unreachable))
                (fun _ => ([], Some unreachable))
                (fun _ _ _ => ([], Some unreachable)) in
  let third := table_transport
                 (fun p => match p with
                           | Some 40%nat => (Some 10%nat, None)
                           | _ => (None, Some unreachable)
                           end)
                 (fun _ => (false, Some unreachable))
                 (fun _ => ([], Some unreachable))
                 (fun _ _ _ => ([], Some unreachable)) in
  let f := [Some 20; Some 20; Some 20; Some 20; Some 30;
            None; None; None]%nat in
  let st := mkSt (mkLocal vnodeA [Some 20; Some 30]%nat f 0 None false)
              tt [] in
  let st3 := mkSt (mkLocal vnodeA [Some 20; Some 30; Some 40; None]%nat f 0
                     None false) tt [] in
  let st0 := mkSt (mkLocal vnodeA [None; None] f 0 None false) tt [] in
  @checkNewSuccessor unit dead ring_heap ring_cfg spec_between
    spec_betweenRightIncl spec_powerOffset (fun _ _ => []) 2 st =
  Panicked (ExplicitPanic "All known successors dead!") /\
  (exists w',
     @checkNewSuccessor unit third ring_heap (mkConfig 4 8) spec_between
       spec_betweenRightIncl spec_powerOffset (fun _ _ => []) 3 st3 =
     Done (None,
           mkSt (set_successors [Some 40%nat; None; None; None] (vn st3)) w'
             [CallGetPredecessor (Some 20%nat);
              CallGetPredecessor (Some 30%nat);
              CallGetPredecessor (Some 40%nat)])) /\
  @checkNewSuccessor unit dead ring_heap ring_cfg spec_between
    spec_betweenRightIncl spec_powerOffset (fun _ _ => []) 2 st0 =
  Done (Some "Node has no successor!"%string, st0).
Proof.
  intros dead third f st st3 st0. split; [|split].
  - apply (proj2 (proj2
      (@checkNewSuccessor_exhausted_panics unit dead ring_heap ring_cfg
         spec_between spec_betweenRightIncl spec_powerOffset (fun _ _ => [])
         2 st)) 20%nat 30%nat).
    + reflexivity.
    + reflexivity.
    + intros p w. exists unreachable. reflexivity.
    + repeat constructor; right; reflexivity.
    + vm_compute. discriminate.
  - apply (proj1 (proj2
      (@checkNewSuccessor_exhausted_panics unit third ring_heap
         (mkConfig 4 8) spec_between spec_betweenRightIncl spec_powerOffset
         (fun _ _ => []) 3 st3)) 20%nat 40%nat [Some 20; Some 30]%nat
         [None] (Some 10%nat)).
    + reflexivity.
    + reflexivity.
    + intros p w [<-|[<-|[]]]; exists unreachable; reflexivity.
    + intros w. reflexivity.
    + reflexivity.
    + simpl. lia.
  - apply (proj1
      (@checkNewSuccessor_exhausted_panics unit dead ring_heap ring_cfg
         spec_between spec_betweenRightIncl spec_powerOffset (fun _ _ => [])
         2 st0)).
    reflexivity.
Defined.

(** C1 as stated fails: vnode 10 with the single, dead successor 20 and
    an empty finger table does not return an error value; the call
    panics. *)
Lemma checkNewSuccessor_isolated_panics :
  let T := table_transport (fun _ => (None, Some unreachable))
             (fun _ => (false, Some unreachable))
             (fun _ => ([], Some unreachable))
             (fun _ _ _ => ([], Some unreachable)) in
  let st := mkSt (mkLocal vnodeA [Some 20%nat; None]
                    [None; None; None; None; None; None; None; None]
                    0 None false) tt [] in
  @checkNewSuccessor unit T ring_heap ring_cfg spec_between
    spec_betweenRightIncl spec_powerOffset (fun _ _ => []) 8 st =
  Panicked (ExplicitPanic "All known successors dead!") /\
  forall (e : option error) (st' : St unit),
    @checkNewSuccessor unit T ring_heap ring_cfg spec_between
      spec_betweenRightIncl spec_powerOffset (fun _ _ => []) 8 st <>
    Done (e, st').
Proof.
  intros T st. split; [vm_compute; reflexivity|].
  intros e st'. vm_compute. discriminate.
Qed.

Lemma checkNewSuccessor_promotes_finger_witness :
  let T := table_transport
             (fun p => match p with
                       | Some 30%nat => (None, None)
                       | _ => (None, Some unreachable)
                       end)
             (fun _ => (false, Some unreachable))
             (fun _ => ([], Some unreachable))
             (fun _ _ _ => ([], Some unreachable)) in
  let st := mkSt (mkLocal vnodeA [Some 20%nat; None]
                    [Some 20; Some 20; Some 20; Some 20; Some 30;
                     None; None; None]%nat 0 None false) tt [] in
  @checkNewSuccessor unit T ring_heap ring_cfg spec_between
    spec_betweenRightIncl spec_powerOffset (fun _ _ => []) 2 st =
  Done (None,
        mkSt (set_successors [Some 30%nat; None] (vn st)) tt
          [CallGetPredecessor (Some 20%nat); CallGetPredecessor (Some 30%nat)]).
Proof.
  intros T st.
  apply (@checkNewSuccessor_promotes_finger unit T ring_heap ring_cfg
           spec_between spec_betweenRightIncl spec_powerOffset (fun _ _ => [])
           2 st 20%nat 30%nat 0%nat
           [Some 20; Some 20; Some 20; Some 20]%nat [None; None; None]
           None None unreachable tt tt).
  - lia.
  - reflexivity.
  - reflexivity.
  - reflexivity.
  - repeat constructor; right; reflexivity.
  - intros [H|H]; vm_compute in H; discriminate.
  - reflexivity.
  - exact I.
Defined.

(** C5 as stated fails: in the scenario of the claim (A = 10, its only
    successor B = 20 is dead, C = 30 sits at finger index 4, outside
    (10, 20]), checkNewSuccessor returns with C in slot 0 of the
    successor list; slot 1 holds nil, not C. *)
Lemma checkNewSuccessor_promoted_lands_in_slot_0 :
  let T := table_transport
             (fun p => match p with
                       | Some 30%nat => (None, None)
                       | _ => (None, Some unreachable)
                       end)
             (fun p => match p with
                       | Some 30%nat => (true, None)
                       | _ => (false, Some unreachable)
                       end)
             (fun _ => ([], None))
             (fun _ _ _ => ([], Some unreachable)) in
  let st := mkSt (mkLocal vnodeA [Some 20%nat; None]
                    [Some 20; Some 20; Some 20; Some 20; Some 30;
                     None; None; None]%nat 0 None false) tt [] in
  let st' := mkSt (set_successors [Some 30%nat; None] (vn st)) tt
               [CallGetPredecessor (Some 20%nat);
                CallGetPredecessor (Some 30%nat)] in
  @checkNewSuccessor unit T ring_heap ring_cfg spec_between
    spec_betweenRightIncl spec_powerOffset (fun _ _ => []) 8 st =
  Done (None, st') /\
  index (successors (vn st')) 0 = Some (Some 30%nat) /\
  index (successors (vn st')) 1 = Some None /\
  index (successors (vn st')) 1 <> Some (Some 30%nat).
Proof.
  intros T st st'.
  split; [vm_compute; reflexivity|].
  split; [reflexivity|]. split; [reflexivity|discriminate].
Qed.


(** * Further properties of vnode.go *)

(** ** String and ToData *)

(** X1: two vnodes print the same hex string exactly when they have the
    same Id, so the comparisons through String() in vnode.go compare
    Ids. *)
Theorem Vnode_String_eq_iff_Id (a b : Vnode) :
  Vnode_String a = Vnode_String b <-> Id a = Id b.
Proof.
  unfold Vnode_String. split; [apply hex_encode_inj|intros ->; reflexivity].
Qed.

(** X2: ToData keeps everything of a vnode: two vnodes with the same
    transfer form are the same vnode, and the nil pointer is the only
    pointer whose transfer form is nil. *)
Theorem ToData_faithful (heap : addr -> Vnode) (p q : VnodePtr) :
  (ptr_ToData heap p = None <-> p = None) /\
  (ptr_ToData heap p = ptr_ToData heap q ->
   match p, q with
   | Some a, Some b => heap a = heap b
   | None, None => True
   | _, _ => False
   end).
Proof.
  split.
  - destruct p; simpl; split; congruence.
  - destruct p as [a|], q as [b|]; simpl; intros H; try discriminate;
      [|exact I].
    apply Vnode_ToData_inj. congruence.
Qed.

(** ** knownSuccessors *)

(** X3: knownSuccessors() lies between 0 and the length of the list,
    every slot from that index on is nil, and when it is positive the
    slot just before it is non-nil. *)
Theorem knownSuccessors_slots (v : localVnode) :
  0 <= knownSuccessors v <= Z.of_nat (length (successors v)) /\
  (forall j, knownSuccessors v <= j ->
     nil_or_absent (index (successors v) j)) /\
  (1 <= knownSuccessors v ->
   exists l, index (successors v) (knownSuccessors v - 1) = Some (Some l)).
Proof.
  split; [apply knownSuccessors_range|]. split.
  - intros j Hj. pose proof (knownSuccessors_range v) as R.
    destruct (Z_le_gt_dec 1 (knownSuccessors v)) as [H1|H0].
    + apply (knownSuccessors_last v H1). lia.
    + assert (E : knownSuccessors v = 0) by lia.
      rewrite knownSuccessors_strip in E.
      destruct (strip_decompose (successors v)) as [m Hs].
      destruct (strip_trailing_nil (successors v)); [|simpl in E; lia].
      simpl in Hs. rewrite Hs. unfold index, nil_or_absent.
      destruct (Z.ltb_spec j 0) as [?|?]; [right; reflexivity|].
      destruct (replicate m None !! Z.to_nat j) as [p|] eqn:Ep;
        [|right; reflexivity].
      apply lookup_replicate in Ep. destruct Ep as [-> _]. left; reflexivity.
  - intros H1. apply (knownSuccessors_last v H1).
Qed.

Lemma knownSuccessors_slots_witness :
  exists l,
    index (successors (mkLocal vnodeA [Some 20; None; Some 30; None]%nat []
                         0 None false))
      (knownSuccessors (mkLocal vnodeA [Some 20; None; Some 30; None]%nat []
                          0 None false) - 1) = Some (Some l).
Proof.
  apply (proj2 (proj2 (knownSuccessors_slots
           (mkLocal vnodeA [Some 20; None; Some 30; None]%nat [] 0 None
              false)))).
  vm_compute. discriminate.
Defined.

Lemma ToData_faithful_witness :
  ring_heap 20 = ring_heap 20.
Proof.
  exact (proj2 (ToData_faithful ring_heap (Some 20%nat) (Some 20%nat)) eq_refl).
Defined.

(** ** shouldConnectToHost, GetNeighbors, ShouldAddrInNeighbors *)

Lemma CompareId_eq (a b : list byte) : CompareId a b = Eq <-> a = b.
Proof.
  revert b. induction a as [|x a IH]; intros [|y b]; simpl;
    try (split; congruence).
  destruct (Z.compare_spec (byte_to_Z x) (byte_to_Z y)) as [E|L|L].
  - assert (x = y).
    { unfold byte_to_Z in E. apply N2Z.inj in E.
      apply (f_equal Byte.of_N) in E. rewrite !Byte.of_to_N in E. congruence. }
    subst y. rewrite IH. split; congruence.
  - split; [discriminate|]. intros H. injection H as -> _. lia.
  - split; [discriminate|]. intros H. injection H as -> _. lia.
Qed.

Lemma NoDup_map_Some {A} (l : list A) : List.NoDup l -> List.NoDup (map Some l).
Proof.
  induction 1 as [|x l Hx Hl IH]; simpl; constructor; [|exact IH].
  intros Hin. apply in_map_iff in Hin. destruct Hin as (y & Hy & Hin).
  injection Hy as ->. contradiction.
Qed.

Lemma CompareId_int_eq (a b : list byte) : CompareId_int a b = 0 <-> a = b.
Proof.
  rewrite <- CompareId_eq. unfold CompareId_int.
  destruct (CompareId a b); split; congruence.
Qed.

Section NeighborFacts.
Variable heap : addr -> Vnode.
Variable compareId : list byte -> list byte -> Z.

Lemma on_host_exists (host : string) (l : list VnodePtr) :
  existsb (on_host heap host) l = true <->
  exists a, In (Some a) l /\ Host (heap a) = host.
Proof.
  rewrite existsb_exists. split.
  - intros ([a|] & Hin & H); [|discriminate].
    exists a. split; [exact Hin|]. apply String.eqb_eq, H.
  - intros (a & Hin & H). exists (Some a). split; [exact Hin|].
    apply String.eqb_eq, H.
Qed.

(** X4: shouldConnectToHost(host) answers true exactly when some
    non-nil entry of the successor list, the predecessor or the finger
    table sits on that host. *)
Theorem shouldConnectToHost_iff (v : localVnode) (host : string) :
  shouldConnectToHost heap v host = true <->
  exists a, In (Some a) (allNeighbors v) /\ Host (heap a) = host.
Proof.
  unfold shouldConnectToHost, allNeighbors.
  destruct (existsb (on_host heap host) (successors v)) eqn:Es.
  { split; [intros _|reflexivity]. apply on_host_exists in Es.
    destruct Es as (a & Hin & H). exists a. split; [|exact H].
    apply in_or_app. left. apply in_or_app. right. exact Hin. }
  destruct (on_host heap host (predecessor v)) eqn:Ep.
  { split; [intros _|reflexivity].
    destruct (predecessor v) as [a|] eqn:E; [|discriminate].
    exists a. split; [|apply String.eqb_eq, Ep].
    apply in_or_app. right. left. reflexivity. }
  rewrite on_host_exists. split.
  - intros (a & Hin & H). exists a. split; [|exact H].
    apply in_or_app. left. apply in_or_app. left. exact Hin.
  - intros (a & Hin & H). exists a. split; [|exact H].
    apply in_app_or in Hin. destruct Hin as [Hin|[Hin|[]]].
    + apply in_app_or in Hin. destruct Hin as [Hin|Hin]; [exact Hin|].
      assert (existsb (on_host heap host) (successors v) = true)
        by (apply on_host_exists; eauto). congruence.
    + rewrite Hin in Ep. simpl in Ep.
      apply String.eqb_eq in H. congruence.
Qed.

Local Abbreviation foreign := (foreign heap).

Lemma collect_neighbors_spec (own : string) (l : list VnodePtr) :
  forall (seen : list addr) (acc : list VnodePtr),
    acc = map Some (rev seen) ->
    List.NoDup seen ->
    Forall (foreign own) acc ->
    List.NoDup (collect_neighbors heap own l seen acc) /\
    Forall (foreign own) (collect_neighbors heap own l seen acc) /\
    (forall n, In n (collect_neighbors heap own l seen acc) <->
               In n acc \/ (In n l /\ foreign own n)) /\
    exists rest, collect_neighbors heap own l seen acc = acc ++ rest.
Proof.
  induction l as [|n l IH]; intros seen acc Hacc Hnd Hf; cbn [collect_neighbors].
  - split.
    { subst acc. apply NoDup_map_Some, List.NoDup_rev, Hnd. }
    split; [exact Hf|]. split; [|exists []; symmetry; apply app_nil_r].
    intros n. split; [auto|]. intros [H|[[] _]]. exact H.
  - assert (Hskip : ~ foreign own n \/ In n acc ->
              List.NoDup (collect_neighbors heap own l seen acc) /\
              Forall (foreign own) (collect_neighbors heap own l seen acc) /\
              (forall m, In m (collect_neighbors heap own l seen acc) <->
                         In m acc \/ (In m (n :: l) /\ foreign own m)) /\
              exists rest, collect_neighbors heap own l seen acc = acc ++ rest).
    { intros Hn. destruct (IH seen acc Hacc Hnd Hf) as (H1 & H2 & H3 & H4).
      split; [exact H1|]. split; [exact H2|]. split; [|exact H4].
      intros m. rewrite H3. split.
      - intros [H|[H H']]; [left; exact H|right; split; [right; exact H|exact H']].
      - intros [H|[[H|H] H']]; [left; exact H| |right; split; assumption].
        subst m. destruct Hn as [Hn|Hn]; [contradiction|left; exact Hn]. }
    destruct n as [a|].
    2:{ apply Hskip. left. intros (a & Ha & _). discriminate. }
    destruct (String.eqb_spec (Host (heap a)) own) as [Eh|Eh].
    { apply Hskip. left. intros (b & Hb & Hne). injection Hb as <-.
      contradiction. }
    destruct (existsb (Nat.eqb a) seen) eqn:Eseen.
    { apply Hskip. right. apply existsb_exists in Eseen.
      destruct Eseen as (b & Hin & Hb). apply Nat.eqb_eq in Hb. subst b.
      subst acc. apply in_map, in_rev. rewrite rev_involutive. exact Hin. }
    assert (Hnot : ~ In a seen).
    { intros Hin. assert (existsb (Nat.eqb a) seen = true).
      { apply existsb_exists. exists a. split; [exact Hin|apply Nat.eqb_refl]. }
      congruence. }
    destruct (IH (a :: seen) (acc ++ [Some a])) as (H1 & H2 & H3 & H4).
    { subst acc. cbn [rev]. rewrite map_app. reflexivity. }
    { constructor; assumption. }
    { apply Forall_app. split; [exact Hf|]. constructor; [|constructor].
      exists a. split; [reflexivity|exact Eh]. }
    split; [exact H1|]. split; [exact H2|]. split.
    + intros m. rewrite H3, in_app_iff. split.
      * intros [[H|[H|[]]]|[H H']].
        -- left; exact H.
        -- right. split; [left; exact H|]. subst m. exists a. auto.
        -- right. split; [right; exact H|exact H'].
      * intros [H|[[H|H] H']].
        -- left; left; exact H.
        -- left; right; left; exact H.
        -- right; split; assumption.
    + destruct H4 as [rest Hrest]. exists (Some a :: rest).
      rewrite Hrest, <- app_assoc. reflexivity.
Qed.

Lemma GetNeighbors_spec (v : localVnode) :
  List.NoDup (GetNeighbors heap v) /\
  forall n, In n (GetNeighbors heap v) <->
            In n (allNeighbors v) /\ foreign (Host (self v)) n.
Proof.
  unfold GetNeighbors.
  destruct (collect_neighbors_spec (Host (self v)) (allNeighbors v) [] [])
    as (H1 & _ & H3 & _); [reflexivity|constructor|constructor|].
  split; [exact H1|]. intros n. rewrite H3. split.
  - intros [[]|H]. exact H.
  - intros H. right. exact H.
Qed.

(** X5: GetNeighbors() holds no pointer twice, and holds exactly the
    non-nil entries of the finger table, the successor list and the
    predecessor that sit on another host than this vnode. *)
Theorem GetNeighbors_distinct_foreign (v : localVnode) :
  List.NoDup (GetNeighbors heap v) /\
  forall n, In n (GetNeighbors heap v) <->
            In n (allNeighbors v) /\ foreign (Host (self v)) n.
Proof. apply GetNeighbors_spec. Qed.

(** X6: when CompareId returns 0 exactly on equal Ids,
    ShouldAddrInNeighbors(addr) answers true exactly when one of the
    vnodes GetNeighbors() returns has the Id addr. *)
Theorem ShouldAddrInNeighbors_iff_GetNeighbors (v : localVnode)
    (a : list byte) :
  (forall x y, compareId x y = 0 <-> x = y) ->
  (ShouldAddrInNeighbors heap compareId v a = true <->
   exists x, In (Some x) (GetNeighbors heap v) /\ Id (heap x) = a).
Proof.
  intros Hcmp. unfold ShouldAddrInNeighbors. rewrite existsb_exists. split.
  - intros ([x|] & Hin & H); [|discriminate]. exists x.
    destruct (String.eqb_spec (Host (heap x)) (Host (self v))) as [E|E];
      [discriminate|].
    split.
    + apply GetNeighbors_spec. split; [exact Hin|].
      exists x. split; [reflexivity|exact E].
    + apply Hcmp, Z.eqb_eq, H.
  - intros (x & Hin & H). exists (Some x).
    apply GetNeighbors_spec in Hin.
    destruct Hin as (Hin & y & Hy & Hne). injection Hy as <-.
    split; [exact Hin|].
    destruct (String.eqb_spec (Host (heap x)) (Host (self v))) as [E|E];
      [contradiction|].
    apply Z.eqb_eq, Hcmp, H.
Qed.

End NeighborFacts.

(** ** toData *)

Section SnapshotMore.
Variable heap : addr -> Vnode.

Lemma length_boundary_slots (fs : list VnodePtr) :
  forall x, length (boundary_slots heap x fs) = length fs.
Proof. induction fs as [|n fs IH]; intros x; simpl; auto. Qed.

Lemma toData_done (v : localVnode) (x : VnodePtr) (fs : list VnodePtr) :
  finger v = x :: fs ->
  toData heap v =
  Done (mkLocalData (Vnode_ToData (self v))
          (map (ptr_ToData heap) (successors v))
          (boundary_slots heap x fs ++ [ptr_ToData heap (List.last fs x)])
          (ptr_ToData heap (predecessor v)) (last_finger v)).
Proof.
  intros Hf. unfold toData. rewrite Hf.
  change (index (x :: fs) 0) with (Some x). cbn beta iota.
  cbn [encode_runs length replicate]. rewrite ptr_eqb_refl. cbn [negb].
  pose proof (encode_runs_boundary heap fs [] x) as H. cbn [app length] in H.
  change (Z.of_nat 0 + 1) with (0 + 1) in H. rewrite H.
  pose proof (length_boundary_slots fs x) as L.
  rewrite store_some by (rewrite length_app; simpl; lia).
  replace (Z.to_nat (Z.of_nat (S (length fs)) - 1))
    with (length (boundary_slots heap x fs)) by lia.
  rewrite insert_splice. reflexivity.
Qed.

(** X7: toData panics on a vnode with an empty finger table; on any
    other vnode it returns a snapshot that carries the identity, every
    successor and the predecessor in transfer form (nil for nil), the
    refresh cursor, and a finger table of the same length. *)
Theorem toData_snapshot (v : localVnode) :
  (finger v = [] -> toData heap v = Panicked IndexOutOfRange) /\
  (finger v <> [] ->
   exists d,
     toData heap v = Done d /\
     DataVnode d = Vnode_ToData (self v) /\
     DataSuccessors d = map (ptr_ToData heap) (successors v) /\
     DataPredecessor d = ptr_ToData heap (predecessor v) /\
     DataLastFinger d = last_finger v /\
     length (DataFinger d) = length (finger v)).
Proof.
  split.
  - intros Hf. unfold toData. rewrite Hf. reflexivity.
  - intros Hne. destruct (finger v) as [|x fs] eqn:Hf; [congruence|].
    eexists. split; [apply (toData_done v x fs Hf)|].
    cbn. repeat split. rewrite length_app, length_boundary_slots. simpl. lia.
Qed.

Lemma index_boundary_slots (fs : list VnodePtr) :
  forall (x : VnodePtr) (t : option VnodeData) (j : Z) (p q : VnodePtr),
    index (x :: fs) j = Some p ->
    index (x :: fs) (j + 1) = Some q ->
    index (boundary_slots heap x fs ++ [t]) j =
    Some (if ptr_eqb q p then None else ptr_ToData heap p).
Proof.
  induction fs as [|n fs IH]; intros x t j p q Hp Hq.
  - unfold index in Hp, Hq.
    destruct (Z.ltb_spec j 0) as [?|?]; [discriminate|].
    destruct (Z.ltb_spec (j + 1) 0) as [?|?]; [discriminate|].
    apply lookup_lt_Some in Hq. simpl in Hq. lia.
  - assert (Hj : 0 <= j).
    { unfold index in Hp. destruct (Z.ltb_spec j 0); [discriminate|lia]. }
    destruct (Z.eq_dec j 0) as [->|Hne].
    + cbv in Hp. injection Hp as <-. cbv in Hq. injection Hq as <-.
      reflexivity.
    + replace j with ((j - 1) + 1) in Hp, Hq |- * by lia.
      rewrite index_cons in Hp by lia.
      rewrite (index_cons x) in Hq by lia.
      cbn [boundary_slots app]. rewrite index_cons by lia.
      apply IH; assumption.
Qed.

(** X8: in the finger table of a snapshot, a slot before the last one
    is filled exactly at a run boundary: it holds the transfer form of
    its entry when the next entry is another pointer, and is empty when
    the next entry is the same pointer; the last slot always holds the
    transfer form of the last entry. *)
Theorem toData_finger_slots (v : localVnode) (d : localVnodeData) :
  toData heap v = Done d ->
  (forall j p q,
     index (finger v) j = Some p ->
     index (finger v) (j + 1) = Some q ->
     index (DataFinger d) j =
     Some (if ptr_eqb q p then None else ptr_ToData heap p)) /\
  (forall p,
     index (finger v) (Z.of_nat (length (finger v)) - 1) = Some p ->
     index (DataFinger d) (Z.of_nat (length (finger v)) - 1) =
     Some (ptr_ToData heap p)).
Proof.
  intros Hd. destruct (finger v) as [|x fs] eqn:Hf.
  { unfold toData in Hd. rewrite Hf in Hd. discriminate. }
  rewrite (toData_done v x fs Hf) in Hd. injection Hd as <-. cbn [DataFinger].
  split.
  - intros j p q Hp Hq. apply index_boundary_slots; assumption.
  - intros p Hp. unfold index in Hp |- *.
    destruct (Z.ltb_spec (Z.of_nat (length (x :: fs)) - 1) 0) as [?|?];
      [discriminate|].
    replace (Z.to_nat (Z.of_nat (length (x :: fs)) - 1)) with (length fs)
      in Hp |- * by (simpl; lia).
    rewrite <- (length_boundary_slots fs x) at 1.
    rewrite list_lookup_middle by reflexivity. f_equal. f_equal.
    clear -Hp. revert x Hp. induction fs as [|n fs IH]; intros x Hp.
    + injection Hp as ->. reflexivity.
    + rewrite last_cons_default. apply IH. exact Hp.
Qed.

End SnapshotMore.

Lemma toData_snapshot_witness :
  exists d,
    toData ring_heap (mkLocal vnodeA [Some 20%nat; None]
                        [Some 20; Some 30]%nat 1 (Some 5%nat) false) = Done d /\
    DataVnode d = Vnode_ToData vnodeA /\
    DataSuccessors d = [Some (Vnode_ToData (ring_heap 20)); None] /\
    DataPredecessor d = Some (Vnode_ToData (ring_heap 5)) /\
    DataLastFinger d = 1 /\
    length (DataFinger d) = 2%nat.
Proof.
  apply (proj2 (toData_snapshot ring_heap
                  (mkLocal vnodeA [Some 20%nat; None] [Some 20; Some 30]%nat 1
                     (Some 5%nat) false))).
  discriminate.
Defined.

Lemma toData_finger_slots_witness :
  index [None; Some (Vnode_ToData (ring_heap 20));
         Some (Vnode_ToData (ring_heap 30))] 0 = Some None.
Proof.
  exact (proj1 (toData_finger_slots ring_heap
                  (mkLocal vnodeA [Some 20%nat]
                     [Some 20; Some 20; Some 30]%nat 0 None false)
                  _ eq_refl) 0 (Some 20%nat) (Some 20%nat) eq_refl eq_refl).
Defined.

(** ** Running the handlers *)

Lemma put_predecessor_run {W} (p : VnodePtr) (st : St W) :
  put_predecessor p st =
  Done (tt, mkSt (set_predecessor p (vn st)) (world st) (calls st)).
Proof. reflexivity. Qed.

Lemma put_last_finger_run {W} (i : Z) (st : St W) :
  put_last_finger i st =
  Done (tt, mkSt (set_last_finger i (vn st)) (world st) (calls st)).
Proof. reflexivity. Qed.

Ltac hrun :=
  repeat (progress
    (rewrite ?bind_run, ?ret_run, ?throw_run, ?get_vn_run,
       ?put_successors_run, ?put_finger_run, ?emit_run, ?deref_some_run,
       ?deref_nil_run, ?put_predecessor_run, ?put_last_finger_run;
     cbn beta iota delta [vn world calls successors finger self predecessor
                          last_finger OnNewSuccessor set_successors
                          set_finger set_predecessor set_last_finger])).

Ltac hrun_in H :=
  repeat (progress
    (rewrite ?bind_run, ?ret_run, ?throw_run, ?get_vn_run,
       ?put_successors_run, ?put_finger_run, ?emit_run, ?deref_some_run,
       ?deref_nil_run, ?put_predecessor_run, ?put_last_finger_run in H;
     cbn beta iota delta [vn world calls successors finger self predecessor
                          last_finger OnNewSuccessor set_successors
                          set_finger set_predecessor set_last_finger] in H)).

Lemma set_finger_same (v : localVnode) : set_finger (finger v) v = v.
Proof. destruct v; reflexivity. Qed.

Lemma store_length {A} (s s' : list A) (i : Z) (x : A) :
  store s i x = Some s' -> length s' = length s /\ 0 <= i < Z.of_nat (length s).
Proof.
  unfold store.
  destruct (Z.leb_spec 0 i) as [?|?],
    (Z.ltb_spec i (Z.of_nat (length s))) as [?|?];
    cbn [andb]; intros Hs; try discriminate.
  injection Hs as <-. rewrite length_insert. split; [reflexivity|lia].
Qed.

(** ** fixFingerTableAtIndex and fixFingerTable: what they leave alone *)

Section FingerFrame.
Context {W : Type} {T : Transport W}.
Variable heap : addr -> Vnode.
Variable cfg : Config.
Variable betweenRightIncl : list byte -> list byte -> list byte -> bool.
Variable powerOffset : list byte -> Z -> Z -> list byte.
Variable closestPreceeding : localVnode -> list byte -> list addr.

Lemma finger_only_refl (v : localVnode) : finger_only v v.
Proof. exists (finger v). split; [symmetry; apply set_finger_same|reflexivity]. Qed.

Lemma finger_only_trans (u v w : localVnode) :
  finger_only u v -> finger_only v w -> finger_only u w.
Proof.
  intros (f & -> & Hf) (g & -> & Hg). exists g. split; [reflexivity|].
  cbn in Hg. congruence.
Qed.

Lemma extend_finger_frame (node : VnodePtr) (fuel : nat) :
  forall (idx last : Z) (st st' : St W),
    extend_finger heap cfg betweenRightIncl powerOffset fuel idx node st =
    Done (last, st') ->
    finger_only (vn st) (vn st') /\
    idx <= last /\ (idx < hashBits cfg -> last < hashBits cfg).
Proof.
  induction fuel as [|fuel IH]; intros idx last st st' H; [discriminate|].
  cbn [extend_finger] in H.
  destruct (Z.leb_spec (hashBits cfg) (idx + 1)) as [Hend|Hmore].
  - hrun_in H. injection H as <- <-.
    split; [apply finger_only_refl|]. lia.
  - hrun_in H. destruct node as [a|]; hrun_in H; [|discriminate].
    destruct (betweenRightIncl _ _ _).
    + unfold store_or_panic in H.
      destruct (store (finger (vn st)) (idx + 1) (Some a)) as [f|] eqn:Ef;
        hrun_in H; [|discriminate].
      apply store_length in Ef. destruct Ef as [Ef _].
      apply IH in H. cbn [vn] in H. destruct H as (Hfo & Hle & Hlt).
      split; [|lia].
      eapply finger_only_trans; [|exact Hfo]. exists f. auto.
    + injection H as <- <-. split; [apply finger_only_refl|]. lia.
Qed.

Lemma probe_candidate_frame (idx : Z) (node node' : VnodePtr) (st st' : St W) :
  probe_candidate heap idx node st = Done (node', st') -> vn st' = vn st.
Proof.
  unfold probe_candidate, index_or_panic. intros H. hrun_in H.
  destruct (index (finger (vn st)) idx) as [[o|]|]; hrun_in H;
    try discriminate.
  - destruct node as [a|]; hrun_in H; [|discriminate].
    destruct (negb (same_String (heap o) (heap a))).
    + hrun_in H. unfold rpc in H.
      destruct (trans_Ping (Some a) (world st)) as [[alive err] w].
      cbn beta iota in H. destruct (is_err err || negb alive);
        hrun_in H; injection H as <- <-; reflexivity.
    + hrun_in H. injection H as <- <-. reflexivity.
  - injection H as <- <-. reflexivity.
Qed.

Lemma adopt_finger_frame (idx next : Z) (node : VnodePtr) (e : option error)
    (st st' : St W) :
  adopt_finger heap cfg betweenRightIncl powerOffset idx node st =
  Done ((next, e), st') ->
  e = None /\ finger_only (vn st) (vn st') /\
  (idx < hashBits cfg -> 0 <= next < hashBits cfg).
Proof.
  unfold adopt_finger, store_or_panic. intros H. hrun_in H.
  destruct (store (finger (vn st)) idx node) as [f|] eqn:Ef; hrun_in H;
    [|discriminate].
  apply store_length in Ef. destruct Ef as [Ef Hidx].
  destruct (extend_finger heap cfg betweenRightIncl powerOffset
              (S (Z.to_nat (hashBits cfg - idx))) idx node
              (mkSt (set_finger f (vn st)) (world st) (calls st)))
    as [[last st1]| |] eqn:Ex; try discriminate.
  hrun_in H. injection H as <- <- <-.
  apply extend_finger_frame in Ex. cbn [vn] in Ex.
  destruct Ex as (Hfo & Hle & Hlt).
  split; [reflexivity|]. split.
  - eapply finger_only_trans; [|exact Hfo]. exists f. auto.
  - intros Hhb. specialize (Hlt Hhb).
    destruct (Z.eqb_spec (last + 1) (hashBits cfg)); lia.
Qed.

Lemma fixFingerTableAtIndex_frame (idx next : Z) (e : option error)
    (st st' : St W) :
  fixFingerTableAtIndex heap cfg betweenRightIncl powerOffset
    closestPreceeding idx st = Done ((next, e), st') ->
  finger_only (vn st) (vn st') /\
  (e = None -> 0 <= idx < hashBits cfg -> 0 <= next < hashBits cfg).
Proof.
  unfold fixFingerTableAtIndex. intros H. hrun_in H.
  destruct (FindSuccessors heap betweenRightIncl closestPreceeding 1
              (powerOffset (Id (self (vn st))) idx (hashBits cfg)) st)
    as [[[nodes err] st1]| |] eqn:Ef; try discriminate.
  apply FindSuccessors_vn in Ef. cbn beta iota in H.
  assert (Hearly : Done ((idx, err), st1) = Done ((next, e), st') ->
            finger_only (vn st) (vn st') /\
            (e = None -> 0 <= idx < hashBits cfg -> 0 <= next < hashBits cfg)).
  { intros H'. injection H' as <- <- <-. rewrite Ef.
    split; [apply finger_only_refl|]. intros; lia. }
  destruct nodes as [|node nodes]; [hrun_in H; auto|].
  destruct err as [err|]; [hrun_in H; auto|].
  hrun_in H.
  destruct (probe_candidate heap idx node st1) as [[node' st2]| |] eqn:Ep;
    try discriminate.
  apply probe_candidate_frame in Ep. cbn beta iota in H.
  apply adopt_finger_frame in H. destruct H as (-> & Hfo & Hnext).
  rewrite Ep, Ef in Hfo. split; [exact Hfo|]. intros _ Hidx. apply Hnext. lia.
Qed.

(** X9: whenever fixFingerTableAtIndex(idx) returns, only the finger
    table may have changed, and it has kept its length: identity,
    successor list, predecessor and cursor are untouched.  When it
    returns no error for an index below hashBits, the index it returns
    is again between 0 and hashBits - 1. *)
Theorem fixFingerTableAtIndex_touches_finger_only (idx next : Z)
    (e : option error) (st st' : St W) :
  fixFingerTableAtIndex heap cfg betweenRightIncl powerOffset
    closestPreceeding idx st = Done ((next, e), st') ->
  self (vn st') = self (vn st) /\
  successors (vn st') = successors (vn st) /\
  predecessor (vn st') = predecessor (vn st) /\
  last_finger (vn st') = last_finger (vn st) /\
  length (finger (vn st')) = length (finger (vn st)) /\
  (e = None -> 0 <= idx < hashBits cfg -> 0 <= next < hashBits cfg).
Proof.
  intros H. apply fixFingerTableAtIndex_frame in H.
  destruct H as ((f & -> & Hf) & Hnext). cbn. auto 10.
Qed.

Lemma fixFingerTable_frame (e : option error) (st st' : St W) :
  fixFingerTable heap cfg betweenRightIncl powerOffset closestPreceeding st =
  Done (e, st') ->
  (0 <= last_finger (vn st) < hashBits cfg ->
   0 <= last_finger (vn st') < hashBits cfg) /\
  (e <> None -> last_finger (vn st') = last_finger (vn st)) /\
  self (vn st') = self (vn st) /\
  successors (vn st') = successors (vn st) /\
  predecessor (vn st') = predecessor (vn st) /\
  length (finger (vn st')) = length (finger (vn st)).
Proof.
  unfold fixFingerTable. intros H. hrun_in H.
  destruct (fixFingerTableAtIndex heap cfg betweenRightIncl powerOffset
              closestPreceeding (last_finger (vn st)) st)
    as [[[next err] st1]| |] eqn:Ef; try discriminate.
  apply fixFingerTableAtIndex_frame in Ef.
  destruct Ef as ((f & Hv & Hf) & Hnext). cbn beta iota in H.
  destruct err as [err|]; hrun_in H; injection H as <- <-; cbn [vn];
    rewrite Hv; cbn.
  - split; [auto|]. auto.
  - split; [intros Hcur; apply Hnext; auto|]. split; [congruence|]. auto.
Qed.

(** X10: fixFingerTable keeps the refresh cursor inside the table: when
    it returns and the cursor was between 0 and hashBits - 1, it still
    is; on an error the cursor has not moved.  It never touches the
    identity, the successor list or the predecessor, and the finger table
    keeps its length. *)
Theorem fixFingerTable_cursor (e : option error) (st st' : St W) :
  fixFingerTable heap cfg betweenRightIncl powerOffset closestPreceeding st =
  Done (e, st') ->
  (0 <= last_finger (vn st) < hashBits cfg ->
   0 <= last_finger (vn st') < hashBits cfg) /\
  (e <> None -> last_finger (vn st') = last_finger (vn st)) /\
  self (vn st') = self (vn st) /\
  successors (vn st') = successors (vn st) /\
  predecessor (vn st') = predecessor (vn st) /\
  length (finger (vn st')) = length (finger (vn st)).
Proof. apply fixFingerTable_frame. Qed.

End FingerFrame.

(** ** Notify, checkPredecessor, ClearPredecessor, FindPredecessor *)

Section HandlerFacts.
Context {W : Type} {T : Transport W}.
Variable heap : addr -> Vnode.
Variable between : list byte -> list byte -> list byte -> bool.
Variable betweenRightIncl : list byte -> list byte -> list byte -> bool.
Variable closestPreceeding : localVnode -> list byte -> list addr.
Variable compareId : list byte -> list byte -> Z.

(** X11: whenever Notify returns, it returns no error and the current
    successor list; successor list, finger table, cursor and identity
    are unchanged; the predecessor is the old one, with nothing queued
    for the delegate, or the candidate, with the change (new, old) queued
    once.  It makes at most one transport call, a Ping of the old
    predecessor. *)
Theorem Notify_answer (maybe_pred : VnodePtr) (st st' : St W)
    (answer : list VnodePtr) (e : option error)
    (queued : list DelegateCall) :
  Notify heap between compareId maybe_pred st =
  Done ((answer, e, queued), st') ->
  e = None /\ answer = successors (vn st) /\
  (vn st' = vn st /\ queued = [] \/
   vn st' = set_predecessor maybe_pred (vn st) /\
   queued = [DelegateNewPredecessor maybe_pred (predecessor (vn st))]) /\
  (calls st' = calls st \/
   calls st' = calls st ++ [CallPing (predecessor (vn st))]).
Proof.
  unfold Notify. intros H. hrun_in H.
  remember (predecessor (vn st)) as old eqn:Eold.
  assert (Hfin : forall (b : bool) (st1 : St W),
    vn st1 = vn st ->
    (calls st1 = calls st \/ calls st1 = calls st ++ [CallPing old]) ->
    (if b
     then get_vn ≫= (fun v => put_predecessor maybe_pred ≫= fun _ =>
            get_vn ≫= fun v0 =>
            mret (successors v0, None,
                  [DelegateNewPredecessor maybe_pred (predecessor v)]))
     else get_vn ≫= fun v => mret (successors v, None, [])) st1 =
    Done ((answer, e, queued), st') ->
    e = None /\ answer = successors (vn st) /\
    (vn st' = vn st /\ queued = [] \/
     vn st' = set_predecessor maybe_pred (vn st) /\
     queued = [DelegateNewPredecessor maybe_pred old]) /\
    (calls st' = calls st \/ calls st' = calls st ++ [CallPing old])).
  { intros b st1 Hv Hc Hrun. destruct b; hrun_in Hrun;
      injection Hrun as <- <- <- <-; cbn [vn calls]; rewrite Hv, <- ?Eold.
    - repeat split; auto.
    - repeat split; auto. }
  destruct old as [p|].
  2:{ hrun_in H. revert H. apply (Hfin true st); auto. }
  destruct maybe_pred as [c|]; hrun_in H; [|discriminate].
  destruct (between (Id (heap p)) (Id (self (vn st))) (Id (heap c))).
  { hrun_in H. revert H. apply (Hfin true st); auto. }
  destruct (compareId (Id (heap p)) (Id (heap c)) =? 0); cbn [negb] in H.
  - hrun_in H. revert H. apply (Hfin false st); auto.
  - hrun_in H. unfold rpc in H.
    destruct (trans_Ping (Some p) (world st)) as [[alive err] w].
    hrun_in H. revert H. apply Hfin; [reflexivity|]. right. reflexivity.
Qed.

(** X12: Notify keeps a predecessor that answers the liveness probe:
    when the candidate does not lie between the predecessor and this
    vnode, and the predecessor either compares equal to the candidate
    (CompareId is 0) or answers "alive" without error, the predecessor
    stays and nothing is queued for the delegate. *)
Theorem Notify_keeps_live_predecessor (p c : addr) (st : St W) (w : W) :
  predecessor (vn st) = Some p ->
  between (Id (heap p)) (Id (self (vn st))) (Id (heap c)) = false ->
  compareId (Id (heap p)) (Id (heap c)) = 0 \/
  trans_Ping (Some p) (world st) = ((true, None), w) ->
  exists st',
    Notify heap between compareId (Some c) st =
    Done ((successors (vn st), None, []), st') /\
    vn st' = vn st.
Proof.
  intros Hp Hb Hlive. unfold Notify. hrun. rewrite Hp. hrun. rewrite Hb.
  destruct (Z.eqb_spec (compareId (Id (heap p)) (Id (heap c))) 0) as [Ec|Ec];
    cbn [negb].
  - hrun. eexists. split; reflexivity.
  - destruct Hlive as [Heq|Hping]; [contradiction|].
    hrun. rewrite (rpc_run _ _ _ _ _ Hping). hrun.
    eexists. split; reflexivity.
Qed.

(** X13: Notify replaces a predecessor that fails the liveness probe:
    when the candidate does not compare equal to the known predecessor
    (CompareId is not 0) and the predecessor answers the probe with an
    error or "not alive", the candidate becomes the predecessor, the
    change (new, old) is queued for the delegate and the successor list
    is returned unchanged. *)
Theorem Notify_replaces_dead_predecessor (p c : addr) (st : St W)
    (alive : bool) (err : option error) (w : W) :
  predecessor (vn st) = Some p ->
  compareId (Id (heap p)) (Id (heap c)) <> 0 ->
  trans_Ping (Some p) (world st) = ((alive, err), w) ->
  is_err err || negb alive = true ->
  exists st',
    Notify heap between compareId (Some c) st =
    Done ((successors (vn st), None,
           [DelegateNewPredecessor (Some c) (Some p)]), st') /\
    vn st' = set_predecessor (Some c) (vn st).
Proof.
  intros Hp Hne Hping Hdead. unfold Notify. hrun. rewrite Hp. hrun.
  destruct (between (Id (heap p)) (Id (self (vn st))) (Id (heap c))).
  { hrun. rewrite Hp. eexists. split; reflexivity. }
  destruct (Z.eqb_spec (compareId (Id (heap p)) (Id (heap c))) 0) as [Ec|Ec];
    cbn [negb]; [contradiction|].
  hrun. rewrite (rpc_run _ _ _ _ _ Hping). hrun. rewrite Hdead. hrun.
  rewrite Hp. eexists. split; reflexivity.
Qed.

Lemma checkPredecessor_frame (e : option error)
    (st st' : St W) :
  checkPredecessor st = Done (e, st') ->
  (vn st' = set_predecessor None (vn st) \/ vn st' = vn st) /\
  (forall p, predecessor (vn st') = Some p ->
     e = None /\
     trans_Ping (Some p) (world st) = ((true, None), world st') /\
     calls st' = calls st ++ [CallPing (Some p)]).
Proof.
  unfold checkPredecessor. intros H. hrun_in H.
  destruct (predecessor (vn st)) as [q|] eqn:Ep.
  2:{ hrun_in H. injection H as <- <-. split; [right; reflexivity|].
      intros p Hp. congruence. }
  hrun_in H. unfold rpc in H.
  destruct (trans_Ping (Some q) (world st)) as [[alive err] w] eqn:Eping.
  hrun_in H. destruct err as [err|], alive; cbn [is_err orb negb] in H;
    hrun_in H; injection H as <- <-; cbn [vn world calls].
  - split; [left; reflexivity|]. intros p Hp. discriminate.
  - split; [left; reflexivity|]. intros p Hp. discriminate.
  - split; [right; reflexivity|]. intros p Hp.
    rewrite Ep in Hp. injection Hp as <-. auto.
  - split; [left; reflexivity|]. intros p Hp. discriminate.
Qed.

(** X14: checkPredecessor always returns; successor list, finger
    table, cursor and identity are unchanged, and the predecessor is
    either cleared or the one it was; a predecessor is still in place
    afterwards only if it answered the single probe "alive" without an
    error, and then no error is returned. *)
Theorem checkPredecessor_clears_unless_alive (st : St W) :
  exists e st',
    checkPredecessor st = Done (e, st') /\
    (vn st' = set_predecessor None (vn st) \/ vn st' = vn st) /\
    (forall p, predecessor (vn st') = Some p ->
       e = None /\
       trans_Ping (Some p) (world st) = ((true, None), world st') /\
       calls st' = calls st ++ [CallPing (Some p)]).
Proof.
  assert (Hrun : exists e st', checkPredecessor st = Done (e, st')).
  { unfold checkPredecessor. hrun.
    destruct (predecessor (vn st)) as [q|]; hrun; [|eauto].
    unfold rpc. destruct (trans_Ping (Some q) (world st)) as [[alive err] w].
    hrun. destruct (is_err err || negb alive); hrun; eauto. }
  destruct Hrun as (e & st' & Hrun). exists e, st'.
  split; [exact Hrun|]. apply (checkPredecessor_frame _ _ _ Hrun).
Qed.

(** X15: whenever ClearPredecessor(p) returns, it returns no error and
    has changed nothing but, possibly, the predecessor; it clears the
    predecessor exactly when the predecessor and p have the same Id, and
    then queues that predecessor for the delegate.  With no predecessor
    known it returns without looking at p. *)
Theorem ClearPredecessor_only_matching (p : VnodePtr) (e : option error)
    (queued : list DelegateCall) (st st' : St W) :
  ClearPredecessor heap p st = Done ((e, queued), st') ->
  e = None /\ world st' = world st /\ calls st' = calls st /\
  match predecessor (vn st) with
  | None => st' = st /\ queued = []
  | Some q =>
      exists x, p = Some x /\
        (Id (heap q) = Id (heap x) ->
         vn st' = set_predecessor None (vn st) /\
         queued = [DelegatePredecessorLeaving (Some q)]) /\
        (Id (heap q) <> Id (heap x) -> st' = st /\ queued = [])
  end.
Proof.
  unfold ClearPredecessor. intros H. hrun_in H.
  destruct (predecessor (vn st)) as [q|] eqn:Ep.
  2:{ hrun_in H. injection H as <- <- <-. auto. }
  destruct p as [x|]; hrun_in H; [|discriminate].
  destruct (same_String (heap q) (heap x)) eqn:Es.
  - hrun_in H. injection H as <- <- <-. cbn [world calls vn].
    repeat split. exists x. split; [reflexivity|]. split.
    + intros _. auto.
    + intros Hne. apply same_String_true in Es. contradiction.
  - hrun_in H. injection H as <- <- <-. repeat split.
    exists x. split; [reflexivity|]. split.
    + intros Heq. apply same_String_true in Heq. congruence.
    + intros _. auto.
Qed.

(** X16: FindPredecessor never answers with a nil vnode and no error:
    when it returns no error, the vnode it returns is non-nil and is the
    answer of GetPredecessor asked of the first vnode of the lookup; it
    never changes the local vnode. *)
Theorem FindPredecessor_never_nil (key : list byte) (pred : VnodePtr)
    (e : option error) (st st' : St W) :
  FindPredecessor heap betweenRightIncl closestPreceeding key st =
  Done ((pred, e), st') ->
  vn st' = vn st /\
  (e = None ->
   exists a first w,
     pred = Some a /\
     trans_GetPredecessor first w = ((Some a, None), world st')) /\
  (e <> None -> pred = None).
Proof.
  unfold FindPredecessor. intros H. hrun_in H.
  destruct (FindSuccessors heap betweenRightIncl closestPreceeding 1 key st)
    as [[[vnodes err] st1]| |] eqn:Ef; try discriminate.
  apply FindSuccessors_vn in Ef. cbn beta iota in H.
  destruct err as [err|].
  { hrun_in H. injection H as <- <- <-.
    split; [exact Ef|]. split; [discriminate|reflexivity]. }
  destruct vnodes as [|first vnodes].
  { hrun_in H. injection H as <- <- <-.
    split; [exact Ef|]. split; [discriminate|reflexivity]. }
  hrun_in H. unfold rpc in H.
  destruct (trans_GetPredecessor first (world st1)) as [[p err] w] eqn:Eg.
  cbn beta iota in H. destruct err as [err|].
  { hrun_in H. injection H as <- <- <-.
    split; [exact Ef|]. split; [discriminate|reflexivity]. }
  destruct p as [a|]; hrun_in H; injection H as <- <- <-; cbn [vn world].
  - split; [exact Ef|]. split; [|congruence].
    intros _. exists a, first, (world st1). auto.
  - split; [exact Ef|]. split; [discriminate|reflexivity].
Qed.

(** ** keepalive *)

Lemma ping_other_host_run (own : string) (n : VnodePtr) (st : St W) :
  exists w,
    ping_other_host heap own n st =
    Done (tt, mkSt (vn st) w
               (calls st ++
                match n with
                | Some a => if negb (String.eqb (Host (heap a)) own)
                            then [CallPing n] else []
                | None => []
                end)).
Proof.
  unfold ping_other_host. destruct n as [a|].
  - destruct (negb (String.eqb (Host (heap a)) own)).
    + hrun. unfold rpc.
      destruct (trans_Ping (Some a) (world st)) as [r w]. hrun.
      exists w. reflexivity.
    + hrun. exists (world st). rewrite app_nil_r.
      destruct st; reflexivity.
  - hrun. exists (world st). rewrite app_nil_r. destruct st; reflexivity.
Qed.

Local Abbreviation foreign := (foreign heap).

Lemma ping_other_host_pinged (own : string) (n : VnodePtr) (st : St W) :
  exists w pinged,
    ping_other_host heap own n st =
    Done (tt, mkSt (vn st) w (calls st ++ map CallPing pinged)) /\
    (forall m, In m pinged <-> m = n /\ foreign own m).
Proof.
  destruct (ping_other_host_run own n st) as [w Hrun]. exists w.
  destruct n as [a|].
  - destruct (String.eqb_spec (Host (heap a)) own) as [E|E]; cbn [negb] in Hrun.
    + exists []. split; [exact Hrun|]. intros m. split; [intros []|].
      intros (-> & b & Hb & Hne). injection Hb as <-. contradiction.
    + exists [Some a]. split; [exact Hrun|]. intros m. split.
      * intros [<-|[]]. split; [reflexivity|]. exists a. auto.
      * intros (-> & _). left; reflexivity.
  - exists []. split; [exact Hrun|]. intros m. split; [intros []|].
    intros (-> & b & Hb & _). discriminate.
Qed.

Lemma ping_each_pinged (own : string) (l : list VnodePtr) :
  forall st : St W,
    exists w pinged,
      ping_each heap own l st =
      Done (tt, mkSt (vn st) w (calls st ++ map CallPing pinged)) /\
      (forall m, In m pinged <-> In m l /\ foreign own m).
Proof.
  induction l as [|n l IH]; intros st; cbn [ping_each].
  - exists (world st), []. hrun. split.
    + rewrite app_nil_r. destruct st; reflexivity.
    + intros m. split; [intros []|intros [[] _]].
  - destruct (ping_other_host_pinged own n st) as (w1 & p1 & Hrun1 & H1).
    hrun. rewrite Hrun1. cbn beta iota.
    destruct (IH (mkSt (vn st) w1 (calls st ++ map CallPing p1)))
      as (w2 & p2 & Hrun2 & H2).
    exists w2, (p1 ++ p2). rewrite Hrun2. cbn [vn calls]. split.
    + rewrite map_app, app_assoc. reflexivity.
    + intros m. rewrite in_app_iff, H1, H2. cbn [In]. split.
      * intros [[-> Hf]|[Hin Hf]]; auto.
      * intros [[<-|Hin] Hf]; auto.
Qed.

Lemma ping_finger_pinged (own : string) (l : list VnodePtr) :
  forall (prev : option VnodePtr) (st : St W),
    exists w pinged,
      ping_finger heap own prev l st =
      Done (tt, mkSt (vn st) w (calls st ++ map CallPing pinged)) /\
      (forall m, In m pinged -> In m l /\ foreign own m) /\
      (forall m, In m l -> foreign own m -> In m pinged \/ prev = Some m).
Proof.
  induction l as [|n l IH]; intros prev st; cbn [ping_finger].
  - exists (world st), []. hrun. split.
    + rewrite app_nil_r. destruct st; reflexivity.
    + split; [intros m []|intros m []].
  - hrun.
    destruct (match prev with
              | Some q => ptr_eqb q n
              | None => false
              end) eqn:Edup.
    + hrun.
      destruct (IH (Some n) st) as (w2 & p2 & Hrun2 & H2 & H3).
      exists w2, p2. split; [exact Hrun2|]. split.
      * intros m Hm. destruct (H2 m Hm). auto with datatypes.
      * intros m [<-|Hin] Hf.
        -- right. destruct prev as [q|]; [|discriminate].
           apply ptr_eqb_eq in Edup. congruence.
        -- destruct (H3 m Hin Hf) as [H|H]; [left; exact H|].
           injection H as <-. right. destruct prev as [q|]; [|discriminate].
           apply ptr_eqb_eq in Edup. congruence.
    + destruct (ping_other_host_pinged own n st) as (w1 & p1 & Hrun1 & H1).
      rewrite Hrun1. cbn beta iota.
      destruct (IH (Some n) (mkSt (vn st) w1 (calls st ++ map CallPing p1)))
        as (w2 & p2 & Hrun2 & H2 & H3).
      exists w2, (p1 ++ p2). rewrite Hrun2. cbn [vn calls]. split.
      * rewrite map_app, app_assoc. reflexivity.
      * split.
        -- intros m Hm. apply in_app_iff in Hm. destruct Hm as [Hm|Hm].
           ++ apply H1 in Hm. destruct Hm as [-> Hf]. auto with datatypes.
           ++ destruct (H2 m Hm). auto with datatypes.
        -- intros m [<-|Hin] Hf.
           ++ left. apply in_app_iff. left. apply H1. auto.
           ++ destruct (H3 m Hin Hf) as [H|H].
              ** left. apply in_app_iff. right. exact H.
              ** injection H as <-. left. apply in_app_iff. left.
                 apply H1. auto.
Qed.

(** X17: one pass of keepalive leaves the vnode unchanged and sends only
    Pings; the vnodes it pings are exactly the non-nil entries of the
    successor list, the predecessor and the finger table that sit on
    another host: it never pings nil, or a vnode of its own host, and
    misses no other neighbour. *)
Theorem keepalive_pass_pings_foreign (st : St W) :
  exists w pinged,
    keepalive_pass heap st =
    Done (tt, mkSt (vn st) w (calls st ++ map CallPing pinged)) /\
    (forall m, In m pinged <->
               In m (allNeighbors (vn st)) /\
               foreign (Host (self (vn st))) m).
Proof.
  unfold keepalive_pass. hrun.
  destruct (ping_each_pinged (Host (self (vn st))) (successors (vn st)) st)
    as (w1 & p1 & Hrun1 & H1).
  rewrite Hrun1. hrun.
  destruct (ping_other_host_pinged (Host (self (vn st))) (predecessor (vn st))
              (mkSt (vn st) w1 (calls st ++ map CallPing p1)))
    as (w2 & p2 & Hrun2 & H2).
  rewrite Hrun2. hrun.
  destruct (ping_finger_pinged (Host (self (vn st))) (finger (vn st)) None
              (mkSt (vn st) w2
                 ((calls st ++ map CallPing p1) ++ map CallPing p2)))
    as (w3 & p3 & Hrun3 & H3 & H4).
  exists w3, (p1 ++ p2 ++ p3). rewrite Hrun3. cbn [vn calls]. split.
  - rewrite !map_app, <- !app_assoc. reflexivity.
  - intros m. unfold allNeighbors. rewrite !in_app_iff, H1, H2. cbn [In].
    split.
    + intros [[Hin Hf]|[[-> Hf]|Hin]]; auto.
      destruct (H3 m Hin). auto.
    + intros [[[Hin|Hin]|[<-|[]]] Hf]; auto.
      destruct (H4 m Hin Hf) as [H|H]; [auto|discriminate].
Qed.

End HandlerFacts.

(** ** SkipSuccessor, notifySuccessor and FindSuccessors, further *)

Section ListFacts.
Context {W : Type} {T : Transport W}.
Variable heap : addr -> Vnode.
Variable cfg : Config.
Variable betweenRightIncl : list byte -> list byte -> list byte -> bool.
Variable closestPreceeding : localVnode -> list byte -> list addr.

(** X18: SkipSuccessor(s), with a first successor and s both non-nil,
    returns no error; when the two have the same Id it tells the
    delegate, drops the first successor, moves the others one slot to the
    left and leaves nil in the last slot, keeping the length of the list;
    otherwise it changes nothing. *)
Theorem SkipSuccessor_effect (a b : addr) (st : St W) :
  index (successors (vn st)) 0 = Some (Some a) ->
  SkipSuccessor heap (Some b) st =
  Done (None,
        if same_String (heap a) (heap b)
        then mkSt (set_successors (drop 1 (successors (vn st)) ++ [None])
                     (vn st))
               (world st) (calls st ++ [CallSuccessorLeaving (Some a)])
        else st).
Proof.
  intros H0. unfold SkipSuccessor, index_or_panic. hrun. rewrite H0. hrun.
  destruct (same_String (heap a) (heap b)); hrun; [|reflexivity].
  destruct (successors (vn st)) as [|x u] eqn:Es; [discriminate|].
  assert (Hk : 1 <= knownSuccessors (vn st)).
  { rewrite knownSuccessors_strip, Es. cbv in H0. injection H0 as ->.
    cbn [strip_trailing_nil].
    destruct (strip_trailing_nil u); simpl length; lia. }
  destruct (knownSuccessors_last (vn st) Hk) as [_ Hnil].
  pose proof (knownSuccessors_range (vn st)) as R. rewrite Es in Hnil, R.
  unfold store_or_panic. rewrite shift_store.
  - hrun. reflexivity.
  - lia.
  - intros j Hj. apply Hnil. exact Hj.
Qed.

Lemma merge_successors_frame (l : list VnodePtr) :
  forall (idx : Z) (st st' : St W),
    0 <= idx ->
    merge_successors heap idx l st = Done (tt, st') ->
    exists s,
      st' = mkSt (set_successors s (vn st)) (world st) (calls st) /\
      length s = length (successors (vn st)) /\
      (forall j, index s j = index (successors (vn st)) j \/
                 (idx < j /\ exists a, index s j = Some (Some a) /\
                    same_String (heap a) (self (vn st)) = false)).
Proof.
  assert (Hsame : forall st : St W,
            st = mkSt (set_successors (successors (vn st)) (vn st))
                   (world st) (calls st)).
  { intros [[] ? ?]. reflexivity. }
  induction l as [|n l IH]; intros idx st st' Hidx H; cbn [merge_successors] in H.
  - hrun_in H. injection H as <-. exists (successors (vn st)). auto.
  - destruct n as [a|].
    2:{ hrun_in H. injection H as <-. exists (successors (vn st)). auto. }
    hrun_in H. destruct (same_String (heap a) (self (vn st))) eqn:Ea.
    { hrun_in H. injection H as <-. exists (successors (vn st)). auto. }
    unfold store_or_panic in H.
    destruct (store (successors (vn st)) (idx + 1) (Some a)) as [s1|] eqn:Es;
      hrun_in H; [|discriminate].
    pose proof (store_length _ _ _ _ Es) as [Hlen Hrange].
    unfold store in Es.
    destruct ((0 <=? idx + 1) &&
              (idx + 1 <? Z.of_nat (length (successors (vn st)))));
      [|discriminate].
    injection Es as <-.
    apply IH in H; [|lia]. cbn [vn world calls successors set_successors self] in H.
    destruct H as (s & -> & Hs & Hj). exists s.
    split; [reflexivity|]. split; [congruence|].
    intros j. destruct (Hj j) as [E|(Hlt & b & Hb & Hnb)].
    + rewrite index_insert in E by lia.
      destruct (Z.eqb_spec j (idx + 1)) as [Heq|Hne]; [|left; exact E].
      right. split; [lia|]. exists a. auto.
    + right. split; [lia|]. exists b. auto.
Qed.

Lemma notifySuccessor_frame (e : option error) (st st' : St W) :
  notifySuccessor heap cfg st = Done (e, st') ->
  exists s,
    vn st' = set_successors s (vn st) /\
    length s = length (successors (vn st)) /\
    index s 0 = index (successors (vn st)) 0 /\
    (forall j, index s j = index (successors (vn st)) j \/
               exists a, index s j = Some (Some a) /\
                 Id (heap a) <> Id (self (vn st))).
Proof.
  assert (Hsame : forall v : localVnode, v = set_successors (successors v) v).
  { intros []. reflexivity. }
  unfold notifySuccessor, index_or_panic. intros H. hrun_in H.
  destruct (index (successors (vn st)) 0) as [succ|] eqn:E0; hrun_in H;
    [|discriminate].
  unfold rpc in H.
  destruct (trans_Notify succ (self (vn st)) (world st)) as [[l err] w].
  hrun_in H. destruct err as [err|].
  { hrun_in H. injection H as <- <-. exists (successors (vn st)). cbn [vn].
    split; [apply Hsame|]. split; [reflexivity|]. split; [exact E0|].
    intros j. left. reflexivity. }
  destruct ((if Z.of_nat (length l) >? NumSuccessors cfg - 1
             then slice_to l (NumSuccessors cfg - 1) else mret l)
              (mkSt (vn st) w (calls st ++ [CallNotify succ])))
    as [[l' st1]| |] eqn:El; rewrite bind_run, El in H; cbn beta iota in H;
    try discriminate.
  assert (Hst1 : st1 = mkSt (vn st) w (calls st ++ [CallNotify succ])).
  { destruct (Z.of_nat (length l) >? NumSuccessors cfg - 1).
    - unfold slice_to in El. destruct (NumSuccessors cfg - 1 <? 0);
        [discriminate|]. hrun_in El. injection El as <- <-. reflexivity.
    - hrun_in El. injection El as <- <-. reflexivity. }
  subst st1.
  destruct (merge_successors heap 0 l'
              (mkSt (vn st) w (calls st ++ [CallNotify succ])))
    as [[[] st2]| |] eqn:Em; rewrite bind_run, Em in H; cbn beta iota in H;
    try discriminate.
  hrun_in H. injection H as <- <-.
  apply merge_successors_frame in Em; [|lia]. cbn [vn world calls] in Em.
  destruct Em as (s & -> & Hs & Hj). exists s. cbn [vn].
  split; [reflexivity|]. split; [exact Hs|]. split.
  - destruct (Hj 0) as [E|(Hlt & _)]; [rewrite E; exact E0|lia].
  - intros j. destruct (Hj j) as [E|(_ & a & Ha & Hna)]; [left; exact E|].
    right. exists a. split; [exact Ha|]. intros Heq.
    apply same_String_true in Heq. congruence.
Qed.

(** X19: whenever notifySuccessor returns, only the successor list may
    have changed: it has kept its length and its first slot, and every
    slot that changed now holds a non-nil vnode whose Id is not this
    vnode's.  The vnode never stores itself, or nil, as a successor. *)
Theorem notifySuccessor_never_stores_self (e : option error) (st st' : St W) :
  notifySuccessor heap cfg st = Done (e, st') ->
  exists s,
    vn st' = set_successors s (vn st) /\
    length s = length (successors (vn st)) /\
    index s 0 = index (successors (vn st)) 0 /\
    (forall j, index s j = index (successors (vn st)) j \/
               exists a, index s j = Some (Some a) /\
                 Id (heap a) <> Id (self (vn st))).
Proof. apply notifySuccessor_frame. Qed.

(** X20: when the first successor brackets the key, FindSuccessors(n,
    key) with n >= 0 answers from the local list alone: it returns the
    first n slots of the successor list (all of them when n exceeds the
    length), nil slots included, with no error, no transport call and no
    change of state. *)
Theorem FindSuccessors_local_answer (n : Z) (key : list byte) (st : St W)
    (a : addr) :
  index (successors (vn st)) 0 = Some (Some a) ->
  betweenRightIncl (Id (self (vn st))) (Id (heap a)) key = true ->
  0 <= n ->
  FindSuccessors heap betweenRightIncl closestPreceeding n key st =
  Done ((take (Z.to_nat n) (successors (vn st)), None), st).
Proof.
  intros H0 Hb Hn. unfold FindSuccessors. hrun.
  destruct (successors (vn st)) as [|s0 s] eqn:Es; [discriminate|].
  cbv in H0. injection H0 as ->. cbn [brackets]. rewrite Hb.
  destruct (Z.leb_spec n (Z.of_nat (length (Some a :: s)))).
  - unfold slice_to. destruct (Z.ltb_spec n 0); [lia|]. hrun. reflexivity.
  - hrun. rewrite take_ge by lia. reflexivity.
Qed.

(** X21: whenever FindSuccessors returns, the local vnode is unchanged;
    an error comes with an empty list; and with an empty successor list
    the call fails at once, before any transport call. *)
Theorem FindSuccessors_read_only (n : Z) (key : list byte) (st st' : St W)
    (res : list VnodePtr) (e : option error) :
  FindSuccessors heap betweenRightIncl closestPreceeding n key st =
  Done ((res, e), st') ->
  vn st' = vn st /\
  (e <> None -> res = []) /\
  (successors (vn st) = [] -> e <> None /\ st' = st).
Proof.
  intros H. split; [eapply FindSuccessors_vn, H|].
  unfold FindSuccessors in H. hrun_in H.
  destruct (successors (vn st)) as [|s0 s] eqn:Es.
  { injection H as <- <- <-. split; [reflexivity|]. intros _.
    split; [discriminate|reflexivity]. }
  split; [|discriminate].
  destruct (brackets heap betweenRightIncl (self (vn st)) key s0).
  - destruct (n <=? Z.of_nat (length (s0 :: s))).
    + unfold slice_to in H. destruct (n <? 0); [discriminate|].
      hrun_in H. injection H as <- <- <-. congruence.
    + injection H as <- <- <-. congruence.
  - destruct (try_closest (closestPreceeding (vn st) key) n key st)
      as [[[r|] st1]| |] eqn:E; rewrite bind_run, E in H; try discriminate.
    + hrun_in H. injection H as <- <- <-. congruence.
    + hrun_in H. clear E. revert H.
      generalize (wrap64 (knownSuccessors (vn st1) - n)).
      generalize 1 at 1. generalize (drop 1 (successors (vn st1))).
      intros remain. induction remain as [|p rest IH]; intros i bound H;
        cbn [scan_successors] in H; destruct (i <=? bound);
        try discriminate; try (injection H as <- <- <-; reflexivity).
      destruct (brackets heap betweenRightIncl (self (vn st1)) key p).
      * destruct (Z.of_nat (length (p :: rest)) >? n).
        -- unfold slice_to in H. destruct (n <? 0); [discriminate|].
           hrun_in H. injection H as <- <- <-. congruence.
        -- injection H as <- <- <-. congruence.
      * eapply IH, H.
Qed.

Lemma try_closest_first_answer (n : Z) (key : list byte) (c : addr)
    (res : list VnodePtr) (post : list addr) (pre : list addr) :
  (forall c' w, In c' pre ->
     snd (fst (trans_FindSuccessors (Some c') n key w)) <> None) ->
  (forall w, fst (trans_FindSuccessors (Some c) n key w) = (res, None)) ->
  forall st : St W,
    exists w,
      try_closest (pre ++ c :: post) n key st =
      Done (Some res,
            mkSt (vn st) w
              (calls st ++
               map (fun x => CallFindSuccessors (Some x) n key) (pre ++ [c]))).
Proof.
  intros Hpre Hc. induction pre as [|c' pre IH]; intros st;
    cbn [app try_closest]; hrun; unfold rpc.
  - specialize (Hc (world st)).
    destruct (trans_FindSuccessors (Some c) n key (world st)) as [r w].
    cbn in Hc. subst r. hrun. exists w. reflexivity.
  - pose proof (Hpre c' (world st) (or_introl eq_refl)) as Hf.
    destruct (trans_FindSuccessors (Some c') n key (world st))
      as [[r [e|]] w]; [|elim Hf; reflexivity].
    cbn beta iota.
    destruct (IH (fun x w' Hin => Hpre x w' (or_intror Hin))
                (mkSt (vn st) w
                   (calls st ++ [CallFindSuccessors (Some c') n key])))
      as [w' Hrun].
    exists w'. rewrite Hrun. cbn [vn calls map]. rewrite <- app_assoc.
    reflexivity.
Qed.

(** X22: on the delegated path the first candidate that answers wins:
    when the first successor does not bracket the key, the candidates
    before c all fail and c answers without error, FindSuccessors
    returns the answer of c as it came, having asked the candidates up to
    c in order and none after it. *)
Theorem FindSuccessors_first_answer_wins (n : Z) (key : list byte)
    (st : St W) (s0 : VnodePtr) (tl : list VnodePtr)
    (pre post : list addr) (c : addr) (res : list VnodePtr) :
  successors (vn st) = s0 :: tl ->
  brackets heap betweenRightIncl (self (vn st)) key s0 = false ->
  closestPreceeding (vn st) key = pre ++ c :: post ->
  (forall c' w, In c' pre ->
     snd (fst (trans_FindSuccessors (Some c') n key w)) <> None) ->
  (forall w, fst (trans_FindSuccessors (Some c) n key w) = (res, None)) ->
  exists w,
    FindSuccessors heap betweenRightIncl closestPreceeding n key st =
    Done ((res, None),
          mkSt (vn st) w
            (calls st ++
             map (fun x => CallFindSuccessors (Some x) n key) (pre ++ [c]))).
Proof.
  intros Hs H0 Hcp Hpre Hc.
  destruct (try_closest_first_answer n key c res post pre Hpre Hc st)
    as [w Hrun].
  exists w. unfold FindSuccessors. hrun. rewrite Hs, H0, Hcp, bind_run, Hrun.
  hrun.
  reflexivity.
Qed.

End ListFacts.

(** ** checkNewSuccessor and stabilize, further *)

Lemma length_shift_left {A} (s : list A) : length (shift_left s) = length s.
Proof.
  destruct s as [|x u]; [reflexivity|].
  rewrite shift_left_cons, length_app. simpl. lia.
Qed.

Lemma shift_right_cons {A} (x : A) (u : list A) :
  shift_right (x :: u) = x :: removelast (x :: u).
Proof.
  unfold shift_right, copy_slice. change (drop 1 (x :: u)) with u.
  change (take 1 (x :: u)) with [x].
  replace (length (x :: u) - 1)%nat with (length u) by (simpl; lia).
  rewrite length_take. replace (length u `min` length (x :: u))%nat
    with (length u) by (simpl; lia).
  rewrite drop_all, app_nil_r, take_take, Nat.min_id.
  rewrite List.removelast_firstn_len. reflexivity.
Qed.

Lemma length_shift_right {A} (s : list A) : length (shift_right s) = length s.
Proof.
  destruct s as [|x u]; [reflexivity|].
  rewrite shift_right_cons. cbn [length].
  rewrite List.removelast_firstn_len, length_firstn. simpl. lia.
Qed.

Section CheckMore.
Context {W : Type} {T : Transport W}.
Variable heap : addr -> Vnode.
Variable cfg : Config.
Variable between : list byte -> list byte -> list byte -> bool.
Variable betweenRightIncl : list byte -> list byte -> list byte -> bool.
Variable powerOffset : list byte -> Z -> Z -> list byte.
Variable closestPreceeding : localVnode -> list byte -> list addr.

Local Abbreviation check :=
  (checkNewSuccessor heap cfg between betweenRightIncl powerOffset
     closestPreceeding).
Local Abbreviation repair := (repair_loop heap betweenRightIncl).
Local Abbreviation promote := (promote_from_finger heap betweenRightIncl).

(** Only the successor list of the vnode differs, with its length
    kept; the world and the calls are as they were or as stated. *)
Lemma promote_frame (fs : list VnodePtr) :
  forall (prev : option VnodePtr) (st st' : St W) (b : bool),
    promote prev fs st = Done (b, st') ->
    exists s,
      st' = mkSt (set_successors s (vn st)) (world st) (calls st) /\
      length s = length (successors (vn st)).
Proof.
  assert (Hsame : forall st : St W,
            st = mkSt (set_successors (successors (vn st)) (vn st))
                   (world st) (calls st)).
  { intros [[] ? ?]. reflexivity. }
  induction fs as [|n fs IH]; intros prev st st' b H;
    cbn [promote_from_finger] in H.
  - hrun_in H. injection H as <- <-. exists (successors (vn st)). auto.
  - destruct n as [a|]; [|eapply IH, H].
    hrun_in H. destruct (same_String (heap a) (self (vn st))); [eapply IH, H|].
    destruct (match prev with
              | Some q => negb (ptr_eqb (Some a) q)
              | None => true
              end); [|eapply IH, H].
    unfold index_or_panic in H.
    destruct (index (successors (vn st)) 0) as [s0|]; hrun_in H;
      [|discriminate].
    destruct s0 as [f|]; hrun_in H; [|discriminate].
    destruct (negb (betweenRightIncl (Id (self (vn st))) (Id (heap f))
                      (Id (heap a)))); [|eapply IH, H].
    unfold store_or_panic in H.
    destruct (store (successors (vn st)) 1 (Some a)) as [s|] eqn:Es;
      hrun_in H; [|discriminate].
    injection H as <- <-. exists s. split; [reflexivity|].
    apply store_length in Es. apply Es.
Qed.

Lemma repair_frame (fuel : nat) :
  forall (i known : Z) (succ maybe_suc : VnodePtr) (err : option error)
         (st st' : St W) r,
    repair fuel i known succ maybe_suc err st = Done (r, st') ->
    exists s,
      vn st' = set_successors s (vn st) /\
      length s = length (successors (vn st)).
Proof.
  assert (Hsame : forall v : localVnode, v = set_successors (successors v) v).
  { intros []. reflexivity. }
  induction fuel as [|fuel IH]; intros i known succ maybe_suc err st st' r H;
    [discriminate|].
  cbn [repair_loop] in H.
  destruct (negb (i <? known)).
  { hrun_in H. injection H as <- <-. exists (successors (vn st)). auto. }
  destruct err as [e|].
  2:{ hrun_in H. injection H as <- <-. exists (successors (vn st)). auto. }
  rewrite bind_run in H.
  destruct ((if i =? known - 1
             then get_vn ≫= (fun v => promote None (finger v) ≫= fun promoted =>
                    let known0 := if promoted : bool then known + 1 else known in
                    if i =? known0 - 1
                    then throw (ExplicitPanic "All known successors dead!")
                    else mret known0)
             else mret known) st) as [[known' st1]| |] eqn:Ek;
    try discriminate.
  assert (H1 : exists s1, st1 = mkSt (set_successors s1 (vn st)) (world st)
                                 (calls st) /\
                          length s1 = length (successors (vn st))).
  { destruct (i =? known - 1).
    - hrun_in Ek.
      destruct (promote None (finger (vn st)) st) as [[b st2]| |] eqn:Ep;
        try discriminate.
      apply promote_frame in Ep. cbn beta iota zeta in Ek.
      destruct (i =? (if b then known + 1 else known) - 1);
        hrun_in Ek; [discriminate|].
      injection Ek as <- <-. exact Ep.
    - hrun_in Ek. injection Ek as <- <-. exists (successors (vn st)).
      split; [|reflexivity]. destruct st as [[] ? ?]; reflexivity. }
  destruct H1 as (s1 & -> & Hs1). cbn beta iota in H. hrun_in H.
  unfold store_or_panic in H.
  destruct (store (shift_left s1) (known' - 1 - i) None) as [s2|] eqn:Es2;
    hrun_in H; [|discriminate].
  apply store_length in Es2. destruct Es2 as [Hs2 _].
  rewrite length_shift_left in Hs2.
  unfold index_or_panic in H.
  destruct (index s2 0) as [succ'|]; hrun_in H; [|discriminate].
  unfold rpc in H. cbn [world] in H.
  destruct (trans_GetPredecessor succ' (world st)) as [[m' err'] w'].
  cbn beta iota in H. apply IH in H. cbn [vn successors set_successors] in H.
  destruct H as (s & -> & Hs). exists s. split; [reflexivity|]. congruence.
Qed.

Lemma checkNewSuccessor_frame (fuel : nat) (e : option error)
    (st st' : St W) :
  check fuel st = Done (e, st') -> lists_only (vn st) (vn st').
Proof.
  assert (Hrefl : forall v, lists_only v v) by (intros v; repeat split).
  assert (Hsucc : forall v s, length s = length (successors v) ->
                              lists_only v (set_successors s v)).
  { intros v s Hs. repeat split. exact Hs. }
  unfold checkNewSuccessor, index_or_panic. intros H. hrun_in H.
  destruct (index (successors (vn st)) 0) as [[b|]|]; hrun_in H;
    try discriminate.
  2:{ injection H as <- <-. apply Hrefl. }
  unfold rpc in H.
  destruct (trans_GetPredecessor (Some b) (world st)) as [[m0 err0] w1].
  hrun_in H.
  destruct (repair fuel 0 (knownSuccessors (vn st)) (Some b) m0 err0
              (mkSt (vn st) w1 (calls st ++ [CallGetPredecessor (Some b)])))
    as [[[succ m] st1]| |] eqn:Er; try discriminate.
  apply repair_frame in Er. cbn [vn] in Er. destruct Er as (s1 & Hv1 & Hs1).
  cbn beta iota in H. destruct m as [m|].
  2:{ hrun_in H. injection H as <- <-. rewrite Hv1. apply Hsucc, Hs1. }
  hrun_in H. destruct succ as [c|]; hrun_in H; [|discriminate].
  destruct (between (Id (self (vn st1))) (Id (heap c)) (Id (heap m))).
  2:{ hrun_in H. injection H as <- <-. rewrite Hv1. apply Hsucc, Hs1. }
  hrun_in H. unfold rpc in H.
  destruct (trans_Ping (Some m) (world st1)) as [[alive perr] w2].
  hrun_in H. destruct (is_err perr || negb alive).
  { hrun_in H. unfold rpc in H. cbn [world vn] in H.
    destruct (trans_Notify (Some c) (self (vn st1)) w2) as [r w3].
    hrun_in H. injection H as <- <-. cbn [vn]. rewrite Hv1.
    apply Hsucc, Hs1. }
  hrun_in H. unfold store_or_panic in H.
  destruct (store (shift_right (successors (vn st1))) 0 (Some m)) as [s2|]
    eqn:Es2; hrun_in H; [|discriminate].
  apply store_length in Es2. destruct Es2 as [Hs2 _].
  rewrite length_shift_right in Hs2.
  match type of H with
  | context [fixFingerTableAtIndex ?h ?c ?b ?p ?cp ?i ?s] =>
      destruct (fixFingerTableAtIndex h c b p cp i s)
        as [[[nx ferr] st3]| |] eqn:Ef; try discriminate
  end.
  apply fixFingerTableAtIndex_frame in Ef. cbn [vn] in Ef.
  destruct Ef as ((f & Hv3 & Hf) & _). cbn beta iota in H.
  assert (Hfin : lists_only (vn st) (vn st3)).
  { unfold lists_only. rewrite Hv3. cbn in Hf |- *. rewrite Hv1 in *.
    cbn in Hs2, Hf |- *. repeat split; congruence. }
  destruct ferr as [ferr|]; hrun_in H.
  - injection H as <- <-. exact Hfin.
  - destruct (OnNewSuccessor (vn st3)); hrun_in H; injection H as <- <-;
      exact Hfin.
Qed.

(** X23: whenever checkNewSuccessor returns, identity, predecessor and
    refresh cursor are unchanged, and the successor list and the finger
    table have kept their lengths: repair and promotion never grow or
    shrink the successor list. *)
Theorem checkNewSuccessor_keeps_shape (fuel : nat) (e : option error)
    (st st' : St W) :
  check fuel st = Done (e, st') ->
  self (vn st') = self (vn st) /\
  predecessor (vn st') = predecessor (vn st) /\
  last_finger (vn st') = last_finger (vn st) /\
  length (successors (vn st')) = length (successors (vn st)) /\
  length (finger (vn st')) = length (finger (vn st)).
Proof.
  intros H. apply checkNewSuccessor_frame in H.
  destruct H as (H1 & H2 & H3 & _ & H5 & H6). auto.
Qed.

(** X24: in a ring at rest checkNewSuccessor is a single query: when
    the first successor answers the predecessor query with nil, or with
    a vnode that is not strictly between this vnode and itself, the call
    returns no error, changes nothing of the vnode and makes no other
    transport call. *)
Theorem checkNewSuccessor_at_rest (fuel : nat) (st : St W) (b : addr)
    (m : VnodePtr) (w1 : W) :
  (1 <= fuel)%nat ->
  index (successors (vn st)) 0 = Some (Some b) ->
  trans_GetPredecessor (Some b) (world st) = ((m, None), w1) ->
  match m with
  | Some x => between (Id (self (vn st))) (Id (heap b)) (Id (heap x)) = false
  | None => True
  end ->
  check fuel st =
  Done (None, mkSt (vn st) w1 (calls st ++ [CallGetPredecessor (Some b)])).
Proof.
  intros Hfuel H0 Hg Hm. destruct fuel as [|fuel]; [lia|].
  unfold checkNewSuccessor, index_or_panic. hrun. rewrite H0. hrun.
  rewrite (rpc_run _ _ _ _ _ Hg). hrun. rewrite repair_loop_S.
  destruct (negb (0 <? knownSuccessors (vn st))); hrun;
    (destruct m as [x|]; hrun; [rewrite Hm; hrun|]; reflexivity).
Qed.

(** X25: a dead first successor is dropped and the next one takes its
    place: when the first successor fails the predecessor query and the
    second, non-nil, answers it with no vnode strictly between this vnode
    and itself, checkNewSuccessor returns no error with the list moved
    one slot to the left and nil in the freed last slot. *)
Theorem checkNewSuccessor_drops_dead_first (fuel : nat) (st : St W)
    (b c : addr) (tl : list VnodePtr) (m0 m : VnodePtr) (e : error)
    (w1 w2 : W) :
  (2 <= fuel)%nat ->
  successors (vn st) = Some b :: Some c :: tl ->
  trans_GetPredecessor (Some b) (world st) = ((m0, Some e), w1) ->
  trans_GetPredecessor (Some c) w1 = ((m, None), w2) ->
  match m with
  | Some x => between (Id (self (vn st))) (Id (heap c)) (Id (heap x)) = false
  | None => True
  end ->
  check fuel st =
  Done (None,
        mkSt (set_successors (Some c :: tl ++ [None]) (vn st)) w2
          (calls st ++ [CallGetPredecessor (Some b);
                        CallGetPredecessor (Some c)])).
Proof.
  intros Hfuel Hs Hgb Hgc Hm. destruct fuel as [|[|fuel]]; try lia.
  assert (Hk : 2 <= knownSuccessors (vn st)).
  { rewrite knownSuccessors_strip, Hs. cbn [strip_trailing_nil].
    destruct (strip_trailing_nil tl); simpl length; lia. }
  destruct (knownSuccessors_last (vn st) ltac:(lia)) as [_ Hnil].
  pose proof (knownSuccessors_range (vn st)) as R. rewrite Hs in Hnil, R.
  unfold checkNewSuccessor, index_or_panic. hrun. rewrite Hs.
  change (index (Some b :: Some c :: tl) 0) with (Some (Some b)). hrun.
  rewrite (rpc_run _ _ _ _ _ Hgb). hrun. rewrite repair_loop_S.
  destruct (Z.ltb_spec 0 (knownSuccessors (vn st))) as [_|?]; [|lia].
  cbn [negb]. destruct (Z.eqb_spec 0 (knownSuccessors (vn st) - 1)); [lia|].
  hrun. rewrite Hs. unfold store_or_panic. rewrite shift_store.
  2:{ lia. }
  2:{ intros j Hj. apply Hnil. lia. }
  hrun. unfold index_or_panic.
  change (index ((Some c :: tl) ++ [None]) 0) with (Some (Some c)).
  hrun. rewrite (rpc_at _ _ _ _ _ _ _ Hgc). hrun. rewrite repair_loop_S.
  destruct (Z.ltb_spec (0 + 1) (knownSuccessors (vn st))) as [_|?]; [|lia].
  cbn [negb]. hrun.
  destruct m as [x|]; hrun; [rewrite Hm; hrun|];
    rewrite <- app_assoc; reflexivity.
Qed.

(** X26: a closer, live predecessor of the first successor becomes the
    new first successor: the old entries move one slot to the right, the
    last one falls off, and the list keeps its length; finger index 0 is
    then refreshed, and the OnNewSuccessor callback runs exactly when
    that refresh returned no error and a callback is set. *)
Theorem checkNewSuccessor_adopts_closer (fuel : nat) (st st3 : St W)
    (b m : addr) (w1 w2 : W) (nx : Z) (ferr : option error) :
  (1 <= fuel)%nat ->
  index (successors (vn st)) 0 = Some (Some b) ->
  trans_GetPredecessor (Some b) (world st) = ((Some m, None), w1) ->
  between (Id (self (vn st))) (Id (heap b)) (Id (heap m)) = true ->
  trans_Ping (Some m) w1 = ((true, None), w2) ->
  fixFingerTableAtIndex heap cfg betweenRightIncl powerOffset
    closestPreceeding 0
    (mkSt (set_successors (Some m :: removelast (successors (vn st))) (vn st))
       w2 (calls st ++ [CallGetPredecessor (Some b); CallPing (Some m)])) =
  Done ((nx, ferr), st3) ->
  check fuel st =
  Done (ferr,
        if is_err ferr || negb (OnNewSuccessor (vn st)) then st3
        else mkSt (vn st3) (world st3) (calls st3 ++ [CallOnNewSuccessor])) /\
  successors (vn st3) = Some m :: removelast (successors (vn st)).
Proof.
  intros Hfuel H0 Hg Hb Hp Hfix. destruct fuel as [|fuel]; [lia|].
  pose proof (fixFingerTableAtIndex_frame _ _ _ _ _ _ _ _ _ _ Hfix) as Hfr.
  destruct Hfr as ((f & Hv3 & _) & _). cbn [vn] in Hv3.
  split; [|rewrite Hv3; reflexivity].
  destruct (successors (vn st)) as [|x u] eqn:Es; [discriminate|].
  cbv in H0. injection H0 as ->.
  unfold checkNewSuccessor, index_or_panic. hrun. rewrite Es.
  change (index (Some b :: u) 0) with (Some (Some b)). hrun.
  rewrite (rpc_run _ _ _ _ _ Hg). hrun. rewrite repair_loop_S.
  assert (Hloop : (if negb (0 <? knownSuccessors (vn st))
                   then mret (Some b, Some m)
                   else mret (Some b, Some m)) =
                  (mret (Some b, Some m) : M W (VnodePtr * VnodePtr)))
    by (destruct (negb (0 <? knownSuccessors (vn st))); reflexivity).
  rewrite Hloop. hrun. rewrite Hb. hrun.
  rewrite (rpc_at _ _ _ _ _ _ _ Hp). hrun. cbn [is_err orb negb]. hrun.
  rewrite Es, shift_right_cons. unfold store_or_panic.
  rewrite store_some by (simpl; lia). hrun.
  change (<[Z.to_nat 0:=Some m]> (Some b :: removelast (Some b :: u)))
    with (Some m :: removelast (Some b :: u)).
  rewrite <- app_assoc. cbn [app].
  change (set_successors (Some m :: removelast (Some b :: u))
            (set_successors (Some b :: removelast (Some b :: u)) (vn st)))
    with (set_successors (Some m :: removelast (Some b :: u)) (vn st)).
  rewrite Hfix. cbn beta iota.
  destruct ferr as [fe|]; hrun; [reflexivity|].
  replace (OnNewSuccessor (vn st3)) with (OnNewSuccessor (vn st))
    by (rewrite Hv3; reflexivity).
  cbn [is_err orb].
  destruct (OnNewSuccessor (vn st)); hrun; cbn [negb];
    [reflexivity|destruct st3; reflexivity].
Qed.

End CheckMore.

Section StabilizeFacts.
Context {W : Type} {T : Transport W}.
Variable heap : addr -> Vnode.
Variable cfg : Config.
Variable between : list byte -> list byte -> list byte -> bool.
Variable betweenRightIncl : list byte -> list byte -> list byte -> bool.
Variable powerOffset : list byte -> Z -> Z -> list byte.
Variable closestPreceeding : localVnode -> list byte -> list addr.

Local Abbreviation pass :=
  (stabilize heap cfg between betweenRightIncl powerOffset closestPreceeding).

(** X27: when the ring is shutting down, stabilize clears the timer,
    sends true on the shutdown channel and does nothing else: no step
    runs and no timer is armed.  Otherwise it runs checkNewSuccessor,
    notifySuccessor, fixFingerTable and checkPredecessor in turn, each on
    the state the one before left, whatever errors the earlier ones
    returned; it then records the time and arms the timer again.
    Whenever such a pass returns, the identity is unchanged, the
    successor list and the finger table have kept their lengths, the
    predecessor is the old one or cleared, and a refresh cursor that was
    inside the finger table still is. *)
Theorem stabilize_pass (delay now : Z) (fuel : nat) (u : Upkeep)
    (st : St W) :
  (forall sent, shutdown u = Some sent ->
     pass delay now fuel u st =
     Done ((mkUpkeep None (stabilized u) (Some (sent ++ [true])), []), st)) /\
  (shutdown u = None ->
   forall e1 e2 e3 e4 st1 st2 st3 st4,
     checkNewSuccessor heap cfg between betweenRightIncl powerOffset
       closestPreceeding fuel st = Done (e1, st1) ->
     notifySuccessor heap cfg st1 = Done (e2, st2) ->
     fixFingerTable heap cfg betweenRightIncl powerOffset closestPreceeding
       st2 = Done (e3, st3) ->
     checkPredecessor st3 = Done (e4, st4) ->
     pass delay now fuel u st =
     Done ((mkUpkeep (Some delay) now None, [e1; e2; e3; e4]), st4)) /\
  (shutdown u = None ->
   forall u' errs st',
     pass delay now fuel u st = Done ((u', errs), st') ->
     (exists e1 e2 e3 e4 st1 st2 st3,
        checkNewSuccessor heap cfg between betweenRightIncl powerOffset
          closestPreceeding fuel st = Done (e1, st1) /\
        notifySuccessor heap cfg st1 = Done (e2, st2) /\
        fixFingerTable heap cfg betweenRightIncl powerOffset
          closestPreceeding st2 = Done (e3, st3) /\
        checkPredecessor st3 = Done (e4, st') /\
        errs = [e1; e2; e3; e4]) /\
     u' = mkUpkeep (Some delay) now None /\
     self (vn st') = self (vn st) /\
     length (successors (vn st')) = length (successors (vn st)) /\
     length (finger (vn st')) = length (finger (vn st)) /\
     (predecessor (vn st') = None \/
      predecessor (vn st') = predecessor (vn st)) /\
     (0 <= last_finger (vn st) < hashBits cfg ->
      0 <= last_finger (vn st') < hashBits cfg)).
Proof.
  unfold stabilize. cbn [shutdown timer stabilized]. split; [|split].
  - intros sent ->. reflexivity.
  - intros -> e1 e2 e3 e4 st1 st2 st3 st4 E1 E2 E3 E4.
    rewrite bind_run, E1. cbn beta iota. rewrite bind_run, E2.
    cbn beta iota. rewrite bind_run, E3. cbn beta iota.
    rewrite bind_run, E4. reflexivity.
  - intros -> u' errs st' H.
    rewrite bind_run in H.
    destruct (checkNewSuccessor heap cfg between betweenRightIncl powerOffset
                closestPreceeding fuel st) as [[e1 st1]| |] eqn:E1;
      try discriminate.
    cbn beta iota in H. rewrite bind_run in H.
    destruct (notifySuccessor heap cfg st1) as [[e2 st2]| |] eqn:E2;
      try discriminate.
    cbn beta iota in H. rewrite bind_run in H.
    destruct (fixFingerTable heap cfg betweenRightIncl powerOffset
                closestPreceeding st2) as [[e3 st3]| |] eqn:E3;
      try discriminate.
    cbn beta iota in H. rewrite bind_run in H.
    destruct (checkPredecessor st3) as [[e4 st4]| |] eqn:E4;
      try discriminate.
    hrun_in H. injection H as <- <- <-.
    split; [exists e1, e2, e3, e4, st1, st2, st3; auto|].
    split; [reflexivity|].
    apply checkNewSuccessor_frame in E1.
    destruct E1 as (A1 & A2 & A3 & _ & A5 & A6).
    apply notifySuccessor_frame in E2. destruct E2 as (s & B1 & B2 & _).
    apply fixFingerTable_frame in E3.
    destruct E3 as (C1 & _ & C3 & C4 & C5 & C6).
    apply checkPredecessor_frame in E4. destruct E4 as (D & _).
    rewrite B1 in C1, C3, C4, C5, C6. cbn in C1, C3, C4, C5, C6.
    destruct D as [D|D]; rewrite D; cbn.
    + split; [congruence|]. split; [congruence|]. split; [congruence|].
      split; [left; reflexivity|]. intros Hcur. apply C1. lia.
    + split; [congruence|]. split; [congruence|]. split; [congruence|].
      split; [right; congruence|]. intros Hcur. apply C1. lia.
Qed.

End StabilizeFacts.

(** ** Worked instances on the ring of one-byte Ids *)

Lemma fixFingerTableAtIndex_touches_finger_only_witness :
  let T := table_transport (fun _ => (None, None)) (fun _ => (true, None))
             (fun _ => ([], None)) (fun _ _ _ => ([], Some unreachable)) in
  let f := [Some 20; Some 20; Some 20; Some 20; Some 30;
            None; None; None]%nat in
  let v := mkLocal vnodeA [Some 20; Some 30]%nat f 0 (Some 5%nat) false in
  let st := mkSt v tt [] in
  let st' := mkSt (set_finger f v) tt [] in
  @fixFingerTableAtIndex unit T ring_heap ring_cfg spec_betweenRightIncl
    spec_powerOffset (fun _ _ => []) 0 st = Done ((4, None), st') /\
  successors (vn st') = successors (vn st) /\
  length (finger (vn st')) = length (finger (vn st)) /\
  0 <= 4 < hashBits ring_cfg.
Proof.
  intros T f v st st'.
  assert (E : @fixFingerTableAtIndex unit T ring_heap ring_cfg
                spec_betweenRightIncl spec_powerOffset (fun _ _ => []) 0 st =
              Done ((4, None), st')) by (vm_compute; reflexivity).
  split; [exact E|].
  destruct (@fixFingerTableAtIndex_touches_finger_only unit T ring_heap
              ring_cfg spec_betweenRightIncl spec_powerOffset (fun _ _ => [])
              0 4 None st st' E) as (_ & Hs & _ & _ & Hl & Hn).
  split; [exact Hs|]. split; [exact Hl|].
  apply Hn; [reflexivity|]. cbn. lia.
Defined.

Lemma fixFingerTable_cursor_witness :
  let T := table_transport (fun _ => (None, None)) (fun _ => (true, None))
             (fun _ => ([], None)) (fun _ _ _ => ([], Some unreachable)) in
  let f := [Some 20; Some 20; Some 20; Some 20; Some 30;
            None; None; None]%nat in
  let v := mkLocal vnodeA [Some 20; Some 30]%nat f 0 (Some 5%nat) false in
  let st := mkSt v tt [] in
  let st' := mkSt (set_last_finger 4 v) tt [] in
  @fixFingerTable unit T ring_heap ring_cfg spec_betweenRightIncl
    spec_powerOffset (fun _ _ => []) st = Done (None, st') /\
  0 <= last_finger (vn st') < hashBits ring_cfg.
Proof.
  intros T f v st st'.
  assert (E : @fixFingerTable unit T ring_heap ring_cfg spec_betweenRightIncl
                spec_powerOffset (fun _ _ => []) st = Done (None, st'))
    by (vm_compute; reflexivity).
  split; [exact E|].
  apply (proj1 (@fixFingerTable_cursor unit T ring_heap ring_cfg
                  spec_betweenRightIncl spec_powerOffset (fun _ _ => [])
                  None st st' E)).
  cbn. lia.
Defined.

Lemma Vnode_String_eq_iff_Id_witness :
  Vnode_String vnodeA = Vnode_String (ring_heap 10).
Proof.
  exact (proj2 (Vnode_String_eq_iff_Id vnodeA (ring_heap 10)) eq_refl).
Defined.

Lemma shouldConnectToHost_iff_witness :
  let v := mkLocal vnodeA [Some 20; Some 30]%nat [Some 20%nat; None] 0
             (Some 5%nat) false in
  shouldConnectToHost ring_heap v "peer" = true.
Proof.
  intros v. apply (shouldConnectToHost_iff ring_heap v "peer").
  exists 5%nat. split; [|reflexivity].
  cbn. right. right. right. right. left. reflexivity.
Defined.

Lemma GetNeighbors_distinct_foreign_witness :
  let v := mkLocal vnodeA [Some 20; Some 30]%nat [Some 20%nat; None] 0
             (Some 5%nat) false in
  List.NoDup (GetNeighbors ring_heap v) /\
  GetNeighbors ring_heap v = [Some 20; Some 30; Some 5]%nat.
Proof.
  intros v. split; [|reflexivity].
  exact (proj1 (GetNeighbors_distinct_foreign ring_heap v)).
Defined.

Lemma keepalive_pass_pings_foreign_witness :
  let T := table_transport (fun _ => (None, None)) (fun _ => (true, None))
             (fun _ => ([], None)) (fun _ _ _ => ([], Some unreachable)) in
  let st := mkSt (mkLocal vnodeA [Some 20; Some 30]%nat [Some 20%nat; None]
                    0 (Some 5%nat) false) tt [] in
  exists w pinged,
    @keepalive_pass unit T ring_heap st =
    Done (tt, mkSt (vn st) w (calls st ++ map CallPing pinged)) /\
    (forall m, In m pinged <->
               In m (allNeighbors (vn st)) /\
               foreign ring_heap (Host (self (vn st))) m).
Proof.
  intros T st. exact (@keepalive_pass_pings_foreign unit T ring_heap st).
Defined.

Lemma ShouldAddrInNeighbors_iff_GetNeighbors_witness :
  let v := mkLocal vnodeA [Some 20; Some 30]%nat [Some 20%nat; None] 0
             (Some 5%nat) false in
  ShouldAddrInNeighbors ring_heap CompareId_int v [byte_of_Z 30] = true <->
  exists x, In (Some x) (GetNeighbors ring_heap v) /\
            Id (ring_heap x) = [byte_of_Z 30].
Proof.
  intros v.
  exact (ShouldAddrInNeighbors_iff_GetNeighbors ring_heap CompareId_int v
           [byte_of_Z 30] CompareId_int_eq).
Defined.

Lemma Notify_answer_witness :
  let T := table_transport (fun _ => (None, None)) (fun _ => (true, None))
             (fun _ => ([], None)) (fun _ _ _ => ([], Some unreachable)) in
  let v := mkLocal vnodeA [Some 20; Some 30]%nat [None] 0 (Some 5%nat)
             false in
  let st := mkSt v tt [] in
  let st' := mkSt (set_predecessor (Some 7%nat) v) tt [] in
  @Notify unit T ring_heap spec_between CompareId_int (Some 7%nat) st =
  Done (([Some 20; Some 30]%nat, None,
         [DelegateNewPredecessor (Some 7%nat) (Some 5%nat)]), st') /\
  [Some 20; Some 30]%nat = successors (vn st).
Proof.
  intros T v st st'.
  assert (E : @Notify unit T ring_heap spec_between CompareId_int (Some 7%nat) st =
              Done (([Some 20; Some 30]%nat, None,
                     [DelegateNewPredecessor (Some 7%nat) (Some 5%nat)]),
                    st')) by (vm_compute; reflexivity).
  split; [exact E|].
  exact (proj1 (proj2 (@Notify_answer unit T ring_heap spec_between
                         CompareId_int
                         (Some 7%nat) st st' _ _ _ E))).
Defined.

Lemma Notify_keeps_live_predecessor_witness :
  let T := table_transport (fun _ => (None, None)) (fun _ => (true, None))
             (fun _ => ([], None)) (fun _ _ _ => ([], Some unreachable)) in
  let st := mkSt (mkLocal vnodeA [Some 20; Some 30]%nat [None] 0 (Some 5%nat)
                    false) tt [] in
  exists st',
    @Notify unit T ring_heap spec_between CompareId_int (Some 3%nat) st =
    Done (([Some 20; Some 30]%nat, None, []), st') /\ vn st' = vn st.
Proof.
  intros T st.
  apply (@Notify_keeps_live_predecessor unit T ring_heap spec_between
           CompareId_int
           5%nat 3%nat st tt); [reflexivity|reflexivity|right; reflexivity].
Defined.

Lemma Notify_replaces_dead_predecessor_witness :
  let T := table_transport (fun _ => (None, None)) (fun _ => (false, None))
             (fun _ => ([], None)) (fun _ _ _ => ([], Some unreachable)) in
  let st := mkSt (mkLocal vnodeA [Some 20; Some 30]%nat [None] 0 (Some 5%nat)
                    false) tt [] in
  exists st',
    @Notify unit T ring_heap spec_between CompareId_int (Some 3%nat) st =
    Done (([Some 20; Some 30]%nat, None,
           [DelegateNewPredecessor (Some 3%nat) (Some 5%nat)]), st') /\
    vn st' = set_predecessor (Some 3%nat) (vn st).
Proof.
  intros T st.
  apply (@Notify_replaces_dead_predecessor unit T ring_heap spec_between
           CompareId_int
           5%nat 3%nat st false None tt);
    [reflexivity|vm_compute; discriminate|reflexivity|reflexivity].
Defined.

Lemma checkPredecessor_clears_unless_alive_witness :
  let T := table_transport (fun _ => (None, None)) (fun _ => (true, None))
             (fun _ => ([], None)) (fun _ _ _ => ([], Some unreachable)) in
  let st := mkSt (mkLocal vnodeA [Some 20; Some 30]%nat [None] 0 (Some 5%nat)
                    false) tt [] in
  exists e st',
    @checkPredecessor unit T st = Done (e, st') /\
    (vn st' = set_predecessor None (vn st) \/ vn st' = vn st) /\
    (forall p, predecessor (vn st') = Some p ->
       e = None /\
       @trans_Ping unit T (Some p) (world st) = ((true, None), world st') /\
       calls st' = calls st ++ [CallPing (Some p)]).
Proof.
  intros T st. exact (@checkPredecessor_clears_unless_alive unit T st).
Defined.

Lemma ClearPredecessor_only_matching_witness :
  let v := mkLocal vnodeA [Some 20; Some 30]%nat [None] 0 (Some 5%nat)
             false in
  let st := mkSt v tt [] in
  @ClearPredecessor unit ring_heap (Some 7%nat) st = Done ((None, []), st) /\
  calls st = calls st.
Proof.
  intros v st.
  assert (E : @ClearPredecessor unit ring_heap (Some 7%nat) st =
              Done ((None, []), st)) by (vm_compute; reflexivity).
  split; [exact E|].
  exact (proj1 (proj2 (proj2 (@ClearPredecessor_only_matching unit ring_heap
                                (Some 7%nat) None [] st st E)))).
Defined.

Lemma FindPredecessor_never_nil_witness :
  let T := table_transport (fun _ => (Some 10%nat, None))
             (fun _ => (true, None)) (fun _ => ([], None))
             (fun _ _ _ => ([], Some unreachable)) in
  let v := mkLocal vnodeA [Some 20; Some 30]%nat [None] 0 (Some 5%nat)
             false in
  let st := mkSt v tt [] in
  let st' := mkSt v tt [CallGetPredecessor (Some 20%nat)] in
  @FindPredecessor unit T ring_heap spec_betweenRightIncl (fun _ _ => [])
    [byte_of_Z 15] st = Done ((Some 10%nat, None), st') /\
  exists a first w,
    Some 10%nat = Some a /\
    @trans_GetPredecessor unit T first w = ((Some a, None), world st').
Proof.
  intros T v st st'.
  assert (E : @FindPredecessor unit T ring_heap spec_betweenRightIncl
                (fun _ _ => []) [byte_of_Z 15] st =
              Done ((Some 10%nat, None), st')) by (vm_compute; reflexivity).
  split; [exact E|].
  exact (proj1 (proj2 (@FindPredecessor_never_nil unit T ring_heap
                         spec_betweenRightIncl (fun _ _ => [])
                         [byte_of_Z 15] _ _ st st' E)) eq_refl).
Defined.

Lemma SkipSuccessor_effect_witness :
  @SkipSuccessor unit ring_heap (Some 20%nat)
    (mkSt (mkLocal vnodeA [Some 20; Some 30]%nat [None] 0 None false) tt []) =
  Done (None,
        mkSt (mkLocal vnodeA [Some 30%nat; None] [None] 0 None false) tt
          [CallSuccessorLeaving (Some 20%nat)]).
Proof.
  exact (@SkipSuccessor_effect unit ring_heap 20%nat 20%nat
           (mkSt (mkLocal vnodeA [Some 20; Some 30]%nat [None] 0 None false)
              tt []) eq_refl).
Defined.

Lemma notifySuccessor_never_stores_self_witness :
  let T := table_transport (fun _ => (None, None)) (fun _ => (true, None))
             (fun _ => ([Some 30; Some 10; Some 40]%nat, None))
             (fun _ _ _ => ([], Some unreachable)) in
  let v := mkLocal vnodeA [Some 20%nat; None; None; None] [None] 0 None
             false in
  let st := mkSt v tt [] in
  let st' := mkSt (set_successors [Some 20%nat; Some 30%nat; None; None] v)
               tt [CallNotify (Some 20%nat)] in
  @notifySuccessor unit T ring_heap (mkConfig 4 8) st = Done (None, st') /\
  exists s,
    vn st' = set_successors s (vn st) /\
    length s = length (successors (vn st)) /\
    index s 0 = index (successors (vn st)) 0 /\
    (forall j, index s j = index (successors (vn st)) j \/
               exists a, index s j = Some (Some a) /\
                 Id (ring_heap a) <> Id (self (vn st))).
Proof.
  intros T v st st'.
  assert (E : @notifySuccessor unit T ring_heap (mkConfig 4 8) st =
              Done (None, st')) by (vm_compute; reflexivity).
  split; [exact E|].
  exact (@notifySuccessor_never_stores_self unit T ring_heap (mkConfig 4 8)
           None st st' E).
Defined.

Lemma FindSuccessors_local_answer_witness :
  let T := table_transport (fun _ => (None, None)) (fun _ => (true, None))
             (fun _ => ([], None)) (fun _ _ _ => ([], Some unreachable)) in
  let st := mkSt (mkLocal vnodeA [Some 20%nat; None] [None] 0 None false)
              tt [] in
  @FindSuccessors unit T ring_heap spec_betweenRightIncl (fun _ _ => [30%nat])
    5 [byte_of_Z 15] st = Done (([Some 20%nat; None], None), st).
Proof.
  intros T st.
  apply (@FindSuccessors_local_answer unit T ring_heap spec_betweenRightIncl
           (fun _ _ => [30%nat]) 5 [byte_of_Z 15] st 20%nat);
    [reflexivity|reflexivity|lia].
Defined.

Lemma FindSuccessors_read_only_witness :
  let T := table_transport (fun _ => (None, None)) (fun _ => (true, None))
             (fun _ => ([], None)) (fun _ _ _ => ([], Some unreachable)) in
  let v := mkLocal vnodeA [Some 20%nat; None] [None] 0 None false in
  let st := mkSt v tt [] in
  let st' := mkSt v tt [CallFindSuccessors (Some 20%nat) 1 [byte_of_Z 50]] in
  @FindSuccessors unit T ring_heap spec_betweenRightIncl
    (fun _ _ => [20%nat]) 1 [byte_of_Z 50] st =
  Done (([], Some "Exhausted all preceeding nodes"%string), st') /\
  vn st' = vn st.
Proof.
  intros T v st st'.
  assert (E : @FindSuccessors unit T ring_heap spec_betweenRightIncl
                (fun _ _ => [20%nat]) 1 [byte_of_Z 50] st =
              Done (([], Some "Exhausted all preceeding nodes"%string), st'))
    by (vm_compute; reflexivity).
  split; [exact E|].
  exact (proj1 (@FindSuccessors_read_only unit T ring_heap
                  spec_betweenRightIncl (fun _ _ => [20%nat]) 1
                  [byte_of_Z 50] st st' _ _ E)).
Defined.

Lemma FindSuccessors_first_answer_wins_witness :
  let T := table_transport (fun _ => (None, None)) (fun _ => (true, None))
             (fun _ => ([], None))
             (fun p _ _ => match p with
                           | Some 30%nat => ([Some 50%nat], None)
                           | _ => ([], Some unreachable)
                           end) in
  let st := mkSt (mkLocal vnodeA [Some 20; Some 30]%nat [None] 0 None false)
              tt [] in
  exists w,
    @FindSuccessors unit T ring_heap spec_betweenRightIncl
      (fun _ _ => [20; 30; 40]%nat) 1 [byte_of_Z 45] st =
    Done (([Some 50%nat], None),
          mkSt (vn st) w
            [CallFindSuccessors (Some 20%nat) 1 [byte_of_Z 45];
             CallFindSuccessors (Some 30%nat) 1 [byte_of_Z 45]]).
Proof.
  intros T st.
  apply (@FindSuccessors_first_answer_wins unit T ring_heap
           spec_betweenRightIncl (fun _ _ => [20; 30; 40]%nat) 1
           [byte_of_Z 45] st (Some 20%nat) [Some 30%nat] [20%nat] [40%nat]
           30%nat [Some 50%nat]).
  - reflexivity.
  - reflexivity.
  - reflexivity.
  - intros c' w [<-|[]]. discriminate.
  - intros w. reflexivity.
Defined.

Lemma checkNewSuccessor_keeps_shape_witness :
  let T := table_transport
             (fun p => match p with
                       | Some 30%nat => (None, None)
                       | _ => (None, Some unreachable)
                       end)
             (fun _ => (true, None)) (fun _ => ([], None))
             (fun _ _ _ => ([], Some unreachable)) in
  let v := mkLocal vnodeA [Some 20; Some 30]%nat [None] 0 None false in
  let st := mkSt v tt [] in
  let st' := mkSt (set_successors [Some 30%nat; None] v) tt
               [CallGetPredecessor (Some 20%nat);
                CallGetPredecessor (Some 30%nat)] in
  @checkNewSuccessor unit T ring_heap ring_cfg spec_between
    spec_betweenRightIncl spec_powerOffset (fun _ _ => []) 2 st =
  Done (None, st') /\
  length (successors (vn st')) = length (successors (vn st)).
Proof.
  intros T v st st'.
  assert (E : @checkNewSuccessor unit T ring_heap ring_cfg spec_between
                spec_betweenRightIncl spec_powerOffset (fun _ _ => []) 2 st =
              Done (None, st')) by (vm_compute; reflexivity).
  split; [exact E|].
  exact (proj1 (proj2 (proj2 (proj2
    (@checkNewSuccessor_keeps_shape unit T ring_heap ring_cfg spec_between
       spec_betweenRightIncl spec_powerOffset (fun _ _ => []) 2 None st st'
       E))))).
Defined.

Lemma checkNewSuccessor_at_rest_witness :
  let T := table_transport (fun _ => (Some 10%nat, None))
             (fun _ => (true, None)) (fun _ => ([], None))
             (fun _ _ _ => ([], Some unreachable)) in
  let st := mkSt (mkLocal vnodeA [Some 20; Some 30]%nat [None] 0 None false)
              tt [] in
  @checkNewSuccessor unit T ring_heap ring_cfg spec_between
    spec_betweenRightIncl spec_powerOffset (fun _ _ => []) 1 st =
  Done (None, mkSt (vn st) tt [CallGetPredecessor (Some 20%nat)]).
Proof.
  intros T st.
  apply (@checkNewSuccessor_at_rest unit T ring_heap ring_cfg spec_between
           spec_betweenRightIncl spec_powerOffset (fun _ _ => []) 1 st
           20%nat (Some 10%nat) tt); [lia|reflexivity|reflexivity|reflexivity].
Defined.

Lemma checkNewSuccessor_drops_dead_first_witness :
  let T := table_transport
             (fun p => match p with
                       | Some 30%nat => (Some 10%nat, None)
                       | _ => (None, Some unreachable)
                       end)
             (fun _ => (true, None)) (fun _ => ([], None))
             (fun _ _ _ => ([], Some unreachable)) in
  let st := mkSt (mkLocal vnodeA [Some 20; Some 30; Some 40]%nat [None] 0 None
                    false) tt [] in
  @checkNewSuccessor unit T ring_heap (mkConfig 3 8) spec_between
    spec_betweenRightIncl spec_powerOffset (fun _ _ => []) 2 st =
  Done (None,
        mkSt (set_successors [Some 30%nat; Some 40%nat; None] (vn st)) tt
          [CallGetPredecessor (Some 20%nat); CallGetPredecessor (Some 30%nat)]).
Proof.
  intros T st.
  apply (@checkNewSuccessor_drops_dead_first unit T ring_heap (mkConfig 3 8)
           spec_between spec_betweenRightIncl spec_powerOffset (fun _ _ => [])
           2 st 20%nat 30%nat [Some 40%nat] None (Some 10%nat) unreachable
           tt tt); [lia|reflexivity..].
Defined.

Lemma checkNewSuccessor_adopts_closer_witness :
  let T := table_transport (fun _ => (Some 15%nat, None))
             (fun _ => (true, None)) (fun _ => ([], None))
             (fun _ _ _ => ([], Some unreachable)) in
  let f := [Some 20; Some 20; Some 20; Some 20; Some 30;
            None; None; None]%nat in
  let f' := [Some 15; Some 15; Some 15; Some 20; Some 30;
             None; None; None]%nat in
  let st := mkSt (mkLocal vnodeA [Some 20; Some 30]%nat f 0 None true) tt [] in
  let st3 := mkSt (mkLocal vnodeA [Some 15; Some 20]%nat f' 0 None true) tt
               [CallGetPredecessor (Some 20%nat); CallPing (Some 15%nat);
                CallPing (Some 15%nat)] in
  @checkNewSuccessor unit T ring_heap ring_cfg spec_between
    spec_betweenRightIncl spec_powerOffset (fun _ _ => []) 1 st =
  Done (None,
        mkSt (vn st3) tt (calls st3 ++ [CallOnNewSuccessor])) /\
  successors (vn st3) = [Some 15; Some 20]%nat.
Proof.
  intros T f f' st st3.
  apply (@checkNewSuccessor_adopts_closer unit T ring_heap ring_cfg
           spec_between spec_betweenRightIncl spec_powerOffset (fun _ _ => [])
           1 st st3 20%nat 15%nat tt tt 3 None);
    [lia|reflexivity|reflexivity|reflexivity|reflexivity|
     vm_compute; reflexivity].
Defined.

Lemma stabilize_pass_witness :
  let T := table_transport (fun _ => (None, Some unreachable))
             (fun _ => (true, None))
             (fun _ => ([], Some unreachable))
             (fun _ _ _ => ([], Some unreachable)) in
  let f := [Some 20; Some 20; Some 20; Some 20; Some 30;
            None; None; None]%nat in
  let v := mkLocal vnodeA [Some 20; Some 30]%nat f 4 (Some 5%nat) false in
  let st := mkSt v tt [] in
  @stabilize unit T ring_heap ring_cfg spec_between spec_betweenRightIncl
    spec_powerOffset (fun _ _ => []) 7 100 1 (mkUpkeep (Some 3) 90 (Some []))
    st =
  Done ((mkUpkeep None 90 (Some [true]), []), st) /\
  @stabilize unit T ring_heap ring_cfg spec_between spec_betweenRightIncl
    spec_powerOffset (fun _ _ => []) 7 100 1 (mkUpkeep (Some 3) 90 None)
    (mkSt (set_successors [None; None] v) tt []) =
  Done ((mkUpkeep (Some 7) 100 None,
         [Some "Node has no successor!"%string; Some unreachable;
          Some "Exhausted all preceeding nodes"%string; None]),
        mkSt (set_successors [None; None] v) tt
          [CallNotify None; CallPing (Some 5%nat)]).
Proof.
  intros T f v st. split.
  - apply (proj1 (@stabilize_pass unit T ring_heap ring_cfg spec_between
                    spec_betweenRightIncl spec_powerOffset (fun _ _ => [])
                    7 100 1 (mkUpkeep (Some 3) 90 (Some [])) st) []).
    reflexivity.
  - apply (proj1 (proj2
             (@stabilize_pass unit T ring_heap ring_cfg spec_between
                spec_betweenRightIncl spec_powerOffset (fun _ _ => [])
                7 100 1 (mkUpkeep (Some 3) 90 None)
                (mkSt (set_successors [None; None] v) tt []))) eq_refl
             _ _ _ _
             (mkSt (set_successors [None; None] v) tt [])
             (mkSt (set_successors [None; None] v) tt [CallNotify None])
             (mkSt (set_successors [None; None] v) tt [CallNotify None]));
      vm_compute; reflexivity.
Defined.

(** ** How the operations compose *)

Lemma strip_trailing_nil_snoc_nil (l : list VnodePtr) :
  strip_trailing_nil (l ++ [None]) = strip_trailing_nil l.
Proof.
  induction l as [|p l IH]; [reflexivity|].
  cbn [app strip_trailing_nil]. rewrite IH. reflexivity.
Qed.

Section Composition.
Context {W : Type} {T : Transport W}.
Variable heap : addr -> Vnode.
Variable cfg : Config.
Variable between : list byte -> list byte -> list byte -> bool.
Variable betweenRightIncl : list byte -> list byte -> list byte -> bool.
Variable powerOffset : list byte -> Z -> Z -> list byte.
Variable closestPreceeding : localVnode -> list byte -> list addr.
Variable compareId : list byte -> list byte -> Z.

Lemma SkipSuccessor_match_run (a b : addr) (u : list VnodePtr) (st : St W) :
  successors (vn st) = Some a :: u ->
  Id (heap a) = Id (heap b) ->
  SkipSuccessor heap (Some b) st =
  Done (None,
        mkSt (set_successors (u ++ [None]) (vn st)) (world st)
          (calls st ++ [CallSuccessorLeaving (Some a)])).
Proof.
  intros Es Hid. apply same_String_true in Hid.
  assert (Hk : 1 <= knownSuccessors (vn st)).
  { rewrite knownSuccessors_strip, Es. cbn [strip_trailing_nil].
    destruct (strip_trailing_nil u); simpl length; lia. }
  destruct (knownSuccessors_last (vn st) Hk) as [_ Hnil].
  pose proof (knownSuccessors_range (vn st)) as R. rewrite Es in Hnil, R.
  unfold SkipSuccessor, index_or_panic. hrun. rewrite Es.
  change (index (Some a :: u) 0) with (Some (Some a)). hrun.
  rewrite Hid. hrun. unfold store_or_panic. rewrite shift_store.
  - hrun. reflexivity.
  - lia.
  - intros j Hj. apply Hnil. exact Hj.
Qed.

(** X28: a SkipSuccessor call that matches the first successor lowers
    knownSuccessors() by exactly one and keeps the length of the
    successor list. *)
Theorem SkipSuccessor_forgets_one (a b : addr) (u : list VnodePtr)
    (st : St W) :
  successors (vn st) = Some a :: u ->
  Id (heap a) = Id (heap b) ->
  exists st',
    SkipSuccessor heap (Some b) st = Done (None, st') /\
    knownSuccessors (vn st') = knownSuccessors (vn st) - 1 /\
    length (successors (vn st')) = length (successors (vn st)).
Proof.
  intros Es Hid. eexists.
  split; [apply (SkipSuccessor_match_run _ _ _ _ Es Hid)|].
  rewrite !knownSuccessors_strip. cbn [vn successors set_successors].
  rewrite Es, strip_trailing_nil_snoc_nil. cbn [strip_trailing_nil].
  split.
  - destruct (strip_trailing_nil u); simpl length; lia.
  - rewrite length_app. simpl. lia.
Qed.

(** X29: joining and leaving undo each other at the successor's end:
    with no predecessor known, Notify(c) accepts c without any transport
    call, GetPredecessor then answers c, and a ClearPredecessor with a
    vnode of the Id of c puts the vnode back as it was. *)
Theorem Notify_ClearPredecessor_round_trip (c c' : addr) (st : St W) :
  predecessor (vn st) = None ->
  Id (heap c) = Id (heap c') ->
  exists st1 st2,
    Notify heap between compareId (Some c) st =
    Done ((successors (vn st), None,
           [DelegateNewPredecessor (Some c) None]), st1) /\
    GetPredecessor st1 = Done ((Some c, None), st1) /\
    ClearPredecessor heap (Some c') st1 =
    Done ((None, [DelegatePredecessorLeaving (Some c)]), st2) /\
    st2 = st.
Proof.
  intros Hp Hid. apply same_String_true in Hid.
  exists (mkSt (set_predecessor (Some c) (vn st)) (world st) (calls st)), st.
  split; [|split; [|split; [|reflexivity]]].
  - unfold Notify. hrun. rewrite Hp. hrun. rewrite Hp. reflexivity.
  - unfold GetPredecessor. hrun. reflexivity.
  - destruct st as [[sf su fi lf pr on] w l]. cbn in Hp. subst pr.
    unfold ClearPredecessor. hrun. rewrite Hid. hrun. reflexivity.
Qed.

(** X30: when the lookup of the offset of the cursor fails, or yields
    no vnode, fixFingerTable returns the error of the lookup (none for
    an empty answer) and leaves the finger table and the cursor as they
    were, so that the same index is tried again on the next pass. *)
Theorem fixFingerTable_lookup_fails (st st1 : St W) (res : list VnodePtr)
    (e : option error) :
  FindSuccessors heap betweenRightIncl closestPreceeding 1
    (powerOffset (Id (self (vn st))) (last_finger (vn st)) (hashBits cfg))
    st = Done ((res, e), st1) ->
  res = [] \/ e <> None ->
  exists st',
    fixFingerTable heap cfg betweenRightIncl powerOffset closestPreceeding
      st = Done (e, st') /\
    vn st' = vn st /\ world st' = world st1 /\ calls st' = calls st1.
Proof.
  intros Hfind Hfail.
  pose proof (FindSuccessors_vn _ _ _ _ _ _ _ _ Hfind) as Hv.
  unfold fixFingerTable, fixFingerTableAtIndex. hrun. rewrite Hfind.
  cbn beta iota.
  destruct Hfail as [->|He].
  - destruct e as [e|]; hrun; eexists; (split; [reflexivity|]);
      cbn [vn world calls]; rewrite ?Hv; [auto|].
    destruct (vn st); auto.
  - destruct e as [e|]; [|contradiction].
    destruct res; hrun; eexists; (split; [reflexivity|]); auto.
Qed.

End Composition.

Lemma SkipSuccessor_forgets_one_witness :
  let st := mkSt (mkLocal vnodeA [Some 20; Some 30; None]%nat [None] 0 None
                    false) tt [] in
  exists st',
    @SkipSuccessor unit ring_heap (Some 20%nat) st = Done (None, st') /\
    knownSuccessors (vn st') = knownSuccessors (vn st) - 1 /\
    length (successors (vn st')) = length (successors (vn st)).
Proof.
  intros st.
  apply (@SkipSuccessor_forgets_one unit ring_heap 20%nat 20%nat
           [Some 30%nat; None] st); reflexivity.
Defined.

Lemma Notify_ClearPredecessor_round_trip_witness :
  let T := table_transport (fun _ => (None, None)) (fun _ => (true, None))
             (fun _ => ([], None)) (fun _ _ _ => ([], Some unreachable)) in
  let st := mkSt (mkLocal vnodeA [Some 20; Some 30]%nat [None] 0 None false)
              tt [] in
  exists st1 st2,
    @Notify unit T ring_heap spec_between CompareId_int (Some 5%nat) st =
    Done ((successors (vn st), None,
           [DelegateNewPredecessor (Some 5%nat) None]), st1) /\
    @GetPredecessor unit st1 = Done ((Some 5%nat, None), st1) /\
    @ClearPredecessor unit ring_heap (Some 5%nat) st1 =
    Done ((None, [DelegatePredecessorLeaving (Some 5%nat)]), st2) /\
    st2 = st.
Proof.
  intros T st.
  apply (@Notify_ClearPredecessor_round_trip unit T ring_heap spec_between
           CompareId_int 5%nat 5%nat st); reflexivity.
Defined.

Lemma fixFingerTable_lookup_fails_witness :
  let T := table_transport (fun _ => (None, None)) (fun _ => (true, None))
             (fun _ => ([], None)) (fun _ _ _ => ([], Some unreachable)) in
  let st := mkSt (mkLocal vnodeA [] [None] 0 None false) tt [] in
  exists st',
    @fixFingerTable unit T ring_heap ring_cfg spec_betweenRightIncl
      spec_powerOffset (fun _ _ => []) st =
    Done (Some "Successor list not initialized"%string, st') /\
    vn st' = vn st /\ world st' = world st /\ calls st' = calls st.
Proof.
  intros T st.
  apply (@fixFingerTable_lookup_fails unit T ring_heap ring_cfg
           spec_betweenRightIncl spec_powerOffset (fun _ _ => []) st st []
           (Some "Successor list not initialized"%string));
    [reflexivity|left; reflexivity].
Defined.

(** ** The shape of the finger table *)

Lemma all_nil_forallb (f : list VnodePtr) :
  (forall j, 0 <= j -> nil_or_absent (index f j)) ->
  forallb (fun p => ptr_eqb p None) f = true.
Proof.
  induction f as [|p f IH]; intros Hnil; [reflexivity|].
  cbn [forallb]. apply andb_true_iff. split.
  - apply ptr_eqb_eq. destruct (Hnil 0 ltac:(lia)) as [H|H];
      [injection H as ->; reflexivity|discriminate].
  - apply IH. intros j Hj. rewrite <- (index_cons p) by lia.
    apply Hnil. lia.
Qed.

Lemma filled_to_nil_only_at_end (f : list VnodePtr) :
  forall k, filled_to k f -> nil_only_at_end f = true.
Proof.
  induction f as [|p f IH]; intros k (Hk & Hfill & Hnil); [reflexivity|].
  destruct p as [a|]; cbn [nil_only_at_end].
  - destruct (Z_le_gt_dec k 0) as [H0|H0].
    + destruct (Hnil 0 ltac:(lia)) as [H|H]; discriminate.
    + apply (IH (k - 1)). split; [simpl length in Hk; lia|]. split.
      * intros j Hj. rewrite <- (index_cons (Some a)) by lia.
        apply Hfill. lia.
      * intros j Hj. destruct (Z_lt_ge_dec j 0) as [Hneg|Hpos].
        { right. unfold index. destruct (Z.ltb_spec j 0); [reflexivity|lia]. }
        rewrite <- (index_cons (Some a)) by lia. apply Hnil. lia.
  - assert (k = 0).
    { destruct (Z_le_gt_dec k 0); [lia|].
      destruct (Hfill 0 ltac:(lia)) as [a Ha]. discriminate. }
    subst k. apply all_nil_forallb. intros j Hj.
    rewrite <- (index_cons None) by lia. apply Hnil. lia.
Qed.

Lemma filled_to_replicate (n : nat) : filled_to 0 (replicate n None).
Proof.
  split; [lia|]. split; [intros; lia|].
  intros j _. unfold index, nil_or_absent.
  destruct (j <? 0); [right; reflexivity|].
  destruct (replicate n None !! Z.to_nat j) as [p|] eqn:E;
    [|right; reflexivity].
  apply lookup_replicate in E. destruct E as [-> _]. left. reflexivity.
Qed.

(** Writing one vnode to the slots [idx .. last], with [idx] in the
    filled part or just behind it, keeps the table filled without a
    gap. *)
Lemma filled_to_write (k idx last : Z) (c : addr) (f f' : list VnodePtr) :
  filled_to k f ->
  length f' = length f ->
  0 <= idx <= k -> idx <= last < Z.of_nat (length f) ->
  (forall j, index f' j =
             if (idx <=? j) && (j <=? last) then Some (Some c)
             else index f j) ->
  filled_to (Z.max k (last + 1)) f'.
Proof.
  intros (Hk & Hfill & Hnil) Hlen Hidx Hlast Hf. split; [lia|]. split.
  - intros j Hj. rewrite Hf.
    destruct (Z.leb_spec idx j), (Z.leb_spec j last); cbn [andb]; eauto;
      apply Hfill; lia.
  - intros j Hj. rewrite Hf.
    destruct (Z.leb_spec idx j), (Z.leb_spec j last); cbn [andb];
      try lia; apply Hnil; lia.
Qed.

Section FingerShape.
Context {W : Type} {T : Transport W}.
Variable heap : addr -> Vnode.
Variable cfg : Config.
Variable between : list byte -> list byte -> list byte -> bool.
Variable betweenRightIncl : list byte -> list byte -> list byte -> bool.
Variable powerOffset : list byte -> Z -> Z -> list byte.
Variable closestPreceeding : localVnode -> list byte -> list addr.

(** A refresh from an index in the filled part, or just behind it,
    leaves the table filled without a gap, and answers with an index in
    the filled part or just behind it. *)
Lemma fixFingerTableAtIndex_fills (idx next k : Z) (e : option error)
    (st st' : St W) :
  fixFingerTableAtIndex heap cfg betweenRightIncl powerOffset
    closestPreceeding idx st = Done ((next, e), st') ->
  hashBits cfg = Z.of_nat (length (finger (vn st))) ->
  filled_to k (finger (vn st)) ->
  0 <= idx <= k -> idx < hashBits cfg ->
  exists k', k <= k' /\ filled_to k' (finger (vn st')) /\
             0 <= next <= k' /\ next < hashBits cfg.
Proof.
  intros H Hhb Hk Hidx Hlt.
  unfold fixFingerTableAtIndex in H. hrun_in H.
  destruct (FindSuccessors heap betweenRightIncl closestPreceeding 1
              (powerOffset (Id (self (vn st))) idx (hashBits cfg)) st)
    as [[[nodes err] st1]| |] eqn:Ef; try discriminate.
  apply FindSuccessors_vn in Ef. cbn beta iota in H.
  assert (Hearly : Done ((idx, err), st1) = Done ((next, e), st') ->
            exists k', k <= k' /\ filled_to k' (finger (vn st')) /\
                       0 <= next <= k' /\ next < hashBits cfg).
  { intros H'. injection H' as <- <- <-. rewrite Ef.
    exists k. split; [lia|]. split; [exact Hk|]. lia. }
  destruct nodes as [|node nodes]; [hrun_in H; auto|].
  destruct err as [err|]; [hrun_in H; auto|].
  hrun_in H. clear Hearly.
  assert (Hin : 0 <= idx < Z.of_nat (length (finger (vn st1))))
    by (rewrite Ef; lia).
  destruct (index_in_range _ _ Hin) as [old Hold].
  destruct node as [a|].
  - destruct (trans_Ping (Some a) (world st1)) as [[alive perr] w2] eqn:Hping.
    rewrite (probe_candidate_rule heap idx a old alive perr w2 st1 Hold Hping)
      in H.
    cbn beta iota zeta in H.
    set (probed := match old with
                   | Some o => negb (same_String (heap o) (heap a))
                   | None => false
                   end) in H.
    assert (Hc : exists c,
      (if probed && (is_err perr || negb alive) then old else Some a)
      = Some c).
    { subst probed. destruct old as [o|]; [|exists a; reflexivity].
      destruct (negb (same_String (heap o) (heap a)) &&
                (is_err perr || negb alive)); eauto. }
    destruct Hc as [c Hc]. rewrite Hc in H.
    match type of H with
    | adopt_finger _ _ _ _ _ _ ?s = _ =>
        destruct (adopt_finger_run heap cfg betweenRightIncl powerOffset
                    idx c s)
          as (last & f & Hrun & Hl & Hlen & _ & _ & Hf)
    end.
    { cbn [vn]. rewrite Ef. exact Hhb. } { lia. }
    rewrite Hrun in H. injection H as <- <- <-.
    cbn [vn finger set_finger] in *. rewrite Ef in Hlen, Hf.
    exists (Z.max k (last + 1)). split; [lia|]. split.
    + apply (filled_to_write k idx last c (finger (vn st))); auto; lia.
    + destruct (Z.eqb_spec (last + 1) (hashBits cfg)); lia.
  - unfold probe_candidate, index_or_panic in H. hrun_in H.
    rewrite Hold in H. hrun_in H.
    destruct old as [o|]; hrun_in H; [discriminate|].
    unfold adopt_finger, store_or_panic in H. hrun_in H.
    rewrite store_some in H by lia. hrun_in H.
    replace (Z.to_nat (hashBits cfg - idx)) with
      (S (Z.to_nat (hashBits cfg - idx - 1))) in H by lia.
    cbn [extend_finger] in H.
    destruct (Z.leb_spec (hashBits cfg) (idx + 1)); hrun_in H;
      [|discriminate].
    injection H as <- <- <-. cbn [vn finger set_finger].
    assert (Hsame : <[Z.to_nat idx := None]> (finger (vn st1)) =
                    finger (vn st1)).
    { apply list_insert_id. unfold index in Hold.
      destruct (Z.ltb_spec idx 0); [lia|exact Hold]. }
    rewrite Hsame, Ef. exists k. split; [lia|]. split; [exact Hk|].
    destruct (Z.eqb_spec (idx + 1) (hashBits cfg)); lia.
Qed.

Local Abbreviation check :=
  (checkNewSuccessor heap cfg between betweenRightIncl powerOffset
     closestPreceeding).

Lemma finger_filled_successors (v : localVnode) (s : list VnodePtr) :
  finger_filled cfg v -> finger_filled cfg (set_successors s v).
Proof. intros H. exact H. Qed.

Lemma finger_filled_predecessor (v : localVnode) (p : VnodePtr) :
  finger_filled cfg v -> finger_filled cfg (set_predecessor p v).
Proof. intros H. exact H. Qed.

(** The table a vnode starts with: [hashBits] nil slots, cursor 0. *)
Lemma finger_filled_init (v : localVnode) :
  0 < hashBits cfg ->
  finger v = replicate (Z.to_nat (hashBits cfg)) None ->
  last_finger v = 0 ->
  finger_filled cfg v.
Proof.
  intros Hhb Hf Hc. unfold finger_filled. rewrite Hf, Hc.
  rewrite length_replicate. split; [lia|]. split; [lia|].
  exists 0. split; [apply filled_to_replicate|lia].
Qed.

Lemma fixFingerTableAtIndex_0_filled (r : Z * option error) (st st' : St W) :
  finger_filled cfg (vn st) ->
  fixFingerTableAtIndex heap cfg betweenRightIncl powerOffset
    closestPreceeding 0 st = Done (r, st') ->
  finger_filled cfg (vn st').
Proof.
  intros (Hhb & Hcur & k & Hk & Hle) H. destruct r as [next e].
  pose proof (fixFingerTableAtIndex_frame _ _ _ _ _ _ _ _ _ _ H)
    as ((f & Hv & Hf) & _).
  destruct (fixFingerTableAtIndex_fills 0 next k e st st' H Hhb Hk)
    as (k' & Hkk & Hk' & _); [lia|lia|].
  unfold finger_filled. rewrite Hv in Hk' |- *.
  cbn [finger last_finger set_finger] in *.
  split; [congruence|]. split; [exact Hcur|].
  exists k'. split; [exact Hk'|lia].
Qed.

Lemma fixFingerTable_filled (e : option error) (st st' : St W) :
  finger_filled cfg (vn st) ->
  fixFingerTable heap cfg betweenRightIncl powerOffset closestPreceeding st =
  Done (e, st') ->
  finger_filled cfg (vn st').
Proof.
  intros (Hhb & Hcur & k & Hk & Hle) H.
  unfold fixFingerTable in H. hrun_in H.
  destruct (fixFingerTableAtIndex heap cfg betweenRightIncl powerOffset
              closestPreceeding (last_finger (vn st)) st)
    as [[[next err] st1]| |] eqn:Ef; try discriminate.
  pose proof (fixFingerTableAtIndex_frame _ _ _ _ _ _ _ _ _ _ Ef)
    as ((f & Hv & Hf) & _).
  destruct (fixFingerTableAtIndex_fills _ next k err st st1 Ef Hhb Hk)
    as (k' & Hkk & Hk' & Hnext & Hlt); [lia|lia|].
  cbn beta iota in H. rewrite Hv in Hk'.
  cbn [finger set_finger] in Hk'.
  destruct err as [err|]; hrun_in H; injection H as <- <-;
    unfold finger_filled; cbn [vn]; rewrite Hv;
    cbn [finger last_finger set_finger set_last_finger];
    (split; [congruence|]); (split; [lia|]);
    exists k'; (split; [exact Hk'|lia]).
Qed.

(** checkNewSuccessor keeps every property of the vnode that a change
    of the successor list and a refresh of finger index 0 keep. *)
Lemma checkNewSuccessor_keeps (P : localVnode -> Prop) :
  (forall v s, P v -> P (set_successors s v)) ->
  (forall st st' r,
     P (vn st) ->
     fixFingerTableAtIndex heap cfg betweenRightIncl powerOffset
       closestPreceeding 0 st = Done (r, st') ->
     P (vn st')) ->
  forall fuel e st st',
    check fuel st = Done (e, st') -> P (vn st) -> P (vn st').
Proof.
  intros Hsucc Hfix fuel e st st' H HP.
  unfold checkNewSuccessor, index_or_panic in H. hrun_in H.
  destruct (index (successors (vn st)) 0) as [[b|]|]; hrun_in H;
    try discriminate.
  2:{ injection H as <- <-. exact HP. }
  unfold rpc in H.
  destruct (trans_GetPredecessor (Some b) (world st)) as [[m0 err0] w1].
  hrun_in H.
  destruct (repair_loop heap betweenRightIncl fuel 0
              (knownSuccessors (vn st)) (Some b) m0 err0
              (mkSt (vn st) w1 (calls st ++ [CallGetPredecessor (Some b)])))
    as [[[succ m] st1]| |] eqn:Er; try discriminate.
  apply repair_frame in Er. cbn [vn] in Er. destruct Er as (s1 & Hv1 & _).
  assert (HP1 : P (vn st1)) by (rewrite Hv1; apply Hsucc, HP).
  cbn beta iota in H. destruct m as [m|].
  2:{ hrun_in H. injection H as <- <-. exact HP1. }
  hrun_in H. destruct succ as [c|]; hrun_in H; [|discriminate].
  destruct (between (Id (self (vn st1))) (Id (heap c)) (Id (heap m))).
  2:{ hrun_in H. injection H as <- <-. exact HP1. }
  hrun_in H. unfold rpc in H.
  destruct (trans_Ping (Some m) (world st1)) as [[alive perr] w2].
  hrun_in H. destruct (is_err perr || negb alive).
  { hrun_in H. unfold rpc in H. cbn [world vn] in H.
    destruct (trans_Notify (Some c) (self (vn st1)) w2) as [r w3].
    hrun_in H. injection H as <- <-. exact HP1. }
  hrun_in H. unfold store_or_panic in H.
  destruct (store (shift_right (successors (vn st1))) 0 (Some m)) as [s2|]
    eqn:Es2; hrun_in H; [|discriminate].
  match type of H with
  | context [fixFingerTableAtIndex ?h ?c ?b ?p ?cp ?i ?s] =>
      destruct (fixFingerTableAtIndex h c b p cp i s)
        as [[[nx ferr] st3]| |] eqn:Ef; try discriminate
  end.
  apply Hfix in Ef.
  2:{ cbn [vn]. apply (Hsucc (vn st1) s2), HP1. }
  cbn beta iota in H. destruct ferr as [ferr|]; hrun_in H.
  - injection H as <- <-. exact Ef.
  - destruct (OnNewSuccessor (vn st3)); hrun_in H; injection H as <- <-;
      exact Ef.
Qed.

Lemma checkNewSuccessor_filled (fuel : nat) (e : option error)
    (st st' : St W) :
  finger_filled cfg (vn st) ->
  check fuel st = Done (e, st') ->
  finger_filled cfg (vn st').
Proof.
  intros HP H. revert H HP.
  apply (checkNewSuccessor_keeps (finger_filled cfg)).
  - intros v s. apply finger_filled_successors.
  - intros st0 st1 r HP H. exact (fixFingerTableAtIndex_0_filled r st0 st1 HP H).
Qed.

(** Every stabilization pass keeps the finger table filled from index 0
    without a gap, with the cursor inside the filled part or just behind
    it. *)
Lemma stabilize_filled (delay now : Z) (fuel : nat) (u u' : Upkeep)
    (errs : list (option error)) (st st' : St W) :
  finger_filled cfg (vn st) ->
  stabilize heap cfg between betweenRightIncl powerOffset closestPreceeding
    delay now fuel u st = Done ((u', errs), st') ->
  finger_filled cfg (vn st').
Proof.
  intros HP H. unfold stabilize in H. cbn [shutdown timer stabilized] in H.
  destruct (shutdown u) as [sent|].
  { injection H as <- <- <-. exact HP. }
  rewrite bind_run in H.
  destruct (check fuel st) as [[e1 st1]| |] eqn:E1; try discriminate.
  apply (checkNewSuccessor_filled _ _ _ _ HP) in E1.
  cbn beta iota in H. rewrite bind_run in H.
  destruct (notifySuccessor heap cfg st1) as [[e2 st2]| |] eqn:E2;
    try discriminate.
  apply notifySuccessor_frame in E2. destruct E2 as (s & B1 & _).
  assert (HP2 : finger_filled cfg (vn st2))
    by (rewrite B1; apply finger_filled_successors, E1).
  cbn beta iota in H. rewrite bind_run in H.
  destruct (fixFingerTable heap cfg betweenRightIncl powerOffset
              closestPreceeding st2) as [[e3 st3]| |] eqn:E3;
    try discriminate.
  apply (fixFingerTable_filled _ _ _ HP2) in E3.
  cbn beta iota in H. rewrite bind_run in H.
  destruct (checkPredecessor st3) as [[e4 st4]| |] eqn:E4; try discriminate.
  apply checkPredecessor_frame in E4. destruct E4 as (D & _).
  hrun_in H. injection H as <- <- <-.
  destruct D as [D|D]; rewrite D;
    [apply finger_filled_predecessor|]; exact E3.
Qed.

(** A table of that shape is one the snapshot encoding is lossless
    on: it is not empty and holds no nil entry before a non-nil one. *)
Lemma finger_filled_round_trip_shape (v : localVnode) :
  finger_filled cfg v ->
  finger v <> [] /\ nil_only_at_end (finger v) = true.
Proof.
  intros (Hhb & Hcur & k & Hk & _). split.
  - intros E. rewrite E in Hhb. simpl in Hhb. lia.
  - exact (filled_to_nil_only_at_end _ _ Hk).
Qed.

End FingerShape.
